(** * nginx_dashboard: access/error log parsing and security heuristics

    A shallow embedding of the log-analysis core of [nginx_dashboard.py]:
    [parse_nginx_log], [parse_php_error_log], [get_extension],
    [detect_brute_force], [detect_sql_injection], [detect_xss] and the
    per-IP error statistics of the "Security" tab.

    Conventions of the embedding.
    - A Python [str] is a [list ascii]; a character is a code point below
      256.  The character classes ([\d], [\s], lower-casing) are the ones
      Python uses on that range.  Text with a code point of 256 or more is
      outside of the embedding: there [\d] has further decimal digits and
      letter case further pairs, and every statement below is about lines,
      paths and addresses written with code points below 256.
    - A Python [dict] with string keys, and hence a row of a pandas
      DataFrame, is a [gmap string cell]; a DataFrame is the list of its
      rows, in index order.
    - Exceptions are values of [exn] in the result type [res]; the loops
      that catch them do so explicitly.
    - Each regular expression of the source is written with the
      backtracking combinators of section [Regex], one combinator per
      construct of the pattern.
    - [int] is Python's unbounded integer ([Z]); [int()] of a text refuses
      more than [int_max_str_digits] digits, the interpreter's default.
    - Rates are exact rationals, compared by cross-multiplication. *)

From Stdlib Require Import ZArith QArith List Ascii String Lia Bool Permutation Sorted.
From stdpp Require Import gmap strings list sorting.
Import ListNotations.

Local Open Scope Z_scope.

(* ===================================================================== *)
(** ** Characters and strings *)
(* ===================================================================== *)

Abbreviation str := (list ascii).

(** A string literal of the source, e.g. [lit "login"]. *)
Definition lit (x : string) : str := list_ascii_of_string x.

Definition code (c : ascii) : Z := Z.of_N (N_of_ascii c).

Definition in_range (lo hi : Z) (c : ascii) : bool :=
  (lo <=? code c) && (code c <=? hi).

(** [\d] on code points below 256: the decimal digits 0 to 9.  (Beyond
    that range [\d] has the decimal digits of other scripts as well.) *)
Definition is_digit (c : ascii) : bool := in_range 48 57 c.

(** [\s], [str.strip()] and [str.split()] share one notion of white space:
    TAB..CR, FS..US, SPACE, NEL and NBSP. *)
Definition is_space (c : ascii) : bool :=
  in_range 9 13 c || in_range 28 32 c
  || (code c =? 133) || (code c =? 160).

Definition is_upper (c : ascii) : bool := in_range 65 90 c.
Definition is_lower (c : ascii) : bool := in_range 97 122 c.

(** [[A-Za-z ]] *)
Definition is_alpha_space (c : ascii) : bool :=
  is_upper c || is_lower c || (code c =? 32).

(** [[a-fA-F0-9:]] *)
Definition is_hex_colon (c : ascii) : bool :=
  in_range 97 102 c || in_range 65 70 c || is_digit c || (code c =? 58).

(** [[\d\.]] *)
Definition is_digit_dot (c : ascii) : bool := is_digit c || (code c =? 46).

Definition is_char (x c : ascii) : bool := Ascii.eqb c x.
Definition not_char (x c : ascii) : bool := negb (Ascii.eqb c x).

(** [.] without DOTALL: anything but a line feed. *)
Definition is_dot (c : ascii) : bool := not_char "010"%char c.

Definition of_code (z : Z) : ascii := ascii_of_N (Z.to_N z).

(** [str.lower()] on one character: A-Z, and the upper-case letters of
    Latin-1 (all of U+00C0..U+00DE but the multiplication sign). *)
Definition lower_char (c : ascii) : ascii :=
  if is_upper c || (in_range 192 222 c && negb (code c =? 215))
  then of_code (code c + 32) else c.

(** The upper-case form of a lower-case ASCII letter; other characters are
    kept. [capitalize] is only applied to text made of such letters and
    blanks. *)
Definition upper_char (c : ascii) : ascii :=
  if is_lower c then of_code (code c - 32) else c.

Definition lower (x : str) : str := map lower_char x.

(** [str.capitalize()]: first character upper-cased, the rest lower-cased. *)
Definition capitalize (x : str) : str :=
  match x with
  | [] => []
  | c :: t => upper_char c :: lower t
  end.

Definition str_eqb (a b : str) : bool := bool_decide (a = b).

(** [x.strip()] *)
Fixpoint lstrip (x : str) : str :=
  match x with
  | c :: t => if is_space c then lstrip t else x
  | [] => []
  end.

Definition rstrip (x : str) : str := rev (lstrip (rev x)).

Definition strip (x : str) : str := rstrip (lstrip x).

(** [x.split(sep)] for a one-character separator: the pieces between the
    separators, never an empty list. *)
Fixpoint split_on (sep : ascii) (x : str) : list str :=
  match x with
  | [] => [[]]
  | c :: t =>
      if Ascii.eqb c sep then [] :: split_on sep t
      else match split_on sep t with
           | p :: ps => (c :: p) :: ps
           | [] => [[c]]
           end
  end.

(** [x.split(sep, 1)]: cut at the first separator only. *)
Fixpoint split_once (sep : ascii) (x : str) : list str :=
  match x with
  | [] => [[]]
  | c :: t =>
      if Ascii.eqb c sep then [[]; t]
      else match split_once sep t with
           | p :: ps => (c :: p) :: ps
           | [] => [[c]]
           end
  end.

(** [x.split()]: the maximal runs of non-blank characters. *)
Fixpoint split_ws_from (cur : str) (x : str) : list str :=
  match x with
  | [] => match cur with [] => [] | _ => [cur] end
  | c :: t =>
      if is_space c
      then match cur with
           | [] => split_ws_from [] t
           | _ => cur :: split_ws_from [] t
           end
      else split_ws_from (cur ++ [c]) t
  end.

Definition split_ws (x : str) : list str := split_ws_from [] x.

(** [sub in x] for strings. *)
Fixpoint is_prefix (p x : str) : bool :=
  match p, x with
  | [], _ => true
  | a :: p', b :: x' => Ascii.eqb a b && is_prefix p' x'
  | _ :: _, [] => false
  end.

Fixpoint contains (sub x : str) : bool :=
  is_prefix sub x ||
  match x with
  | [] => false
  | _ :: t => contains sub t
  end.

(** [c in x] for one character. *)
Definition has_char (c : ascii) (x : str) : bool := existsb (is_char c) x.

(* ===================================================================== *)
(** ** Exceptions *)
(* ===================================================================== *)

Inductive exn : Type := IndexError | ValueError | KeyError.

Inductive res (A : Type) : Type :=
| Ok (a : A)
| Raise (e : exn).
Arguments Ok {A} a.
Arguments Raise {A} e.

#[global] Instance res_ret : MRet res := fun A a => Ok a.

#[global] Instance res_bind : MBind res := fun A B f m =>
  match m with
  | Ok a => f a
  | Raise e => Raise e
  end.

(** [l[i]] for a non-negative literal index. *)
Definition index {A} (l : list A) (i : nat) : res A :=
  match nth_error l i with
  | Some a => Ok a
  | None => Raise IndexError
  end.

(** [l[-1]] *)
Definition index_last {A} (l : list A) : res A :=
  match rev l with
  | a :: _ => Ok a
  | [] => Raise IndexError
  end.

(** [int(x)] in base ten: blanks around, an optional sign, then digits
    with single underscores allowed between them. *)
Fixpoint int_digits (prev_digit : bool) (acc : Z) (x : str) : res Z :=
  match x with
  | [] => if prev_digit then Ok acc else Raise ValueError
  | c :: t =>
      if is_digit c then int_digits true (10 * acc + (code c - 48)) t
      else if Ascii.eqb c "_"%char && prev_digit then int_digits false acc t
      else Raise ValueError
  end.

(** A whole number in a text: blanks around, an optional sign, then what
    [digits] reads. *)
Definition signed (digits : str -> res Z) (x : str) : res Z :=
  match strip x with
  | c :: t =>
      if Ascii.eqb c "-"%char then v ← digits t; Ok (- v)
      else if Ascii.eqb c "+"%char then digits t
      else digits (c :: t)
  | [] => Raise ValueError
  end.

(** The interpreter's limit on the digits of a text that [int()]
    converts ([sys.int_max_str_digits], 4300 unless reconfigured): a
    longer number raises [ValueError].  The sign and the underscores do
    not count. *)
Definition int_max_str_digits : nat := 4300.

Definition digit_count (x : str) : nat := length (List.filter is_digit x).

Definition int_limited (body : str) : res Z :=
  v ← int_digits false 0 body;
  if (int_max_str_digits <? digit_count body)%nat then Raise ValueError
  else Ok v.

Definition int (x : str) : res Z := signed int_limited x.

(* ===================================================================== *)
(** ** Regular expressions *)
(* ===================================================================== *)

(** The patterns of the source are run by a backtracking matcher written in
    continuation-passing style: a combinator matches its construct on a
    prefix of the subject and hands the rest to its continuation; when the
    continuation fails it tries its next alternative, in the order of
    Python's [re] (longest first for a greedy repeat, shortest first for a
    lazy one). *)
Section Regex.
Context {R : Type}.

Definition matcher : Type := str -> option R.

(** One character of a class. *)
Definition rx_set (p : ascii -> bool) (k : matcher) : matcher :=
  fun x =>
    match x with
    | c :: t => if p c then k t else None
    | [] => None
    end.

(** One given character. *)
Definition rx_char (c : ascii) (k : matcher) : matcher := rx_set (is_char c) k.

(** A literal word. *)
Fixpoint rx_lit (l : str) (k : matcher) : matcher :=
  match l with
  | [] => k
  | c :: l' => rx_char c (rx_lit l' k)
  end.

(** [p{0,n}], greedy; [acc] is what the repeat has matched so far. *)
Fixpoint rx_upto (n : nat) (p : ascii -> bool) (acc : str)
    (k : str -> matcher) (x : str) : option R :=
  match n, x with
  | S n', c :: t =>
      if p c then
        match rx_upto n' p (acc ++ [c]) k t with
        | Some r => Some r
        | None => k acc x
        end
      else k acc x
  | _, _ => k acc x
  end.

(** [p*] and [p+], greedy, capturing. *)
Definition rx_star (p : ascii -> bool) (k : str -> matcher) : matcher :=
  fun x => rx_upto (length x) p [] k x.

Definition rx_plus (p : ascii -> bool) (k : str -> matcher) : matcher :=
  rx_star p (fun g => match g with [] => fun _ => None | _ :: _ => k g end).

(** [p{lo,hi}], greedy, capturing. *)
Definition rx_rep (lo hi : nat) (p : ascii -> bool) (k : str -> matcher) : matcher :=
  rx_upto hi p [] (fun g => if (lo <=? length g)%nat then k g else fun _ => None).

(** [p*?], lazy, capturing. *)
Fixpoint rx_lazy (p : ascii -> bool) (acc : str) (k : str -> matcher)
    (x : str) : option R :=
  match k acc x with
  | Some r => Some r
  | None =>
      match x with
      | c :: t => if p c then rx_lazy p (acc ++ [c]) k t else None
      | [] => None
      end
  end.

(** [(body){n}] *)
Fixpoint rx_times (n : nat) (body : matcher -> matcher) (k : matcher) : matcher :=
  match n with
  | O => k
  | S n' => body (rx_times n' body k)
  end.

(** [a|b] *)
Definition rx_alt (a b : matcher) : matcher :=
  fun x => match a x with Some r => Some r | None => b x end.

(** [$]: the end of the subject, or just before a final line feed. *)
Definition rx_dollar (r : R) : matcher :=
  fun x =>
    match x with
    | [] => Some r
    | [c] => if Ascii.eqb c "010"%char then Some r else None
    | _ => None
    end.

(** [re.search]: the match at the leftmost position that has one. *)
Fixpoint rx_search (m : matcher) (x : str) : option R :=
  match m x with
  | Some r => Some r
  | None =>
      match x with
      | [] => None
      | _ :: t => rx_search m t
      end
  end.
End Regex.

(** [re.findall] for a pattern with one group that matches no empty text:
    the groups of the successive non-overlapping matches, scanning from the
    left.  A match gives its group and the rest of the subject; [skip]
    counts the characters of the last match still to step over. *)
Fixpoint rx_findall_from (m : str -> option (str * str)) (skip : nat) (x : str)
    : list str :=
  match x with
  | [] => []
  | _ :: t =>
      match skip with
      | S skip' => rx_findall_from m skip' t
      | O =>
          match m x with
          | Some (g, rest) =>
              g :: rx_findall_from m (length x - length rest - 1)%nat t
          | None => rx_findall_from m 0%nat t
          end
      end
  end.

Definition rx_findall (m : str -> option (str * str)) (x : str) : list str :=
  rx_findall_from m 0%nat x.

Definition dquote : ascii := "034"%char.

(** The pattern of [quoted]: a double quote, the group [[^Q]*] (with Q the
    double quote), a double quote. *)
Definition quoted_re : str -> option (str * str) :=
  rx_char dquote (rx_star (not_char dquote) (fun g =>
  rx_char dquote (fun rest => Some (g, rest)))).

(** The pattern of [bracketed]: [\[], the group [[^\]]+], [\]]. *)
Definition bracketed_re : str -> option (str * str) :=
  rx_char "["%char (rx_plus (not_char "]"%char) (fun g =>
  rx_char "]"%char (fun rest => Some (g, rest)))).

(** The pattern of [status_match]: a double quote, [\s*], the group
    [\d{3}], [\s+], the group [\d+], [\s]. *)
Definition status_re : str -> option (str * str) :=
  rx_char dquote (rx_star is_space (fun _ =>
  rx_rep 3 3 is_digit (fun g1 =>
  rx_plus is_space (fun _ =>
  rx_plus is_digit (fun g2 =>
  rx_set is_space (fun _ => Some (g1, g2))))))).

(** The pattern of [req_time_match]: a double quote, a blank, the group
    [[\d\.]+], a blank, a double quote. *)
Definition req_time_re : str -> option str :=
  rx_char dquote (rx_char " "%char (rx_plus is_digit_dot (fun g =>
  rx_char " "%char (rx_char dquote (fun _ => Some g))))).

(** [^\d{1,3}(\.\d{1,3}){3}$|^[a-fA-F0-9:]+$], used with [.match], that is,
    at the start of the subject. *)
Definition ip_regex : str -> option unit :=
  rx_alt
    (rx_rep 1 3 is_digit (fun _ =>
     rx_times 3 (fun k => rx_char "."%char (rx_rep 1 3 is_digit (fun _ => k)))
       (rx_dollar tt)))
    (rx_plus is_hex_colon (fun _ => rx_dollar tt)).

(** The pattern of [parse_php_error_log], used with [.match]: [\[], the
    lazy group [.*?], [\]], [\s+], the word PHP, [\s+], the group
    [[A-Za-z ]+], a colon, [\s*], and the group [.*]. *)
Definition php_pattern : str -> option (str * str * str) :=
  rx_char "["%char (rx_lazy is_dot [] (fun g1 =>
  rx_char "]"%char (rx_plus is_space (fun _ =>
  rx_lit (lit "PHP") (rx_plus is_space (fun _ =>
  rx_plus is_alpha_space (fun g2 =>
  rx_char ":"%char (rx_star is_space (fun _ =>
  rx_star is_dot (fun g3 _ => Some (g1, g2, g3))))))))))).

(* ===================================================================== *)
(** ** Records and tables *)
(* ===================================================================== *)

(** What [datetime.strptime] returns: a calendar date, a time of day and
    the offset from UTC. *)
Record datetime : Type := {
  year : Z; month : Z; day : Z;
  hour : Z; minute : Z; second : Z;
  utcoffset : Z
}.

#[global] Instance datetime_eq_dec : EqDecision datetime.
Proof. solve_decision. Defined.

(** The values stored in a record: [None] (and pandas' NaN), a string, a
    number, a boolean, a time stamp. *)
Inductive cell : Type :=
| CNull
| CStr (x : str)
| CInt (n : Z)
| CBool (b : bool)
| CTime (t : datetime).

#[global] Instance cell_eq_dec : EqDecision cell.
Proof. solve_decision. Defined.

(** A record is a dictionary from field names to values. *)
Abbreviation record := (gmap string cell).

(** The value of a field; a missing field reads as null, as in a table
    built from dictionaries. *)
Definition field (r : record) (name : string) : cell :=
  default CNull (r !! name).

(** A DataFrame: its column names and its rows, in index order. *)
Record DataFrame : Type := {
  columns : list string;
  rows : list record
}.

(** [df.empty] *)
Definition empty (df : DataFrame) : bool :=
  match columns df, rows df with
  | [], _ | _, [] => true
  | _, _ => false
  end.

(** [df[name]]: the column as a list of values. *)
Definition getcol (df : DataFrame) (name : string) : res (list cell) :=
  if bool_decide (name ∈ columns df)
  then Ok (map (fun r => field r name) (rows df))
  else Raise KeyError.

(** [df[name] = values]: assigns the column in place, appending it to the
    columns when it is new. *)
Fixpoint set_cells (name : string) (rs : list record) (vs : list cell) : list record :=
  match rs, vs with
  | r :: rs', v :: vs' => <[name := v]> r :: set_cells name rs' vs'
  | _, _ => rs
  end.

Definition setcol (df : DataFrame) (name : string) (vs : list cell) : DataFrame :=
  {| columns := if bool_decide (name ∈ columns df) then columns df
                else columns df ++ [name];
     rows := set_cells name (rows df) vs |}.

(** [df[mask]]: the rows where the boolean mask holds. *)
Fixpoint select (rs : list record) (mask : list bool) : list record :=
  match rs, mask with
  | r :: rs', b :: mask' => if b then r :: select rs' mask' else select rs' mask'
  | _, _ => []
  end.

Definition getrows (df : DataFrame) (mask : list bool) : DataFrame :=
  {| columns := columns df; rows := select (rows df) mask |}.

(** [pd.DataFrame(list_of_dicts)]: the columns are the keys in the order
    they are first met; every record of the parser has the same keys, in
    [access_columns] order. *)
Definition access_columns : list string :=
  ["ip"; "time"; "method"; "path"; "protocol"; "status"; "size";
   "referrer"; "user_agent"; "req_time"; "proxy_chain"]%string.

(** [pd.to_numeric(column, errors='coerce')] on one value: numbers are
    kept, booleans become 0 or 1, text is read as a whole number when it
    is one, and everything else becomes null. *)
Definition to_numeric (c : cell) : cell :=
  match c with
  | CInt n => CInt n
  | CBool b => CInt (Z.b2z b)
  | CStr x =>
      match signed (int_digits false 0) x with Ok n => CInt n | Raise _ => CNull end
  | CNull | CTime _ => CNull
  end.

(* ===================================================================== *)
(** ** The access-log parser: [parse_nginx_log] *)
(* ===================================================================== *)

(** The dictionary appended to [parsed_data]. *)
Definition access_record (ip time method path protocol status size
    referrer user_agent req_time proxy_chain : cell) : record :=
  list_to_map
    [("ip", ip); ("time", time); ("method", method); ("path", path);
     ("protocol", protocol); ("status", status); ("size", size);
     ("referrer", referrer); ("user_agent", user_agent);
     ("req_time", req_time); ("proxy_chain", proxy_chain)]%string.

(** The client address: the first entry of the proxy chain, kept when
    [ip_regex] accepts it. *)
Definition real_ip_of (proxy_chain : str) : res str :=
  match proxy_chain with
  | _ :: _ => t ← index (split_on ","%char proxy_chain) 0; Ok (strip t)
  | [] => Ok (lit "-")
  end.

Definition ip_of (real_ip : str) : str :=
  match ip_regex real_ip with
  | Some _ => real_ip
  | None => lit "-"
  end.

Section AccessLog.
(** [datetime.strptime(text, format)]; it raises [ValueError] on text
    that does not fit the format. *)
Variable strptime : str -> str -> res datetime.

Definition time_format : str := lit "%d/%b/%Y:%H:%M:%S %z".

(** The body of the loop of [parse_nginx_log] for one line: [Ok None]
    is the [continue] of the length test, [Ok (Some r)] the record
    appended, [Raise e] an exception reaching the handler of the loop. *)
Definition parse_line (line : str) : res (option record) :=
  let quoted := rx_findall quoted_re line in
  let bracketed := rx_findall bracketed_re line in
  if (length quoted <? 4)%nat || (length bracketed <? 1)%nat then Ok None
  else
    time_str ← index bracketed 0;
    request ← index quoted 0;
    referrer ← index quoted 1;
    user_agent ← index quoted 2;
    proxy_chain ← index quoted 3;
    status_size ←
      match rx_search status_re line with
      | Some (g1, g2) =>
          status ← int g1; size ← int g2; Ok (CInt status, CInt size)
      | None => Ok (CNull, CNull)
      end;
    let req_time :=
      match rx_search req_time_re line with
      | Some g => CStr g
      | None => CNull
      end in
    let req_parts := split_ws request in
    let '(method, path, protocol) :=
      match req_parts with
      | [a; b; c] => (a, b, c)
      | _ => ([], [], [])
      end in
    let time :=
      match strptime time_str time_format with
      | Ok t => CTime t
      | Raise _ => CNull
      end in
    real_ip ← real_ip_of proxy_chain;
    let ip := ip_of real_ip in
    Ok (Some (access_record (CStr ip) time (CStr method) (CStr path)
                (CStr protocol) status_size.1 status_size.2 (CStr referrer)
                (CStr user_agent) req_time (CStr proxy_chain))).

(** The loop over the lines: a line that raises is skipped like one that
    fails the length test, and the loop goes on. *)
Fixpoint parse_lines (lines : list str) : list record :=
  match lines with
  | [] => []
  | line :: rest =>
      match parse_line line with
      | Ok (Some r) => r :: parse_lines rest
      | Ok None => parse_lines rest
      | Raise _ => parse_lines rest
      end
  end.

(** [parse_nginx_log], from the lines read to the table returned. *)
Definition parse_nginx_log (lines : list str) : DataFrame :=
  let parsed_data := parse_lines lines in
  let df := {| columns := match parsed_data with [] => [] | _ => access_columns end;
               rows := parsed_data |} in
  if negb (empty df)
  then match getcol df "status" with
       | Ok st => setcol df "status" (map to_numeric st)
       | Raise _ => {| columns := []; rows := [] |}
       end
  else df.
End AccessLog.


(* ===================================================================== *)
(** ** The error-log parser: [parse_php_error_log] *)
(* ===================================================================== *)

(** The label computed from the severity words the pattern captured. *)
Definition error_type_label (error_type : str) : str :=
  let error_type := lower (strip error_type) in
  if str_eqb error_type (lit "fatal error") then lit "Fatal Error (Critical)"
  else if str_eqb error_type (lit "warning") then lit "Warning"
  else if str_eqb error_type (lit "notice") then lit "Info"
  else capitalize error_type.

Definition parse_php_line (line : str) : option record :=
  match php_pattern line with
  | Some (time_str, error_type, message) =>
      Some (list_to_map
              [("time", CStr time_str);
               ("type", CStr (error_type_label error_type));
               ("message", CStr message)]%string)
  | None => None
  end.

Definition parse_php_error_log (lines : list str) : list record :=
  omap parse_php_line lines.

(* ===================================================================== *)
(** ** Field derivation: [get_extension] *)
(* ===================================================================== *)

Definition get_extension (path : cell) : res str :=
  match path with
  | CStr path =>
      path ← index (split_once "?"%char path) 0;
      name ← index_last (split_on "/"%char path);
      if has_char "."%char name
      then ext ← index_last (split_on "."%char path); Ok (lower ext)
      else Ok []
  | _ => Ok []
  end.

(* ===================================================================== *)
(** ** Column operations of pandas *)
(* ===================================================================== *)

(** [Series.str.contains(pat, case=False, na=na)] on one value, for a
    pattern that is an alternation of literal words: a string is searched
    ignoring case, any other value gives [na] ([None] is NaN).  The
    columns searched here hold text or null; the refusal of the [.str]
    accessor on a column of another type is not modelled. *)
Definition contains_nocase (words : list str) (x : str) : bool :=
  existsb (fun w => contains (lower w) (lower x)) words.

Definition str_contains (words : list str) (na : option bool) (c : cell)
    : option bool :=
  match c with
  | CStr x => Some (contains_nocase words x)
  | _ => na
  end.

(** [a & b] of a column that may hold NaN with a boolean column: NaN
    counts as false. *)
Definition and_na (a : option bool) (b : bool) : bool :=
  match a with
  | Some x => x && b
  | None => false
  end.

(** [Series.isin(values)] for numbers *)
Definition isin (values : list Z) (c : cell) : bool :=
  match c with
  | CInt n => existsb (Z.eqb n) values
  | _ => false
  end.

(** [column >= k], [column > k] and [column == k] on a numeric column;
    null compares false. *)
Definition ge_num (k : Z) (c : cell) : bool :=
  match c with
  | CInt n => k <=? n
  | _ => false
  end.

Definition gt_num (k : Z) (c : cell) : bool :=
  match c with
  | CInt n => k <? n
  | _ => false
  end.

(** [Series.count()]: the number of values that are not null. *)
Definition notnull (c : cell) : bool :=
  match c with
  | CNull => false
  | _ => true
  end.

Definition count (col : list cell) : Z := Z.of_nat (length (filter notnull col)).

(** [(mask).sum()] *)
Definition sum_true (mask : list bool) : Z :=
  Z.of_nat (length (filter (fun b : bool => b = true) mask)).

(** *** Grouping *)

(** The order in which [groupby] lists its keys: text by code points,
    numbers by value; values of different kinds by kind. *)
Fixpoint str_ltb (a b : str) : bool :=
  match a, b with
  | _, [] => false
  | [], _ :: _ => true
  | x :: a', y :: b' =>
      (code x <? code y) || ((code x =? code y) && str_ltb a' b')
  end.

Definition kind (c : cell) : Z :=
  match c with
  | CBool _ => 0
  | CInt _ => 1
  | CTime _ => 2
  | CStr _ => 3
  | CNull => 4
  end.

Definition cell_ltb (a b : cell) : bool :=
  match a, b with
  | CStr x, CStr y => str_ltb x y
  | CInt m, CInt n => m <? n
  | CBool x, CBool y => negb x && y
  | _, _ => kind a <? kind b
  end.

Fixpoint key_ltb (a b : list cell) : bool :=
  match a, b with
  | _, [] => false
  | [], _ :: _ => true
  | x :: a', y :: b' =>
      cell_ltb x y || (bool_decide (x = y) && key_ltb a' b')
  end.

Abbreviation group := (list cell * list record)%type.

(** A new group is put at its place in key order. *)
Fixpoint insert_group (k : list cell) (r : record) (gs : list group) : list group :=
  match gs with
  | [] => [(k, [r])]
  | g :: gs' =>
      if key_ltb k g.1 then (k, [r]) :: gs
      else g :: insert_group k r gs'
  end.

(** A row with a key already met joins that key's group, at its end. *)
Fixpoint append_group (k : list cell) (r : record) (gs : list group) : list group :=
  match gs with
  | [] => []
  | g :: gs' =>
      if bool_decide (g.1 = k) then (g.1, g.2 ++ [r]) :: gs'
      else g :: append_group k r gs'
  end.

Definition add_row (by_ : list string) (gs : list group) (r : record) : list group :=
  let k := map (field r) by_ in
  if existsb (fun c => negb (notnull c)) k then gs
  else if bool_decide (k ∈ map fst gs) then append_group k r gs
  else insert_group k r gs.

(** [df.groupby(by)]: the groups in key order, each with its rows in index
    order; a row with a null key is left out.  [KeyError] for a key that
    is not a column. *)
Definition groupby (df : DataFrame) (by_ : list string) : res (list group) :=
  if forallb (fun name => bool_decide (name ∈ columns df)) by_
  then Ok (fold_left (add_row by_) (rows df) [])
  else Raise KeyError.

(** [Series.sort_values(ascending=False)] as it orders the rows of a
    table by a rational score: greater scores first. Equal scores keep
    their order here; the library's sort promises nothing about them. *)
Section SortValues.
Context {A : Type} (score : A -> Q).

Fixpoint insert_desc (x : A) (l : list A) : list A :=
  match l with
  | [] => [x]
  | y :: l' =>
      if Qle_bool (score y) (score x) then x :: l
      else y :: insert_desc x l'
  end.

Definition sort_desc (l : list A) : list A := foldr insert_desc [] l.
End SortValues.

(* ===================================================================== *)
(** ** The detectors *)
(* ===================================================================== *)

(** Each detector is given the table [df] by reference. Its result is the
    pair of [df] as the call leaves it and of the table it returns. *)

Definition count_row (g : group) : record :=
  list_to_map
    (zip ["ip"; "path"]%string g.1 ++ [("count"%string, CInt (Z.of_nat (length g.2)))]).

Definition detect_brute_force (df : DataFrame) : res (DataFrame * DataFrame) :=
  path ← getcol df "path";
  status ← getcol df "status";
  let mask := zip_with and_na (map (str_contains [lit "login"] None) path)
                              (map (isin [401; 403]) status) in
  let brute_force_df := getrows df mask in
  groups ← groupby brute_force_df ["ip"; "path"]%string;
  let brute_force_group :=
    {| columns := ["ip"; "path"; "count"]%string; rows := map count_row groups |} in
  cnt ← getcol brute_force_group "count";
  Ok (df, getrows brute_force_group (map (gt_num 5) cnt)).

Definition sql_keywords : list str :=
  map lit ["SELECT"; "UNION"; "DROP"; "INSERT"; "UPDATE"; "DELETE"; "WHERE";
           "OR"; "AND"]%string.

Definition detect_sql_injection (df : DataFrame) : res (DataFrame * DataFrame) :=
  path ← getcol df "path";
  referrer ← getcol df "referrer";
  let flags := zip_with orb (map (fun c => default false (str_contains sql_keywords (Some false) c)) path)
                            (map (fun c => default false (str_contains sql_keywords (Some false) c)) referrer) in
  let df := setcol df "potential_sql_injection" (map CBool flags) in
  flag ← getcol df "potential_sql_injection";
  Ok (df, getrows df (map (fun c => bool_decide (c = CBool true)) flag)).

Definition xss_patterns : list str :=
  map lit ["<script>"; "javascript:"; "onerror="; "onload="]%string.

Definition detect_xss (df : DataFrame) : res (DataFrame * DataFrame) :=
  path ← getcol df "path";
  referrer ← getcol df "referrer";
  let flags := zip_with orb (map (fun c => default false (str_contains xss_patterns (Some false) c)) path)
                            (map (fun c => default false (str_contains xss_patterns (Some false) c)) referrer) in
  let df := setcol df "potential_xss" (map CBool flags) in
  flag ← getcol df "potential_xss";
  Ok (df, getrows df (map (fun c => bool_decide (c = CBool true)) flag)).

(* ===================================================================== *)
(** ** Per-address error statistics (the "Security" tab) *)
(* ===================================================================== *)

(** A row of [error_stats]: the address (the index), the two aggregates
    and their quotient, which is NaN ([None]) for 0/0. *)
Record ip_stats : Type := {
  stat_ip : cell;
  total_requests : Z;
  error_requests : Z;
  error_rate : option Q
}.

Definition rate (errors total : Z) : option Q :=
  if total =? 0 then None else Some (errors # Z.to_pos total)%Q.

Definition stats_of (g : group) : ip_stats :=
  let status := map (fun r => field r "status") g.2 in
  let total := count status in
  let errors := sum_true (map (ge_num 400) status) in
  {| stat_ip := hd CNull g.1;
     total_requests := total;
     error_requests := errors;
     error_rate := rate errors total |}.

(** [rate > 0.5]; NaN compares false. *)
Definition rate_gt_half (r : option Q) : bool :=
  match r with
  | Some x => negb (Qle_bool x (1 # 2))
  | None => false
  end.

Definition rate_score (st : ip_stats) : Q := default 0%Q (error_rate st).

(** The table shown under "IPs with High Error Rate", before its rate
    column is formatted as a percentage. *)
Definition high_error_ips (df : DataFrame) : res (list ip_stats) :=
  groups ← groupby df ["ip"]%string;
  (if bool_decide ("status"%string ∈ columns df) then Ok () else Raise KeyError);;
  let error_stats := map stats_of groups in
  let high := filter (fun st => rate_gt_half (error_rate st) && (10 <? total_requests st))
                error_stats in
  Ok (take 10 (sort_desc rate_score high)).

(* ===================================================================== *)
(** ** Bot detection (the "Bot & Crawler Detection" tab) *)
(* ===================================================================== *)

Definition bot_keywords : list str :=
  map lit ["bot"; "spider"; "crawl"; "slurp"; "baidu"; "bingpreview";
           "duckduckbot"; "yandex"; "sogou"; "exabot"; "facebot"; "ia_archiver";
           "mj12bot"; "ahrefsbot"; "semrushbot"; "dotbot"; "gigabot"; "seznambot";
           "panscient"; "applebot"; "petalbot"; "gptbot"; "python-requests";
           "curl"; "wget"]%string.

(** [Series.str.lower()] on one value: text is lower-cased, any other
    value gives NaN. *)
Definition str_lower (c : cell) : cell :=
  match c with
  | CStr x => CStr (lower x)
  | _ => CNull
  end.

(** [Series.str.contains(pat, na=na)] on one value, for a pattern that is
    an alternation of literal words, letter case respected. *)
Definition str_contains_case (words : list str) (na : option bool) (c : cell)
    : option bool :=
  match c with
  | CStr x => Some (existsb (fun w => contains w x) words)
  | _ => na
  end.

(** The value of the [is_bot] column for a user agent. *)
Definition is_bot (user_agent : cell) : bool :=
  default false (str_contains_case bot_keywords (Some false) (str_lower user_agent)).

(* ===================================================================== *)
(** ** Rankings: [value_counts().head(10)] *)
(* ===================================================================== *)

(** One more occurrence of [v]: its count goes up by one, a value not met
    before is put last with count one. *)
Fixpoint bump (v : cell) (cs : list (cell * Z)) : list (cell * Z) :=
  match cs with
  | [] => [(v, 1)]
  | e :: cs' =>
      if bool_decide (e.1 = v) then (e.1, e.2 + 1) :: cs'
      else e :: bump v cs'
  end.

(** The distinct values of a column that are not null, with the number of
    their occurrences, in the order they are first met. *)
Definition tally (col : list cell) : list (cell * Z) :=
  fold_left (fun cs v => if notnull v then bump v cs else cs) col [].

(** [Series.value_counts()]: the tally, greater counts first.  Equal
    counts keep the order of the tally here; the library's sort promises
    nothing about them. *)
Definition value_counts (col : list cell) : list (cell * Z) :=
  sort_desc (fun e => inject_Z e.2) (tally col).

(** [df[name].value_counts().head(10)], the expression behind the tables
    of most frequent paths, status codes, user agents, addresses and
    referrers. *)
Definition value_counts_head (df : DataFrame) (name : string)
    : res (list (cell * Z)) :=
  col ← getcol df name;
  Ok (take 10 (value_counts col)).

Definition top_paths (df : DataFrame) := value_counts_head df "path".
Definition top_status (df : DataFrame) := value_counts_head df "status".
Definition top_agents (df : DataFrame) := value_counts_head df "user_agent".
Definition top_ips (df : DataFrame) := value_counts_head df "ip".
Definition top_referrers (df : DataFrame) := value_counts_head df "referrer".
Definition top_request_ips (df : DataFrame) := value_counts_head df "ip".

(** [column == k] on a numeric column; null compares false. *)
Definition eq_num (k : Z) (c : cell) : bool :=
  match c with
  | CInt n => n =? k
  | _ => false
  end.

(** [df[df['status'] == 404]['ip'].value_counts().head(10)] *)
Definition notfound_ips (df : DataFrame) : res (list (cell * Z)) :=
  status ← getcol df "status";
  value_counts_head (getrows df (map (eq_num 404) status)) "ip".

(** [error_df = df[df['status'] >= 400]] of the "Errors" tab. *)
Definition error_df (df : DataFrame) : res DataFrame :=
  status ← getcol df "status";
  Ok (getrows df (map (ge_num 400) status)).

(** [error_stats] of the "Security" tab, before the rows with a high rate
    are selected. *)
Definition error_stats (df : DataFrame) : res (list ip_stats) :=
  groups ← groupby df ["ip"]%string;
  (if bool_decide ("status"%string ∈ columns df) then Ok () else Raise KeyError);;
  Ok (map stats_of groups).

(* ===================================================================== *)
(** * Vocabulary of the statements *)
(* ===================================================================== *)

(** The number a run of decimal digits denotes. *)
Definition decimal_from (acc : Z) (g : str) : Z :=
  fold_left (fun a c => 10 * a + (code c - 48)) g acc.

Definition decimal (g : str) : Z := decimal_from 0 g.

(** The text before the first [sep], and the text after the last one. *)
Fixpoint before_first (sep : ascii) (x : str) : str :=
  match x with
  | [] => []
  | c :: t => if Ascii.eqb c sep then [] else c :: before_first sep t
  end.

Definition after_last (sep : ascii) (x : str) : str :=
  rev (before_first sep (rev x)).

(** The first entry of the proxy chain, trimmed; ["-"] for an empty chain. *)
Definition first_hop (proxy_chain : str) : str :=
  match proxy_chain with
  | [] => lit "-"
  | _ => strip (before_first ","%char proxy_chain)
  end.

(** The status and size found in a line. *)
Definition status_size_of (line : str) : cell * cell :=
  match rx_search status_re line with
  | Some (g1, g2) => (CInt (decimal g1), CInt (decimal g2))
  | None => (CNull, CNull)
  end.

(** The number of digits of the size text the status pattern finds in a
    line; zero when the pattern is not found. *)
Definition size_digits (line : str) : nat :=
  match rx_search status_re line with
  | Some (_, g2) => length g2
  | None => 0%nat
  end.

Section RecordOf.
Variable strptime : str -> str -> res datetime.

Definition time_of (time_str : str) : cell :=
  match strptime time_str time_format with
  | Ok t => CTime t
  | Raise _ => CNull
  end.

Definition req_time_of (line : str) : cell :=
  match rx_search req_time_re line with
  | Some g => CStr g
  | None => CNull
  end.

Definition request_line_of (request : str) : str * str * str :=
  match split_ws request with
  | [a; b; c] => (a, b, c)
  | _ => ([], [], [])
  end.

(** The record built from a line that passes the length test. *)
Definition record_of (line : str) : record :=
  let quoted := rx_findall quoted_re line in
  let bracketed := rx_findall bracketed_re line in
  let '(method, path, protocol) := request_line_of (nth 0 quoted []) in
  access_record (CStr (ip_of (first_hop (nth 3 quoted []))))
    (time_of (nth 0 bracketed []))
    (CStr method) (CStr path) (CStr protocol)
    (status_size_of line).1 (status_size_of line).2
    (CStr (nth 1 quoted [])) (CStr (nth 2 quoted []))
    (req_time_of line) (CStr (nth 3 quoted [])).

End RecordOf.

(** The number of occurrences of a character. *)
Definition count_char (c : ascii) (x : str) : nat := count_occ ascii_dec x c.

(** *** Sample inputs *)

(** A [strptime] that accepts no text. No statement below reads the time
    of a record, and the theorems hold for every [strptime]; the examples
    are run with this one. *)
Definition strptime_rejecting : str -> str -> res datetime :=
  fun _ _ => Raise ValueError.

(** A double-quoted field of a log line. *)
Definition q (x : string) : str := dquote :: lit x ++ [dquote].

(** An access-log line with the given status token and proxy chain. *)
Definition access_line (status chain : string) : str :=
  lit "10.0.0.9 - - [12/Jan/2024:00:00:00 +0000] "
  ++ q "GET /index.php?x=1 HTTP/1.1" ++ lit " " ++ lit status ++ lit " 1234 "
  ++ q "-" ++ lit " " ++ q "Mozilla/5.0" ++ lit " 0.012 " ++ q chain
  ++ ["010"%char].

(** An access-log line with the given time stamp and size token, and
    with a proxy chain as fourth quoted field when one is given. *)
Definition stamped_line (stamp : string) (size : str) (chain : option string) : str :=
  lit "10.0.0.9 - - " ++ lit stamp ++ lit " "
  ++ q "GET / HTTP/1.1" ++ lit " 200 " ++ size ++ lit " "
  ++ q "-" ++ lit " " ++ q "curl/8"
  ++ match chain with Some c => lit " " ++ q c | None => [] end
  ++ ["010"%char].

Definition stamp : string := "[12/Jan/2024:00:00:00 +0000]".

(** A size token of [n] digits. *)
Definition nines (n : nat) : str := repeat "9"%char n.

(** A line with four quoted fields, a bracketed time stamp and a size
    of 4301 digits. *)
Definition long_size_line : str :=
  stamped_line stamp (nines 4301) (Some "203.0.113.5").

(** *** Address shapes *)

(** One to three decimal digits. *)
Definition digit_group (g : str) : bool :=
  (1 <=? length g)%nat && (length g <=? 3)%nat && forallb is_digit g.

(** Four dot-separated groups of one to three digits. *)
Definition is_ipv4_shape (x : str) : bool :=
  match split_on "."%char x with
  | [a; b; c; d] => digit_group a && digit_group b && digit_group c && digit_group d
  | _ => false
  end.

(** A non-empty text of hexadecimal digits and colons. *)
Definition is_hex_colons (x : str) : bool :=
  match x with
  | [] => false
  | _ => forallb is_hex_colon x
  end.

Definition valid_ip (x : str) : bool := is_ipv4_shape x || is_hex_colons x.

(** The pieces of a split, put back together. *)
Fixpoint join (sep : ascii) (ps : list str) : str :=
  match ps with
  | [] => []
  | [p] => p
  | p :: ps' => p ++ sep :: join sep ps'
  end.

(** *** Severity labels *)

(** Title case, as the sentence "each word capitalized" reads: the first
    letter of every word in upper case, the other letters in lower case. *)
Fixpoint title_from (word_start : bool) (x : str) : str :=
  match x with
  | [] => []
  | c :: t =>
      (if word_start then upper_char (lower_char c) else lower_char c)
      :: title_from (negb (is_upper c || is_lower c)) t
  end.

Definition title_case (x : str) : str := title_from true x.

(** A line of the PHP error log. *)
Definition php_line (severity message : string) : str :=
  lit "[12-Jan-2024 00:00:00 UTC] PHP " ++ lit severity ++ lit ":  "
  ++ lit message ++ ["010"%char].

(** *** Groups and counts *)

(** The key of a row in a grouping, and the rows a grouping keeps. *)
Definition key_of (by_ : list string) (r : record) : list cell :=
  map (field r) by_.

Definition has_key (by_ : list string) (r : record) : Prop :=
  forallb notnull (key_of by_ r) = true.

(** *** Sample tables *)

(** A request as the parser records it, without a time stamp. *)
Definition request (ip path : string) (status : cell) : record :=
  access_record (CStr (lit ip)) CNull (CStr (lit "GET")) (CStr (lit path))
    (CStr (lit "HTTP/1.1")) status (CInt 0) (CStr (lit "-"))
    (CStr (lit "Mozilla/5.0")) CNull (CStr (lit ip)).

Definition frame (rs : list record) : DataFrame :=
  {| columns := access_columns; rows := rs |}.

(** *** Letter case, read off the alphabet *)

Definition ascii_uppercase : str := lit "ABCDEFGHIJKLMNOPQRSTUVWXYZ".
Definition ascii_lowercase : str := lit "abcdefghijklmnopqrstuvwxyz".

(** The character at the place of [c] in the second alphabet when [c] is
    in the first, and [c] itself otherwise. *)
Fixpoint translate (from to : str) (c : ascii) : ascii :=
  match from, to with
  | a :: from', b :: to' => if Ascii.eqb c a then b else translate from' to' c
  | _, _ => c
  end.

(** The small letter of a capital letter, and the capital of a small one. *)
Definition small (c : ascii) : ascii := translate ascii_uppercase ascii_lowercase c.
Definition capital (c : ascii) : ascii := translate ascii_lowercase ascii_uppercase c.

Definition is_ascii (c : ascii) : bool := code c <? 128.

(** [b] is the small letter [a] or its capital. *)
Definition either_case (a b : ascii) : bool :=
  Ascii.eqb b a || Ascii.eqb b (capital a).

(** [w] spells the word, letter by letter, in some mix of letter cases. *)
Fixpoint spells (word w : str) : bool :=
  match word, w with
  | [], [] => true
  | a :: word', b :: w' => either_case a b && spells word' w'
  | _, _ => false
  end.

(** The text has the word somewhere, in some mix of letter cases. *)
Definition occurs_in_any_case (word x : str) : Prop :=
  exists pre w suf, x = pre ++ w ++ suf /\ spells word w = true.

(** All the characters. *)
Definition all_chars : list ascii := map ascii_of_nat (seq 0 256).

(** *** Failed logins *)

(** A record whose path contains [login] in any letter case and whose
    status is 401 or 403. *)
Definition is_login_failure (r : record) : bool :=
  match field r "path", field r "status" with
  | CStr p, CInt n => contains (lit "login") (lower p) && ((n =? 401) || (n =? 403))
  | _, _ => false
  end.

(** The failed logins of one address on one path. *)
Definition login_failures (df : DataFrame) (ip path : cell) : list record :=
  filter (fun r => is_login_failure r = true /\ field r "ip" = ip /\ field r "path" = path)
    (rows df).

(** A row of the result of the brute-force detector. *)
Definition count_entry (ip path : cell) (n : Z) : record :=
  list_to_map [("ip", ip); ("path", path); ("count", CInt n)]%string.

Definition brute_force_sample : DataFrame :=
  frame (replicate 6 (request "9.9.9.9" "/wp-login.php" (CInt 401))
         ++ replicate 4 (request "8.8.8.8" "/wp-login.php" (CInt 401))).

(** Failed logins on paths in other spellings: six from one address on
    one path, six from another address split over two spellings of a
    path, and six on a path without the word. *)
Definition mixed_case_sample : DataFrame :=
  frame (replicate 6 (request "9.9.9.9" "/WP-Login.php" (CInt 403))
         ++ replicate 3 (request "7.7.7.7" "/wp-login.php" (CInt 401))
         ++ replicate 3 (request "7.7.7.7" "/WP-LOGIN.PHP" (CInt 401))
         ++ replicate 6 (request "6.6.6.6" "/log-in" (CInt 401))).

(** *** Flagged records *)

(** A field mentions one of the words when it is a text that contains the
    word in any letter case; a field that holds no text mentions nothing. *)
Definition mentions (words : list str) (c : cell) : bool :=
  match c with
  | CStr x => contains_nocase words x
  | _ => false
  end.

(** The flag an injection detector computes for a record. *)
Definition flagged (words : list str) (r : record) : bool :=
  mentions words (field r "path") || mentions words (field r "referrer").

(** The table without the records that lack a path or a status. *)
Definition with_path_and_status (df : DataFrame) : DataFrame :=
  {| columns := columns df;
     rows := filter (fun r => field r "path" <> CNull /\ field r "status" <> CNull)
               (rows df) |}.

Definition one_request : DataFrame :=
  frame [request "203.0.113.5" "/index.php" (CInt 200)].

(** Records lacking a status, a path and a referrer. *)
Definition absent_fields_sample : DataFrame :=
  frame [request "203.0.113.5" "/wp-login.php" CNull;
         <["path"%string := CNull]> (request "203.0.113.5" "/" (CInt 401));
         <["referrer"%string := CNull]> (request "203.0.113.5" "/?q=union" (CInt 200))].

(** *** Requests and errors of an address *)

Definition requests_of (df : DataFrame) (ip : cell) : list record :=
  filter (fun r => field r "ip" = ip) (rows df).

(** The requests of an address whose status is present. *)
Definition counted_requests (df : DataFrame) (ip : cell) : Z :=
  Z.of_nat (length (filter (fun r => field r "status" <> CNull) (requests_of df ip))).

(** The requests of an address whose status is 400 or more. *)
Definition error_count (df : DataFrame) (ip : cell) : Z :=
  Z.of_nat (length (filter (fun r => ge_num 400 (field r "status") = true)
                      (requests_of df ip))).

(** Greater scores first. *)
Definition descending {A} (score : A -> Q) (a b : A) : Prop :=
  (score b <= score a)%Q.

(** One address with six errors among eleven requests, one of which has
    no status. *)
Definition eleven_requests : DataFrame :=
  frame (replicate 6 (request "9.9.9.9" "/a" (CInt 500))
         ++ replicate 4 (request "9.9.9.9" "/a" (CInt 200))
         ++ [request "9.9.9.9" "/a" CNull]).

(** Twenty requests with eleven errors from one address, five requests,
    all errors, from another. *)
Definition error_rate_sample : DataFrame :=
  frame (replicate 11 (request "9.9.9.9" "/a" (CInt 500))
         ++ replicate 9 (request "9.9.9.9" "/a" (CInt 200))
         ++ replicate 5 (request "8.8.8.8" "/b" (CInt 404))).

(** *** Bot keywords *)

(** The keywords that decide [is_bot]: each of the other keywords of
    [bot_keywords] contains the word bot. *)
Definition core_bot_keywords : list str :=
  map lit ["bot"; "spider"; "crawl"; "slurp"; "baidu"; "bingpreview"; "yandex";
           "sogou"; "ia_archiver"; "panscient"; "python-requests"; "curl";
           "wget"]%string.

(** *** Occurrences *)

(** The number of occurrences of a value in a column. *)
Definition occurrences (v : cell) (col : list cell) : Z :=
  Z.of_nat (length (filter (fun c => c = v) col)).

(** The count recorded for a value in a list of counts. *)
Fixpoint count_in (cs : list (cell * Z)) (v : cell) : Z :=
  match cs with
  | [] => 0
  | e :: cs' => (if bool_decide (e.1 = v) then e.2 else 0) + count_in cs' v
  end.

(** Greater counts first. *)
Definition by_count (a b : cell * Z) : Prop := b.2 <= a.2.

(** The sum of a list of integers. *)
Definition total (l : list Z) : Z := foldr Z.add 0 l.

(** Requests that end with status 404 spread over three addresses. *)
Definition notfound_sample : DataFrame :=
  frame (replicate 3 (request "9.9.9.9" "/a" (CInt 404))
         ++ [request "8.8.8.8" "/b" (CInt 404); request "7.7.7.7" "/c" (CInt 200);
             request "8.8.8.8" "/c" (CInt 500)]).

(** *** Address characters *)

(** A character that the address pattern admits: one of its digit class,
    a letter from a to f in either case, a colon or a dot. *)
Definition address_char (c : ascii) : bool :=
  is_digit c || has_char c (lit "abcdefABCDEF") || is_char ":"%char c
  || is_char "."%char c.

(* ===================================================================== *)
(** * Properties *)
(* ===================================================================== *)

(** ** Character classes *)

Lemma digit_not_space c : is_digit c = true -> is_space c = false.
Proof. destruct c as [[] [] [] [] [] [] [] []]; vm_compute; congruence. Qed.

Lemma digit_not_sign c :
  is_digit c = true -> Ascii.eqb c "-"%char = false /\ Ascii.eqb c "+"%char = false.
Proof. destruct c as [[] [] [] [] [] [] [] []]; vm_compute; intuition congruence. Qed.

Lemma digit_not_dot c : is_digit c = true -> Ascii.eqb c "."%char = false.
Proof. destruct c as [[] [] [] [] [] [] [] []]; vm_compute; congruence. Qed.

Lemma digit_code c : is_digit c = true -> 0 <= code c - 48 <= 9.
Proof.
  unfold is_digit, in_range. intros H.
  apply andb_prop in H as [H1 H2]. lia.
Qed.

Lemma newline_is_space : is_space "010"%char = true.
Proof. reflexivity. Qed.

Lemma is_char_eq x c : is_char x c = true <-> c = x.
Proof. unfold is_char. apply Ascii.eqb_eq. Qed.

(** ** The matcher *)

Section RegexFacts.
Context {R : Type}.
Implicit Types (k : str -> @matcher R) (p : ascii -> bool).

(** What a greedy repeat matched: a run of the class, no longer than its
    bound, after which the continuation succeeded. *)
Lemma rx_upto_sound n p acc k x r :
  rx_upto n p acc k x = Some r ->
  exists g rest, x = g ++ rest /\ forallb p g = true /\ (length g <= n)%nat
                 /\ k (acc ++ g) rest = Some r.
Proof.
  revert acc x. induction n as [|n IH]; intros acc x H.
  - exists [], x. destruct x; simpl in H; simpl; rewrite ?app_nil_r; auto with lia.
  - destruct x as [|c t].
    + exists [], []. simpl in H. simpl; rewrite ?app_nil_r; auto with lia.
    + simpl in H. destruct (p c) eqn:Hp.
      * destruct (rx_upto n p (acc ++ [c]) k t) as [r'|] eqn:Hin.
        -- inversion H; subst r'. apply IH in Hin as (g & rest & -> & Hg & Hl & Hk).
           exists (c :: g), rest. simpl. rewrite Hp, Hg.
           rewrite <- app_assoc in Hk. simpl in Hk. auto with lia.
        -- exists [], (c :: t). simpl; rewrite ?app_nil_r; auto with lia.
      * exists [], (c :: t). simpl; rewrite ?app_nil_r; auto with lia.
Qed.

Lemma rx_upto_fallback n p acc k x :
  is_Some (k acc x) -> is_Some (rx_upto n p acc k x).
Proof.
  intros H. destruct n, x as [|c t]; simpl; auto.
  destruct (p c); auto. destruct (rx_upto n p (acc ++ [c]) k t); eauto.
Qed.

(** A repeat finds a match whenever some run within its bound lets the
    continuation succeed. *)
Lemma rx_upto_complete n p acc k g rest :
  forallb p g = true -> (length g <= n)%nat ->
  is_Some (k (acc ++ g) rest) ->
  is_Some (rx_upto n p acc k (g ++ rest)).
Proof.
  revert n acc. induction g as [|c g IH]; intros n acc Hg Hl Hk.
  - rewrite app_nil_r in Hk. now apply rx_upto_fallback.
  - simpl in Hg. apply andb_prop in Hg as [Hc Hg].
    destruct n as [|n]; [simpl in Hl; lia|].
    simpl. rewrite Hc.
    destruct (IH n (acc ++ [c])) as [r Hr]; auto.
    + simpl in Hl. lia.
    + rewrite <- app_assoc. exact Hk.
    + rewrite Hr. eauto.
Qed.

Lemma rx_star_sound p k x r :
  rx_star p k x = Some r ->
  exists g rest, x = g ++ rest /\ forallb p g = true /\ k g rest = Some r.
Proof.
  unfold rx_star. intros H.
  apply rx_upto_sound in H as (g & rest & ? & ? & _ & ?). eauto.
Qed.

Lemma rx_plus_sound p k x r :
  rx_plus p k x = Some r ->
  exists g rest, x = g ++ rest /\ forallb p g = true /\ g <> []
                 /\ k g rest = Some r.
Proof.
  unfold rx_plus. intros H.
  apply rx_star_sound in H as (g & rest & ? & ? & Hk).
  destruct g; [discriminate|]. exists (a :: g), rest. auto.
Qed.

Lemma rx_rep_sound lo hi p k x r :
  rx_rep lo hi p k x = Some r ->
  exists g rest, x = g ++ rest /\ forallb p g = true
                 /\ (lo <= length g <= hi)%nat /\ k g rest = Some r.
Proof.
  unfold rx_rep. intros H.
  apply rx_upto_sound in H as (g & rest & ? & ? & ? & Hk). simpl in Hk.
  destruct (lo <=? length g)%nat eqn:Hlo; [|discriminate].
  apply Nat.leb_le in Hlo. exists g, rest. auto.
Qed.

Lemma rx_star_complete p k g rest :
  forallb p g = true -> is_Some (k g rest) -> is_Some (rx_star p k (g ++ rest)).
Proof.
  intros. unfold rx_star. apply rx_upto_complete; auto.
  rewrite length_app. lia.
Qed.

Lemma rx_plus_complete p k g rest :
  forallb p g = true -> g <> [] -> is_Some (k g rest) ->
  is_Some (rx_plus p k (g ++ rest)).
Proof.
  intros. unfold rx_plus. apply rx_star_complete; auto.
  destruct g; congruence.
Qed.

Lemma rx_rep_complete lo hi p k g rest :
  forallb p g = true -> (lo <= length g <= hi)%nat -> is_Some (k g rest) ->
  is_Some (rx_rep lo hi p k (g ++ rest)).
Proof.
  intros Hg [Hlo Hhi] Hk. unfold rx_rep. apply rx_upto_complete; auto.
  simpl. apply Nat.leb_le in Hlo. now rewrite Hlo.
Qed.

Lemma rx_set_sound p (m : @matcher R) x r :
  rx_set p m x = Some r -> exists c t, x = c :: t /\ p c = true /\ m t = Some r.
Proof.
  destruct x as [|c t]; simpl; [discriminate|].
  destruct (p c) eqn:Hp; [|discriminate]. eauto.
Qed.

Lemma rx_char_sound c (m : @matcher R) x r :
  rx_char c m x = Some r -> exists t, x = c :: t /\ m t = Some r.
Proof.
  intros H. apply rx_set_sound in H as (c' & t & -> & Hc & Hm).
  apply is_char_eq in Hc as ->. eauto.
Qed.

Lemma rx_char_cons c (m : @matcher R) t : rx_char c m (c :: t) = m t.
Proof. unfold rx_char, rx_set, is_char. now rewrite Ascii.eqb_refl. Qed.

(** A search succeeds at some position of the subject. *)
Lemma rx_search_sound (m : @matcher R) x r :
  rx_search m x = Some r -> exists pre suf, x = pre ++ suf /\ m suf = Some r.
Proof.
  induction x as [|c t IH]; simpl.
  - destruct (m []) eqn:E; [|discriminate]. intros [= <-]. now exists [], [].
  - destruct (m (c :: t)) eqn:E.
    + intros [= <-]. now exists [], (c :: t).
    + intros H. apply IH in H as (pre & suf & -> & H). now exists (c :: pre), suf.
Qed.

Lemma rx_lazy_sound p acc (k : str -> @matcher R) x r :
  rx_lazy p acc k x = Some r ->
  exists g rest, x = g ++ rest /\ forallb p g = true /\ k (acc ++ g) rest = Some r.
Proof.
  revert acc. induction x as [|c t IH]; intros acc; simpl.
  - destruct (k acc []) eqn:E; [|discriminate]. intros [= <-].
    exists [], []. simpl. rewrite app_nil_r. auto.
  - destruct (k acc (c :: t)) eqn:E.
    + intros [= <-]. exists [], (c :: t). simpl. rewrite app_nil_r. auto.
    + destruct (p c) eqn:Hp; [|discriminate]. intros H.
      apply IH in H as (g & rest & -> & Hg & Hk).
      exists (c :: g), rest. simpl. rewrite Hp, Hg.
      rewrite <- app_assoc in Hk. auto.
Qed.

Lemma rx_lit_sound l (m : @matcher R) x r :
  rx_lit l m x = Some r -> exists rest, x = l ++ rest /\ m rest = Some r.
Proof.
  revert x. induction l as [|c l IH]; intros x; simpl.
  - eauto.
  - intros H. apply rx_char_sound in H as (t & -> & H).
    apply IH in H as (rest & -> & H). eauto.
Qed.
(** A search finds a match whenever some position of the subject has
    one. *)
Lemma rx_search_complete (m : @matcher R) pre suf :
  is_Some (m suf) -> is_Some (rx_search m (pre ++ suf)).
Proof.
  intros [r Hr]. induction pre as [|c pre IH]; simpl.
  - destruct suf; simpl; rewrite Hr; eauto.
  - destruct (m (c :: pre ++ suf)); eauto.
Qed.
End RegexFacts.

(** ** Strings and numbers *)

Lemma lstrip_id x : forallb (fun c => negb (is_space c)) x = true -> lstrip x = x.
Proof. destruct x as [|c t]; simpl; [easy|]. now destruct (is_space c). Qed.

Lemma strip_id x : forallb (fun c => negb (is_space c)) x = true -> strip x = x.
Proof.
  intros H. unfold strip, rstrip. rewrite (lstrip_id x H), lstrip_id.
  - apply rev_involutive.
  - rewrite forallb_forall in *. intros c Hc. apply H. now apply in_rev.
Qed.

(** The first character left by [lstrip], if any, is not blank. *)
Lemma lstrip_head x c t : lstrip x = c :: t -> is_space c = false.
Proof.
  induction x as [|a x IH]; simpl; [discriminate|].
  destruct (is_space a) eqn:E; auto. now intros [= -> _].
Qed.

(** Nor is the last character left by [strip]. *)
Lemma strip_last x y c : strip x = y ++ [c] -> is_space c = false.
Proof.
  unfold strip, rstrip. intros H.
  apply (f_equal (@rev ascii)) in H. rewrite rev_involutive, rev_app_distr in H.
  simpl in H. now apply lstrip_head in H.
Qed.

Lemma int_digits_run g : forall prev acc,
  forallb is_digit g = true -> g <> [] \/ prev = true ->
  int_digits prev acc g = Ok (decimal_from acc g).
Proof.
  induction g as [|c g IH]; intros prev acc Hg Hne; simpl.
  - destruct Hne as [?| ->]; [congruence|reflexivity].
  - simpl in Hg. apply andb_prop in Hg as [Hc Hg]. rewrite Hc. now apply IH; auto.
Qed.

Lemma decimal_from_bound g : forall acc,
  forallb is_digit g = true -> 0 <= acc ->
  0 <= decimal_from acc g < (acc + 1) * 10 ^ Z.of_nat (length g).
Proof.
  induction g as [|c g IH]; intros acc Hg Hacc.
  - unfold decimal_from. simpl. lia.
  - simpl in Hg. apply andb_prop in Hg as [Hc Hg].
    pose proof (digit_code c Hc) as Hd.
    change (decimal_from acc (c :: g)) with (decimal_from (10 * acc + (code c - 48)) g).
    specialize (IH (10 * acc + (code c - 48)) Hg ltac:(lia)).
    rewrite length_cons, Nat2Z.inj_succ, Z.pow_succ_r by lia.
    assert (0 < 10 ^ Z.of_nat (length g)) by (apply Z.pow_pos_nonneg; lia).
    nia.
Qed.

Lemma digit_count_run g : forallb is_digit g = true -> digit_count g = length g.
Proof.
  unfold digit_count. induction g as [|c g IH]; [reflexivity|].
  simpl. intros H. apply andb_prop in H as [-> H]. simpl. now rewrite IH.
Qed.

(** [int] of a non-empty run of digits: the number it denotes when the
    run is within the interpreter's limit, [ValueError] beyond it. *)
Lemma int_of_run g :
  forallb is_digit g = true -> g <> [] ->
  int g = if (length g <=? int_max_str_digits)%nat then Ok (decimal g)
          else Raise ValueError.
Proof.
  intros Hg Hne. unfold int, signed. rewrite strip_id.
  - destruct g as [|c t]; [congruence|].
    pose proof Hg as Hg'. simpl in Hg'. apply andb_prop in Hg' as [Hc _].
    destruct (digit_not_sign c Hc) as [-> ->].
    unfold int_limited. rewrite int_digits_run by auto.
    cbn [mbind res_bind]. unfold mbind, res_bind.
    rewrite digit_count_run by exact Hg.
    destruct (Nat.leb_spec (length (c :: t)) int_max_str_digits) as [H|H].
    + apply Nat.ltb_ge in H. now rewrite H.
    + apply Nat.ltb_lt in H. now rewrite H.
  - rewrite forallb_forall in *. intros c Hc.
    now rewrite (digit_not_space c (Hg c Hc)).
Qed.

Lemma int_of_digits g :
  forallb is_digit g = true -> g <> [] ->
  (length g <= int_max_str_digits)%nat -> int g = Ok (decimal g).
Proof.
  intros Hg Hne Hl. rewrite int_of_run by auto.
  apply Nat.leb_le in Hl. now rewrite Hl.
Qed.

(** The two groups of a status match: three digits, then at least one. *)
Lemma status_re_groups x g1 g2 :
  rx_search status_re x = Some (g1, g2) ->
  forallb is_digit g1 = true /\ length g1 = 3%nat /\
  forallb is_digit g2 = true /\ g2 <> [].
Proof.
  intros H. apply rx_search_sound in H as (pre & suf & _ & H).
  unfold status_re in H.
  apply rx_char_sound in H as (t & _ & H).
  apply rx_star_sound in H as (w & t1 & _ & _ & H).
  apply rx_rep_sound in H as (d1 & t2 & _ & Hd1 & Hl1 & H).
  apply rx_plus_sound in H as (w2 & t3 & _ & _ & _ & H).
  apply rx_plus_sound in H as (d2 & t4 & _ & Hd2 & Hn2 & H).
  apply rx_set_sound in H as (c & t5 & _ & _ & H).
  injection H as <- <-. repeat split; auto; lia.
Qed.

(** ** Records *)

Section AccessRecordFields.
Variables ip time method path protocol status size : cell.
Variables referrer user_agent req_time proxy_chain : cell.
Let r := access_record ip time method path protocol status size
           referrer user_agent req_time proxy_chain.

Lemma access_record_ip : field r "ip" = ip.
Proof. reflexivity. Qed.
Lemma access_record_status : field r "status" = status.
Proof. reflexivity. Qed.
Lemma access_record_size : field r "size" = size.
Proof. reflexivity. Qed.
Lemma access_record_path : field r "path" = path.
Proof. reflexivity. Qed.
Lemma access_record_referrer : field r "referrer" = referrer.
Proof. reflexivity. Qed.
Lemma access_record_proxy_chain : field r "proxy_chain" = proxy_chain.
Proof. reflexivity. Qed.
Lemma access_record_dom :
  dom r = list_to_set access_columns.
Proof. subst r. unfold access_record. rewrite dom_list_to_map_L. reflexivity. Qed.
End AccessRecordFields.

(** ** The access-log parser *)

Lemma split_on_first sep x : exists ps, split_on sep x = before_first sep x :: ps.
Proof.
  induction x as [|c t [ps IH]]; simpl; [now exists []|].
  destruct (Ascii.eqb c sep); [now eexists|]. rewrite IH. now eexists.
Qed.

Lemma split_once_first sep x : exists ps, split_once sep x = before_first sep x :: ps.
Proof.
  induction x as [|c t [ps IH]]; simpl; [now exists []|].
  destruct (Ascii.eqb c sep); [now eexists|]. rewrite IH. now eexists.
Qed.

Lemma real_ip_of_first_hop chain : real_ip_of chain = Ok (first_hop chain).
Proof.
  destruct chain as [|c t]; [reflexivity|].
  unfold real_ip_of, first_hop.
  destruct (split_on_first ","%char (c :: t)) as [ps ->]. reflexivity.
Qed.

Section AccessLogFacts.
Variable strptime : str -> str -> res datetime.

Lemma index_nth (l : list str) i :
  (i < length l)%nat -> index l i = Ok (nth i l []).
Proof.
  intros H. unfold index.
  destruct (nth_error l i) eqn:E.
  - now rewrite (nth_error_nth _ _ _ E).
  - apply nth_error_None in E. lia.
Qed.

(** A line that passes the length test: the only step of the loop body
    that can raise is [int] on the size, when it has more digits than
    the interpreter converts; otherwise the line gives its record. *)
Lemma parse_line_body line :
  (4 <= length (rx_findall quoted_re line))%nat ->
  (1 <= length (rx_findall bracketed_re line))%nat ->
  parse_line strptime line =
    if (size_digits line <=? int_max_str_digits)%nat
    then Ok (Some (record_of strptime line)) else Raise ValueError.
Proof.
  intros Hq Hb. unfold parse_line, record_of, size_digits.
  destruct (length (rx_findall quoted_re line) <? 4)%nat eqn:E1;
    [apply Nat.ltb_lt in E1; lia|].
  destruct (length (rx_findall bracketed_re line) <? 1)%nat eqn:E2;
    [apply Nat.ltb_lt in E2; lia|].
  simpl orb. cbv iota.
  rewrite !index_nth by lia. simpl mbind. unfold mbind, res_bind.
  rewrite real_ip_of_first_hop.
  unfold status_size_of, req_time_of, request_line_of, time_of.
  destruct (split_ws (nth 0 (rx_findall quoted_re line) []))
    as [|a [|b [|c [|d l]]]];
    (destruct (rx_search status_re line) as [[g1 g2]|] eqn:Hs; [|reflexivity]);
    destruct (status_re_groups _ _ _ Hs) as (Hd1 & Hl1 & Hd2 & Hn2);
    (rewrite (int_of_digits g1), (int_of_run g2); auto;
     [|destruct g1; try discriminate; congruence
      |rewrite Hl1; unfold int_max_str_digits; lia]);
    destruct (length g2 <=? int_max_str_digits)%nat; reflexivity.
Qed.

Lemma parse_line_passes line :
  (4 <= length (rx_findall quoted_re line))%nat ->
  (1 <= length (rx_findall bracketed_re line))%nat ->
  (size_digits line <=? int_max_str_digits)%nat = true ->
  parse_line strptime line = Ok (Some (record_of strptime line)).
Proof. intros Hq Hb Hs. rewrite parse_line_body by auto. now rewrite Hs. Qed.

Lemma parse_line_raises line :
  (4 <= length (rx_findall quoted_re line))%nat ->
  (1 <= length (rx_findall bracketed_re line))%nat ->
  (size_digits line <=? int_max_str_digits)%nat = false ->
  parse_line strptime line = Raise ValueError.
Proof. intros Hq Hb Hs. rewrite parse_line_body by auto. now rewrite Hs. Qed.

Lemma parse_line_fails line :
  (length (rx_findall quoted_re line) < 4)%nat \/
  (length (rx_findall bracketed_re line) < 1)%nat ->
  parse_line strptime line = Ok None.
Proof.
  intros H. unfold parse_line.
  destruct (length (rx_findall quoted_re line) <? 4)%nat eqn:E1; [reflexivity|].
  destruct (length (rx_findall bracketed_re line) <? 1)%nat eqn:E2; [reflexivity|].
  apply Nat.ltb_ge in E1, E2. lia.
Qed.

Lemma parse_lines_app l1 l2 :
  parse_lines strptime (l1 ++ l2) = parse_lines strptime l1 ++ parse_lines strptime l2.
Proof.
  induction l1 as [|x l1 IH]; simpl; [reflexivity|].
  destruct (parse_line strptime x) as [[r|]|e]; simpl; now rewrite IH.
Qed.
End AccessLogFacts.

(** A concrete line passes: both counts and the size limit, by evaluation. *)
Ltac line_passes :=
  apply parse_line_passes;
  [vm_compute; lia | vm_compute; lia | vm_compute; reflexivity].

(** ** Counting the quoted fields *)

Lemma count_char_cons c a x :
  count_char c (a :: x) = ((if Ascii.eqb a c then 1 else 0) + count_char c x)%nat.
Proof.
  unfold count_char. simpl. destruct (ascii_dec a c) as [->|Hne].
  - now rewrite Ascii.eqb_refl.
  - apply Ascii.eqb_neq in Hne. now rewrite Hne.
Qed.

Lemma count_char_app c x y :
  count_char c (x ++ y) = (count_char c x + count_char c y)%nat.
Proof. apply count_occ_app. Qed.

Lemma count_char_free c x :
  forallb (not_char c) x = true -> count_char c x = 0%nat.
Proof.
  induction x as [|a x IH]; [reflexivity|]. intros H. simpl in H.
  apply andb_prop in H as [Ha Hx]. rewrite count_char_cons, IH by easy.
  unfold not_char in Ha. now destruct (Ascii.eqb a c).
Qed.

(** A text either is free of [c] or splits at its first [c]. *)
Lemma first_occurrence c x :
  forallb (not_char c) x = true \/
  exists g rest, x = g ++ c :: rest /\ forallb (not_char c) g = true.
Proof.
  induction x as [|a x [IH|(g & rest & -> & Hg)]].
  - now left.
  - destruct (Ascii.eqb a c) eqn:E.
    + right. apply Ascii.eqb_eq in E as ->. now exists [], x.
    + left. simpl. unfold not_char at 1. now rewrite E.
  - right. destruct (Ascii.eqb a c) eqn:E.
    + apply Ascii.eqb_eq in E as ->. now exists [], (g ++ c :: rest).
    + exists (a :: g), rest. split; [reflexivity|]. simpl.
      unfold not_char at 1. now rewrite E.
Qed.

Lemma quoted_re_other c t : c <> dquote -> quoted_re (c :: t) = None.
Proof.
  intros H. unfold quoted_re, rx_char, rx_set, is_char.
  apply Ascii.eqb_neq in H. now rewrite H.
Qed.

Lemma quoted_re_match t g rest :
  quoted_re (dquote :: t) = Some (g, rest) ->
  t = g ++ dquote :: rest /\ forallb (not_char dquote) g = true.
Proof.
  unfold quoted_re. rewrite rx_char_cons. intros H.
  apply rx_star_sound in H as (g' & t' & -> & Hg & H).
  apply rx_char_sound in H as (t'' & -> & [= <- <-]). auto.
Qed.

Lemma quoted_re_no_match t :
  quoted_re (dquote :: t) = None -> forallb (not_char dquote) t = true.
Proof.
  intros H. destruct (first_occurrence dquote t) as [|(g & rest & -> & Hg)]; [easy|].
  exfalso. unfold quoted_re in H. rewrite rx_char_cons in H.
  destruct (rx_star_complete (not_char dquote)
              (fun g => rx_char dquote (fun rest => Some (g, rest)))
              g (dquote :: rest) Hg) as [r Hr].
  - rewrite rx_char_cons. eauto.
  - congruence.
Qed.

Lemma rx_findall_skip m n x :
  (n <= length x)%nat -> rx_findall_from m n x = rx_findall_from m 0 (drop n x).
Proof.
  revert n. induction x as [|c t IH]; intros n Hn.
  - now destruct n.
  - destruct n as [|n]; [reflexivity|]. simpl in *. apply IH. lia.
Qed.

Lemma rx_findall_quoted_free x :
  forallb (not_char dquote) x = true -> rx_findall quoted_re x = [].
Proof.
  unfold rx_findall. induction x as [|c t IH]; [reflexivity|].
  intros H. simpl in H. apply andb_prop in H as [Hc Ht]. cbn [rx_findall_from].
  rewrite quoted_re_other, IH; auto.
  unfold not_char in Hc. intros ->. now rewrite Ascii.eqb_refl in Hc.
Qed.

(** [quoted] pairs the double quotes of the line from the left: it has
    one entry for every two of them. *)
Lemma quoted_count x :
  length (rx_findall quoted_re x) = (count_char dquote x / 2)%nat.
Proof.
  remember (length x) as n eqn:Hn.
  revert x Hn. induction n as [n IH] using lt_wf_ind. intros x Hn.
  destruct x as [|c t]; [reflexivity|].
  destruct (ascii_dec c dquote) as [->|Hne].
  - unfold rx_findall. cbn [rx_findall_from].
    destruct (quoted_re (dquote :: t)) as [[g rest]|] eqn:E.
    + apply quoted_re_match in E as [-> Hg].
      rewrite rx_findall_skip by (simpl; rewrite !length_app; simpl; lia).
      replace (length (dquote :: g ++ dquote :: rest) - length rest - 1)%nat
        with (length g + 1)%nat by (simpl; rewrite !length_app; simpl; lia).
      rewrite <- drop_drop, drop_app_length.
      change (drop 1 (dquote :: rest)) with rest.
      rewrite count_char_cons, count_char_app, count_char_cons, Ascii.eqb_refl.
      rewrite (count_char_free _ g Hg). simpl length.
      fold (rx_findall quoted_re rest).
      rewrite (IH (length rest)); [|subst n; simpl; rewrite length_app; simpl; lia|reflexivity].
      replace (1 + (0 + (1 + count_char dquote rest)))%nat
        with (count_char dquote rest + 1 * 2)%nat by lia.
      rewrite Nat.div_add by lia. lia.
    + apply quoted_re_no_match in E.
      fold (rx_findall quoted_re t). rewrite rx_findall_quoted_free by easy.
      rewrite count_char_cons, Ascii.eqb_refl, count_char_free by easy.
      reflexivity.
  - unfold rx_findall. cbn [rx_findall_from]. rewrite quoted_re_other by easy.
    fold (rx_findall quoted_re t).
    rewrite (IH (length t)); [|subst n; simpl; lia|reflexivity].
    rewrite count_char_cons. apply Ascii.eqb_neq in Hne. now rewrite Hne.
Qed.

(** ** Which lines give a record *)

(** [findall] gives at least one field exactly when the pattern matches
    at some position of the subject. *)
Lemma rx_findall_some m x :
  (1 <= length (rx_findall m x))%nat <->
  exists pre suf, x = pre ++ suf /\ suf <> [] /\ is_Some (m suf).
Proof.
  unfold rx_findall. split.
  - induction x as [|c t IH]; cbn [rx_findall_from]; [simpl; lia|].
    destruct (m (c :: t)) as [[g rest]|] eqn:E.
    + intros _. exists [], (c :: t). rewrite E.
      split; [reflexivity|split; [discriminate|eauto]].
    + intros H. destruct (IH H) as (pre & suf & -> & Hne & Hs).
      exists (c :: pre), suf. auto.
  - intros (pre & suf & -> & Hne & Hs). induction pre as [|c pre IH].
    + destruct suf as [|c t]; [congruence|]. simpl app. cbn [rx_findall_from].
      destruct Hs as [[g rest] ->]. simpl. lia.
    + simpl app. cbn [rx_findall_from].
      destruct (m (c :: pre ++ suf)) as [[g rest]|]; [simpl; lia|exact IH].
Qed.

Lemma bracketed_re_match x g rest :
  bracketed_re x = Some (g, rest) ->
  x = "["%char :: g ++ "]"%char :: rest /\ g <> [] /\
  forallb (not_char "]"%char) g = true.
Proof.
  unfold bracketed_re. intros H.
  apply rx_char_sound in H as (t & -> & H).
  apply rx_plus_sound in H as (g' & t' & -> & Hg & Hne & H).
  apply rx_char_sound in H as (t'' & -> & [= <- <-]). auto.
Qed.

Lemma bracketed_re_complete g rest :
  g <> [] -> forallb (not_char "]"%char) g = true ->
  is_Some (bracketed_re ("["%char :: g ++ "]"%char :: rest)).
Proof.
  intros Hne Hg. unfold bracketed_re. rewrite rx_char_cons.
  apply rx_plus_complete; auto; rewrite ?rx_char_cons; eauto.
Qed.

(** A line has a bracketed field exactly when it has an opening bracket,
    then at least one character other than the closing bracket, then a
    closing bracket. *)
Lemma bracketed_present line :
  (1 <= length (rx_findall bracketed_re line))%nat <->
  exists pre g suf,
    line = pre ++ "["%char :: g ++ "]"%char :: suf /\ g <> [] /\
    forallb (not_char "]"%char) g = true.
Proof.
  rewrite rx_findall_some. split.
  - intros (pre & suf & -> & _ & [[g rest] H]).
    apply bracketed_re_match in H as (-> & ? & ?). eauto 6.
  - intros (pre & g & suf & -> & Hne & Hg).
    exists pre, ("["%char :: g ++ "]"%char :: suf).
    split; [reflexivity|split; [discriminate|now apply bracketed_re_complete]].
Qed.

(** The size text is a run of digits of the line. *)
Lemma size_digits_run line :
  exists pre g suf,
    line = pre ++ g ++ suf /\ forallb is_digit g = true /\
    length g = size_digits line.
Proof.
  unfold size_digits. destruct (rx_search status_re line) as [[g1 g2]|] eqn:H.
  - apply rx_search_sound in H as (pre & suf & -> & H). unfold status_re in H.
    apply rx_char_sound in H as (t & -> & H).
    apply rx_star_sound in H as (w & t1 & -> & _ & H).
    apply rx_rep_sound in H as (d1 & t2 & -> & Hd1 & Hl1 & H).
    apply rx_plus_sound in H as (w2 & t3 & -> & _ & _ & H).
    apply rx_plus_sound in H as (d2 & t4 & -> & Hd2 & Hn2 & H).
    apply rx_set_sound in H as (c & t5 & -> & _ & H).
    injection H as <- <-.
    exists (pre ++ dquote :: w ++ d1 ++ w2), d2, (c :: t5).
    split; [|auto]. rewrite <- !app_assoc. simpl. now rewrite <- !app_assoc.
  - exists [], [], line. auto.
Qed.

Lemma parse_line_eq strptime line :
  parse_line strptime line =
    if bool_decide ((4 <= length (rx_findall quoted_re line))%nat /\
                    (1 <= length (rx_findall bracketed_re line))%nat)
    then if (size_digits line <=? int_max_str_digits)%nat
         then Ok (Some (record_of strptime line)) else Raise ValueError
    else Ok None.
Proof.
  case_bool_decide as H.
  - now apply parse_line_body.
  - apply parse_line_fails. lia.
Qed.

Lemma parse_line_record strptime line r :
  parse_line strptime line = Ok (Some r) -> r = record_of strptime line.
Proof.
  rewrite parse_line_eq. case_bool_decide; [|congruence].
  destruct (size_digits line <=? int_max_str_digits)%nat; congruence.
Qed.

(** C1, as stated, fails: a line with four quoted fields and a bracketed
    time stamp whose size has 4301 digits gives no record.  [int] refuses
    the size with [ValueError], and the handler of the loop skips the
    line. *)
Lemma long_size_line_is_skipped :
  (4 <= length (rx_findall quoted_re long_size_line))%nat /\
  (1 <= length (rx_findall bracketed_re long_size_line))%nat /\
  parse_line strptime_rejecting long_size_line = Raise ValueError /\
  parse_lines strptime_rejecting [long_size_line] = [].
Proof.
  assert (Hq : (4 <= length (rx_findall quoted_re long_size_line))%nat)
    by (vm_compute; lia).
  assert (Hb : (1 <= length (rx_findall bracketed_re long_size_line))%nat)
    by (vm_compute; lia).
  assert (Hr : parse_line strptime_rejecting long_size_line = Raise ValueError).
  { apply parse_line_raises; [exact Hq|exact Hb|vm_compute; reflexivity]. }
  split; [exact Hq|split; [exact Hb|split; [exact Hr|]]].
  cbn [parse_lines]. rewrite Hr. reflexivity.
Qed.

(** C1, amended. The parser emits a record for a line if and only if
    the line has at least four double-quoted fields and at least one
    bracketed field, and the size text that the status pattern finds in it
    has no more digits than [int] converts (4300).  A line that fails
    either count is skipped by the length test; a line that meets both
    gives exactly one record, unless its size is longer, in which case
    [int] raises [ValueError] and the handler skips the line.  In a batch
    the lines before and after are parsed as they would be alone.

    The three conditions read on the line itself: four quoted fields are
    eight double quotes; a bracketed field is an opening bracket, at least
    one character other than the closing bracket, and a closing bracket;
    the size text is a run of digits of the line, so that a line without
    a run of more than 4300 digits is never refused.

    The last part runs the loop on six lines, for every [strptime]: one
    without brackets, a complete one, one with empty brackets, one with
    three quoted fields, one with a size of 4301 digits and one with a
    size of 4300 digits.  The second and the last give a record. *)
Theorem parse_line_emits_iff (strptime : str -> str -> res datetime) (line : str) :
  let quoted := rx_findall quoted_re line in
  let bracketed := rx_findall bracketed_re line in
  let counts := (4 <= length quoted)%nat /\ (1 <= length bracketed)%nat in
  let fits := (size_digits line <= int_max_str_digits)%nat in
  let emitted := bool_decide (counts /\ fits) in
  ((exists r, parse_line strptime line = Ok (Some r)) <-> counts /\ fits) /\
  (counts /\ fits -> parse_line strptime line = Ok (Some (record_of strptime line))) /\
  (~ counts -> parse_line strptime line = Ok None) /\
  (counts /\ ~ fits -> parse_line strptime line = Raise ValueError) /\
  ((4 <= length quoted)%nat <-> (8 <= count_char dquote line)%nat) /\
  ((1 <= length bracketed)%nat <->
     exists pre g suf,
       line = pre ++ "["%char :: g ++ "]"%char :: suf /\ g <> [] /\
       forallb (not_char "]"%char) g = true) /\
  (exists pre g suf,
     line = pre ++ g ++ suf /\ forallb is_digit g = true /\
     length g = size_digits line) /\
  (forall before after : list str,
     parse_lines strptime (before ++ line :: after) =
       parse_lines strptime before
       ++ (if emitted then [record_of strptime line] else [])
       ++ parse_lines strptime after) /\
  map (fun r => (field r "status", field r "size"))
    (parse_lines strptime
       [stamped_line "12/Jan/2024:00:00:00 +0000" (lit "1234") (Some "203.0.113.5");
        stamped_line stamp (lit "1234") (Some "203.0.113.5");
        stamped_line "[]" (lit "1234") (Some "203.0.113.5");
        stamped_line stamp (lit "1234") None;
        stamped_line stamp (nines 4301) (Some "203.0.113.5");
        stamped_line stamp (nines 4300) (Some "203.0.113.5")])
    = [(CInt 200, CInt 1234); (CInt 200, CInt (10 ^ 4300 - 1))].
Proof.
  intros quoted bracketed counts fits emitted.
  pose proof (parse_line_eq strptime line) as Hp.
  fold quoted bracketed in Hp. fold counts in Hp.
  assert (Hfit : (size_digits line <=? int_max_str_digits)%nat = true <-> fits)
    by apply Nat.leb_le.
  split; [|split; [|split; [|split; [|split; [|split; [|split; [|split]]]]]]].
  - rewrite Hp. case_bool_decide as H.
    + destruct (size_digits line <=? int_max_str_digits)%nat.
      * split; [intros _; split; [exact H|now apply Hfit]|eauto].
      * split; [intros [r [=]]|]. intros [_ Hf]. apply Hfit in Hf. discriminate.
    + split; [intros [r [=]]|tauto].
  - intros [Hc Hf]. rewrite Hp, bool_decide_eq_true_2 by exact Hc.
    apply Hfit in Hf. now rewrite Hf.
  - intros Hc. now rewrite Hp, bool_decide_eq_false_2 by exact Hc.
  - intros [Hc Hf]. rewrite Hp, bool_decide_eq_true_2 by exact Hc.
    destruct (size_digits line <=? int_max_str_digits)%nat; [|reflexivity].
    now destruct Hf; apply Hfit.
  - subst quoted. rewrite quoted_count.
    split; intros H.
    + apply (Nat.mul_le_mono_r _ _ 2) in H.
      pose proof (Nat.Div0.mul_div_le (count_char dquote line) 2). lia.
    + apply (Nat.Div0.div_le_mono _ _ 2) in H. exact H.
  - apply bracketed_present.
  - apply size_digits_run.
  - intros before after. rewrite parse_lines_app. f_equal.
    cbn [parse_lines]. rewrite Hp. subst emitted.
    destruct (decide counts) as [Hc|Hc].
    + rewrite (bool_decide_eq_true_2 counts) by exact Hc.
      destruct (size_digits line <=? int_max_str_digits)%nat eqn:E.
      * rewrite bool_decide_eq_true_2; [reflexivity|].
        split; [exact Hc|now apply Hfit].
      * rewrite bool_decide_eq_false_2; [reflexivity|].
        intros [_ Hf]. apply Hfit in Hf. congruence.
    + rewrite (bool_decide_eq_false_2 counts) by exact Hc.
      rewrite bool_decide_eq_false_2; [reflexivity|tauto].
  - vm_compute. reflexivity.
Qed.

(** ** The status of a record *)

Lemma status_digits_range g :
  forallb is_digit g = true -> length g = 3%nat -> 0 <= decimal g <= 999.
Proof.
  intros Hg Hl. pose proof (decimal_from_bound g 0 Hg ltac:(lia)) as H.
  rewrite Hl in H. unfold decimal. change (10 ^ Z.of_nat 3) with 1000 in H. lia.
Qed.



Lemma record_of_status strptime line :
  record_of strptime line !! "status"%string = Some (status_size_of line).1.
Proof.
  unfold record_of. destruct (request_line_of _) as [[m p] pr]. reflexivity.
Qed.

Lemma record_of_field_status strptime line :
  field (record_of strptime line) "status" = (status_size_of line).1.
Proof. unfold field. now rewrite record_of_status. Qed.

Lemma status_size_of_numeric line :
  to_numeric (status_size_of line).1 = (status_size_of line).1.
Proof. unfold status_size_of. now destruct (rx_search status_re line) as [[g1 g2]|]. Qed.

Lemma parse_lines_elem strptime lines r :
  r ∈ parse_lines strptime lines ->
  exists line, line ∈ lines /\ parse_line strptime line = Ok (Some r).
Proof.
  induction lines as [|l lines IH]; simpl.
  - intros H. inversion H.
  - destruct (parse_line strptime l) as [[r'|]|e] eqn:E.
    + intros [->|H]%elem_of_cons.
      * exists l. split; [left|exact E].
      * destruct (IH H) as (line & ? & ?). exists line. split; [now right|easy].
    + intros H. destruct (IH H) as (line & ? & ?). exists line. split; [now right|easy].
    + intros H. destruct (IH H) as (line & ? & ?). exists line. split; [now right|easy].
Qed.

Lemma parse_lines_intro strptime lines line r :
  line ∈ lines -> parse_line strptime line = Ok (Some r) ->
  r ∈ parse_lines strptime lines.
Proof.
  intros Hin Hr. induction Hin as [l lines|l l' lines Hin IH]; simpl.
  - rewrite Hr. left.
  - destruct (parse_line strptime l') as [[r'|]|e]; auto. right. auto.
Qed.

Lemma set_cells_map name (f : record -> cell) rs :
  set_cells name rs (map f rs) = map (fun r => <[name := f r]> r) rs.
Proof. induction rs as [|r rs IH]; simpl; [reflexivity|]. now rewrite IH. Qed.

Lemma getcol_ok df name :
  name ∈ columns df -> getcol df name = Ok (map (fun r => field r name) (rows df)).
Proof. intros H. unfold getcol. now rewrite bool_decide_eq_true_2. Qed.

Lemma getcol_missing df name : name ∉ columns df -> getcol df name = Raise KeyError.
Proof. intros H. unfold getcol. now rewrite bool_decide_eq_false_2. Qed.

(** Membership of a name in a list of names that is given in full. *)
Ltac in_columns := apply (bool_decide_unpack _); vm_compute; exact I.

(** The table returned holds the records of the loop: making the status
    column numeric changes none of them. *)
Lemma parse_nginx_log_rows strptime lines :
  rows (parse_nginx_log strptime lines) = parse_lines strptime lines.
Proof.
  unfold parse_nginx_log.
  destruct (parse_lines strptime lines) as [|r0 rs] eqn:E; [reflexivity|].
  cbn -[set_cells to_numeric field getcol setcol]. rewrite <- E.
  rewrite getcol_ok by in_columns. cbn -[set_cells to_numeric field].
  rewrite map_map, set_cells_map.
  rewrite <- (map_id (parse_lines strptime lines)) at 2.
  apply map_ext_in. intros r Hr. apply list_elem_of_In in Hr.
  apply parse_lines_elem in Hr as (line & _ & Hl).
  apply parse_line_record in Hl as ->.
  rewrite record_of_field_status, status_size_of_numeric.
  apply insert_id, record_of_status.
Qed.

(** C3, as stated, fails: the status token 999 is kept as the status of
    the record, outside of the range from 100 to 599. *)
Lemma status_999_is_kept :
  exists r,
    parse_line strptime_rejecting (access_line "999" "203.0.113.5") = Ok (Some r)
    /\ field r "status" = CInt 999 /\ ~ (100 <= 999 <= 599).
Proof.
  exists (record_of strptime_rejecting (access_line "999" "203.0.113.5")).
  split; [line_passes|].
  split; [vm_compute; reflexivity|lia].
Qed.

(** C3, amended. The status of an emitted record is the number written
    by the three digits of the status pattern where the pattern is found in
    the line, hence an integer from 0 to 999, and it is absent exactly
    when the pattern is not found.  The same holds in the table that
    [parse_nginx_log] returns. *)
Theorem status_is_three_digits (strptime : str -> str -> res datetime)
    (line : str) (r : record) :
  parse_line strptime line = Ok (Some r) ->
  (forall g1 g2, rx_search status_re line = Some (g1, g2) ->
     length g1 = 3%nat /\ forallb is_digit g1 = true /\
     field r "status" = CInt (decimal g1)) /\
  (field r "status" = CNull <-> rx_search status_re line = None) /\
  (forall n, field r "status" = CInt n -> 0 <= n <= 999) /\
  (forall lines, line ∈ lines -> r ∈ rows (parse_nginx_log strptime lines)).
Proof.
  intros Hr. pose proof Hr as Hr'. apply parse_line_record in Hr' as ->.
  rewrite record_of_field_status. unfold status_size_of.
  assert (Hrows : forall lines, line ∈ lines ->
            record_of strptime line ∈ rows (parse_nginx_log strptime lines)).
  { intros lines Hin. rewrite parse_nginx_log_rows. eapply parse_lines_intro; eauto. }
  destruct (rx_search status_re line) as [[g1 g2]|] eqn:Hs; cbn [fst].
  - destruct (status_re_groups _ _ _ Hs) as (Hd1 & Hl1 & _ & _).
    pose proof (status_digits_range g1 Hd1 Hl1).
    split; [|split; [|split]]; auto.
    + intros g1' g2' [= <- <-]. auto.
    + split; discriminate.
    + intros n [= <-]. lia.
  - split; [|split; [|split]]; auto; try discriminate. tauto.
Qed.

Lemma status_is_three_digits_witness :
  parse_line strptime_rejecting (access_line "200" "203.0.113.5")
    = Ok (Some (record_of strptime_rejecting (access_line "200" "203.0.113.5")))
  /\ (forall n,
        field (record_of strptime_rejecting (access_line "200" "203.0.113.5")) "status"
          = CInt n -> 0 <= n <= 999).
Proof.
  assert (H : parse_line strptime_rejecting (access_line "200" "203.0.113.5")
              = Ok (Some (record_of strptime_rejecting (access_line "200" "203.0.113.5")))).
  { line_passes. }
  split; [exact H|].
  apply (status_is_three_digits strptime_rejecting _ _ H).
Defined.

(** ** The client address *)

Lemma split_on_free sep g :
  forallb (not_char sep) g = true -> split_on sep g = [g].
Proof.
  induction g as [|c g IH]; [reflexivity|]. simpl. intros H.
  apply andb_prop in H as [Hc Hg]. unfold not_char in Hc.
  destruct (Ascii.eqb c sep); [discriminate|]. now rewrite IH.
Qed.

Lemma split_on_app sep g rest :
  forallb (not_char sep) g = true ->
  split_on sep (g ++ sep :: rest) = g :: split_on sep rest.
Proof.
  induction g as [|c g IH]; simpl.
  - now rewrite Ascii.eqb_refl.
  - intros H. apply andb_prop in H as [Hc Hg]. unfold not_char in Hc.
    destruct (Ascii.eqb c sep); [discriminate|]. now rewrite IH.
Qed.

Lemma split_on_nonempty sep x : split_on sep x <> [].
Proof. destruct (split_on_first sep x) as [ps ->]. discriminate. Qed.

Lemma join_split_on sep x : join sep (split_on sep x) = x.
Proof.
  induction x as [|c x IH]; [reflexivity|]. simpl.
  destruct (Ascii.eqb c sep) eqn:E.
  - apply Ascii.eqb_eq in E as ->.
    pose proof (split_on_nonempty sep x).
    destruct (split_on sep x) eqn:Es; [congruence|].
    cbn [join]. cbn [join] in IH. now rewrite IH.
  - pose proof (split_on_nonempty sep x).
    destruct (split_on sep x) as [|p [|p' ps]] eqn:Es; [congruence| |].
    + simpl in *. now rewrite IH.
    + cbn [join] in *. simpl. now rewrite IH.
Qed.

Lemma digits_free_of_dot g :
  forallb is_digit g = true -> forallb (not_char "."%char) g = true.
Proof.
  rewrite !forallb_forall. intros H c Hc. unfold not_char.
  now rewrite (digit_not_dot c (H c Hc)).
Qed.

Lemma digit_group_spec g :
  digit_group g = true <->
  forallb is_digit g = true /\ (1 <= length g <= 3)%nat.
Proof.
  unfold digit_group. rewrite !andb_true_iff, !Nat.leb_le. tauto.
Qed.

Lemma rx_dollar_end (x : str) :
  (forall y, x <> y ++ ["010"%char]) ->
  forall pre tail, x = pre ++ tail -> rx_dollar tt tail = Some tt -> tail = [].
Proof.
  intros Hx pre tail -> H. destruct tail as [|c [|c' t]]; [easy| |discriminate].
  simpl in H. destruct (Ascii.eqb c "010"%char) eqn:E; [|discriminate].
  apply Ascii.eqb_eq in E as ->. now destruct (Hx pre).
Qed.

Section IpRegex.
Let dotted (k : @matcher unit) : @matcher unit :=
  rx_char "."%char (rx_rep 1 3 is_digit (fun _ => k)).

Lemma dotted_sound k x :
  dotted k x = Some tt ->
  exists g rest, x = "."%char :: g ++ rest /\ digit_group g = true
                 /\ k rest = Some tt.
Proof.
  unfold dotted. intros H.
  apply rx_char_sound in H as (t & -> & H).
  apply rx_rep_sound in H as (g & rest & -> & Hg & Hl & H).
  exists g, rest. rewrite digit_group_spec. auto.
Qed.

Lemma dotted_complete k g rest :
  digit_group g = true -> is_Some (k rest) ->
  is_Some (dotted k ("."%char :: g ++ rest)).
Proof.
  rewrite digit_group_spec. intros [Hg Hl] Hk.
  unfold dotted. rewrite rx_char_cons. now apply rx_rep_complete.
Qed.

(** On a text that does not end with a line feed, [ip_regex] accepts
    the dotted quads of digit groups and the non-empty texts of
    hexadecimal digits and colons, and nothing else. *)
Lemma ip_regex_valid_ip x :
  (forall y, x <> y ++ ["010"%char]) ->
  is_Some (ip_regex x) <-> valid_ip x = true.
Proof.
  intros Hx. unfold ip_regex, rx_alt, valid_ip. rewrite orb_true_iff.
  change (rx_times 3 ?b ?k) with (dotted (dotted (dotted k))).
  split.
  - intros [[] H].
    destruct (rx_rep 1 3 is_digit _ x) as [[]|] eqn:E1.
    + left. clear H.
      apply rx_rep_sound in E1 as (g1 & r1 & E & Hg1 & Hl1 & H).
      apply dotted_sound in H as (g2 & r2 & -> & Hg2 & H).
      apply dotted_sound in H as (g3 & r3 & -> & Hg3 & H).
      apply dotted_sound in H as (g4 & r4 & -> & Hg4 & H).
      assert (r4 = []) as ->.
      { apply (rx_dollar_end x Hx
                 (g1 ++ "."%char :: g2 ++ "."%char :: g3 ++ "."%char :: g4)); [|easy].
        rewrite E. now repeat (rewrite <- ?app_assoc; simpl). }
      rewrite app_nil_r in E. subst x. unfold is_ipv4_shape.
      pose proof Hg2 as [D2 _]%digit_group_spec.
      pose proof Hg3 as [D3 _]%digit_group_spec.
      pose proof Hg4 as [D4 _]%digit_group_spec.
      rewrite !split_on_app, split_on_free by now apply digits_free_of_dot.
      rewrite Hg2, Hg3, Hg4.
      assert (digit_group g1 = true) as -> by now apply digit_group_spec.
      reflexivity.
    + right. apply rx_plus_sound in H as (g & rest & E & Hg & Hne & H).
      assert (rest = []) as -> by (eapply rx_dollar_end; eauto).
      rewrite app_nil_r in E. subst x. unfold is_hex_colons.
      destruct g; [congruence|exact Hg].
  - intros [H|H].
    + unfold is_ipv4_shape in H.
      pose proof (join_split_on "."%char x) as Hj.
      destruct (split_on "."%char x) as [|a [|b [|c [|d [|e l]]]]]; try discriminate.
      rewrite !andb_true_iff in H. destruct H as [[[Ha Hb] Hc] Hd].
      cbn [join] in Hj. subst x.
      pose proof Ha as [Da La]%digit_group_spec.
      destruct (rx_rep_complete 1 3 is_digit
                  (fun _ => dotted (dotted (dotted (rx_dollar tt))))
                  a ("."%char :: b ++ "."%char :: c ++ "."%char :: d) Da La)
        as [[] E].
      * apply dotted_complete; [easy|].
        apply dotted_complete; [easy|].
        rewrite <- (app_nil_r d). apply dotted_complete; [easy|]. now exists tt.
      * rewrite E. now exists tt.
    + destruct (rx_rep 1 3 is_digit _ x) as [[]|]; [now exists tt|].
      unfold is_hex_colons in H. destruct x as [|c t]; [discriminate|].
      rewrite <- (app_nil_r (c :: t)).
      apply rx_plus_complete; [easy|easy|now exists tt].
Qed.
End IpRegex.

Lemma first_hop_no_line_feed chain y : first_hop chain <> y ++ ["010"%char].
Proof.
  unfold first_hop. destruct chain as [|c t].
  - intros H. apply (f_equal (@rev ascii)) in H.
    rewrite rev_app_distr in H. discriminate.
  - intros H. apply strip_last in H. discriminate.
Qed.

(** [ip_of] keeps the first hop when it has one of the two shapes. *)
Lemma ip_of_first_hop chain :
  ip_of (first_hop chain) =
    if valid_ip (first_hop chain) then first_hop chain else lit "-".
Proof.
  unfold ip_of.
  pose proof (ip_regex_valid_ip (first_hop chain) (first_hop_no_line_feed chain)) as H.
  destruct (ip_regex (first_hop chain)) as [[]|].
  - destruct H as [-> _]; eauto.
  - destruct (valid_ip (first_hop chain)); [|reflexivity].
    destruct H as [_ H]. destruct (H eq_refl) as [? [=]].
Qed.

Lemma record_of_ip strptime line :
  field (record_of strptime line) "ip" =
    CStr (ip_of (first_hop (nth 3 (rx_findall quoted_re line) []))).
Proof. unfold record_of. destruct (request_line_of _) as [[m p] pr]. reflexivity. Qed.

Lemma record_of_proxy_chain strptime line :
  field (record_of strptime line) "proxy_chain" =
    CStr (nth 3 (rx_findall quoted_re line) []).
Proof. unfold record_of. destruct (request_line_of _) as [[m p] pr]. reflexivity. Qed.

Lemma parse_line_quoted strptime line r :
  parse_line strptime line = Ok (Some r) ->
  (4 <= length (rx_findall quoted_re line))%nat.
Proof. rewrite parse_line_eq. case_bool_decide; [lia|discriminate]. Qed.

(** C7. The ip of a record is the first comma-separated entry of the
    proxy chain (the fourth quoted field), trimmed, when that entry is
    four dot-separated groups of one to three digits or a non-empty text
    of hexadecimal digits and colons; otherwise it is the sentinel ["-"],
    which is also the ip for an empty proxy chain.  The chain
    ["203.0.113.5, 10.0.0.1"] gives ["203.0.113.5"] and ["not-an-ip"]
    gives ["-"]. *)
Theorem ip_is_validated_first_hop (strptime : str -> str -> res datetime)
    (line : str) (r : record) :
  parse_line strptime line = Ok (Some r) ->
  (exists proxy_chain,
     nth_error (rx_findall quoted_re line) 3 = Some proxy_chain /\
     field r "proxy_chain" = CStr proxy_chain /\
     let token := strip (before_first ","%char proxy_chain) in
     field r "ip" = CStr (if valid_ip token then token else lit "-") /\
     (proxy_chain = [] -> field r "ip" = CStr (lit "-"))) /\
  field (record_of strptime (access_line "200" "203.0.113.5, 10.0.0.1")) "ip"
    = CStr (lit "203.0.113.5") /\
  field (record_of strptime (access_line "200" "not-an-ip")) "ip" = CStr (lit "-").
Proof.
  intros Hr. pose proof (parse_line_quoted _ _ _ Hr) as Hq.
  apply parse_line_record in Hr as ->.
  split; [|split; [rewrite record_of_ip|rewrite record_of_ip]; vm_compute; reflexivity].
  exists (nth 3 (rx_findall quoted_re line) []).
  split; [apply nth_error_nth'; lia|].
  split; [apply record_of_proxy_chain|].
  rewrite record_of_ip, ip_of_first_hop.
  destruct (nth 3 (rx_findall quoted_re line) []) as [|c t] eqn:E.
  - split; reflexivity.
  - split; [reflexivity|discriminate].
Qed.

Lemma ip_is_validated_first_hop_witness :
  parse_line strptime_rejecting (access_line "200" "203.0.113.5, 10.0.0.1")
    = Ok (Some (record_of strptime_rejecting (access_line "200" "203.0.113.5, 10.0.0.1")))
  /\ field (record_of strptime_rejecting (access_line "200" "not-an-ip")) "ip"
       = CStr (lit "-").
Proof.
  assert (H : parse_line strptime_rejecting (access_line "200" "203.0.113.5, 10.0.0.1")
              = Ok (Some (record_of strptime_rejecting
                            (access_line "200" "203.0.113.5, 10.0.0.1")))).
  { line_passes. }
  split; [exact H|].
  apply (ip_is_validated_first_hop strptime_rejecting _ _ H).
Defined.

(** C10. The validation accepts a first proxy-chain entry with no dot and
    no colon: every non-empty text of hexadecimal digits and colons matches
    the second alternative of [ip_regex], so it is kept as the ip of the
    record instead of the sentinel; ["deadbeef"] and ["12345"] are two
    such entries. *)
Theorem hex_text_passes_as_ip (strptime : str -> str -> res datetime)
    (line : str) (r : record) (token : str) :
  parse_line strptime line = Ok (Some r) ->
  first_hop (nth 3 (rx_findall quoted_re line) []) = token ->
  token <> [] -> forallb is_hex_colon token = true ->
  rx_plus is_hex_colon (fun _ => rx_dollar tt) token = Some tt /\
  field r "ip" = CStr token /\
  field (record_of strptime (access_line "200" "deadbeef")) "ip" = CStr (lit "deadbeef") /\
  field (record_of strptime (access_line "200" "12345")) "ip" = CStr (lit "12345") /\
  has_char "."%char (lit "deadbeef") || has_char ":"%char (lit "deadbeef")
  || has_char "."%char (lit "12345") || has_char ":"%char (lit "12345") = false.
Proof.
  intros Hr Htok Hne Hhex. apply parse_line_record in Hr as ->.
  split; [|split; [|split; [|split]]].
  - destruct (rx_plus_complete is_hex_colon (fun _ => rx_dollar tt) token [] Hhex Hne)
      as [[] E]; [now exists tt|].
    now rewrite app_nil_r in E.
  - rewrite record_of_ip, ip_of_first_hop, Htok. unfold valid_ip, is_hex_colons.
    destruct token; [congruence|]. now rewrite Hhex, orb_true_r.
  - rewrite record_of_ip. vm_compute. reflexivity.
  - rewrite record_of_ip. vm_compute. reflexivity.
  - vm_compute. reflexivity.
Qed.

Lemma hex_text_passes_as_ip_witness :
  parse_line strptime_rejecting (access_line "200" "deadbeef, 10.0.0.1")
    = Ok (Some (record_of strptime_rejecting (access_line "200" "deadbeef, 10.0.0.1")))
  /\ field (record_of strptime_rejecting (access_line "200" "deadbeef, 10.0.0.1")) "ip"
       = CStr (lit "deadbeef").
Proof.
  assert (H : parse_line strptime_rejecting (access_line "200" "deadbeef, 10.0.0.1")
              = Ok (Some (record_of strptime_rejecting
                            (access_line "200" "deadbeef, 10.0.0.1")))).
  { line_passes. }
  split; [exact H|].
  apply (hex_text_passes_as_ip strptime_rejecting _ _ (lit "deadbeef") H);
    [vm_compute; reflexivity|discriminate|vm_compute; reflexivity].
Defined.

(** ** The extension of a path *)

Lemma split_on_last_free sep x :
  exists ps l, split_on sep x = ps ++ [l] /\ forallb (not_char sep) l = true.
Proof.
  induction x as [|c x (ps & l & IH & Hl)].
  - now exists [], [].
  - simpl. destruct (Ascii.eqb c sep) eqn:E.
    + exists ([] :: ps), l. now rewrite IH.
    + rewrite IH. destruct ps as [|p ps]; simpl.
      * exists [], (c :: l). split; [reflexivity|]. simpl.
        unfold not_char at 1. now rewrite E.
      * now exists ((c :: p) :: ps), l.
Qed.

Lemma join_snoc sep ps l :
  join sep (ps ++ [l]) =
    match ps with
    | [] => l
    | _ => join sep ps ++ sep :: l
    end.
Proof.
  induction ps as [|p ps IH]; [reflexivity|].
  destruct ps as [|p' ps]; [reflexivity|].
  change (join sep ((p :: p' :: ps) ++ [l]))
    with (p ++ sep :: join sep ((p' :: ps) ++ [l])).
  rewrite IH. cbn [join]. now rewrite <- app_assoc.
Qed.

Lemma before_first_free sep g :
  forallb (not_char sep) g = true -> before_first sep g = g.
Proof.
  induction g as [|c g IH]; [reflexivity|]. simpl. intros H.
  apply andb_prop in H as [Hc Hg]. unfold not_char in Hc.
  destruct (Ascii.eqb c sep); [discriminate|]. now rewrite IH.
Qed.

Lemma before_first_app sep g rest :
  forallb (not_char sep) g = true -> before_first sep (g ++ sep :: rest) = g.
Proof.
  induction g as [|c g IH]; simpl.
  - now rewrite Ascii.eqb_refl.
  - intros H. apply andb_prop in H as [Hc Hg]. unfold not_char in Hc.
    destruct (Ascii.eqb c sep); [discriminate|]. now rewrite IH.
Qed.

Lemma forallb_rev {A} (p : A -> bool) l : forallb p (rev l) = forallb p l.
Proof.
  induction l as [|a l IH]; [reflexivity|]. simpl.
  rewrite forallb_app, IH. simpl. now rewrite andb_true_r, andb_comm.
Qed.

(** The last piece of a split is the text after the last separator. *)
Lemma split_on_last sep x : exists ps, split_on sep x = ps ++ [after_last sep x].
Proof.
  destruct (split_on_last_free sep x) as (ps & l & Hs & Hl).
  exists ps. rewrite Hs. do 2 f_equal.
  pose proof (join_split_on sep x) as Hj. rewrite Hs, join_snoc in Hj.
  unfold after_last. rewrite <- Hj.
  destruct ps as [|p ps].
  - rewrite before_first_free by now rewrite forallb_rev.
    now rewrite rev_involutive.
  - rewrite rev_app_distr. cbn [rev]. rewrite <- app_assoc. simpl.
    rewrite before_first_app by now rewrite forallb_rev.
    now rewrite rev_involutive.
Qed.

Lemma index_last_split_on sep x : index_last (split_on sep x) = Ok (after_last sep x).
Proof.
  destruct (split_on_last sep x) as [ps ->]. unfold index_last.
  now rewrite rev_app_distr.
Qed.

Lemma has_char_rev c x : has_char c (rev x) = has_char c x.
Proof.
  unfold has_char. induction x as [|a x IH]; [reflexivity|]. simpl.
  rewrite existsb_app, IH. simpl. now rewrite orb_false_r, orb_comm.
Qed.

(** Cutting at the first [b] does not change what stands before the
    first [a], when an [a] stands before that [b]. *)
Lemma before_first_nested a b y :
  has_char a (before_first b y) = true ->
  before_first a (before_first b y) = before_first a y.
Proof.
  induction y as [|c y IH]; [reflexivity|]. simpl.
  destruct (Ascii.eqb c b); [discriminate|]. simpl. unfold is_char at 1.
  destruct (Ascii.eqb c a); [reflexivity|]. simpl. intros H. now rewrite IH.
Qed.

Lemma after_last_nested a b x :
  has_char a (after_last b x) = true ->
  after_last a (after_last b x) = after_last a x.
Proof.
  unfold after_last. rewrite has_char_rev, rev_involutive. intros H.
  now rewrite before_first_nested.
Qed.

(** ** Letter case *)

Lemma all_chars_complete c : In c all_chars.
Proof.
  unfold all_chars. rewrite <- (ascii_nat_embedding c).
  apply in_map, in_seq. pose proof (nat_ascii_bounded c). lia.
Qed.

(** Lower-casing sends exactly a small letter and its capital to the
    small letter. *)
Lemma lower_char_small_letter a b :
  is_lower a = true -> Ascii.eqb (lower_char b) a = either_case a b.
Proof.
  assert (H : forallb (fun a => forallb (fun b =>
                implb (is_lower a)
                  (Bool.eqb (Ascii.eqb (lower_char b) a) (either_case a b)))
                all_chars) all_chars = true) by (vm_compute; reflexivity).
  rewrite forallb_forall in H. specialize (H a (all_chars_complete a)).
  rewrite forallb_forall in H. specialize (H b (all_chars_complete b)).
  intros Ha. rewrite Ha in H. simpl in H. now apply Bool.eqb_prop in H.
Qed.

(** On the characters of ASCII, lower-casing replaces the capital letters
    of the alphabet by their small letters and keeps the rest. *)
Lemma lower_char_ascii c : is_ascii c = true -> lower_char c = small c.
Proof.
  assert (H : forallb (fun c => implb (is_ascii c)
                                  (Ascii.eqb (lower_char c) (small c)))
                all_chars = true) by (vm_compute; reflexivity).
  rewrite forallb_forall in H. specialize (H c (all_chars_complete c)).
  intros Hc. rewrite Hc in H. simpl in H. now apply Ascii.eqb_eq.
Qed.

Lemma lower_ascii x : forallb is_ascii x = true -> lower x = map small x.
Proof.
  induction x as [|c x IH]; [reflexivity|]. simpl.
  intros H. apply andb_prop in H as [Hc Hx].
  now rewrite lower_char_ascii, IH.
Qed.

(** C9. [get_extension] returns the empty string for an input that is
    not a string and for the empty string; otherwise it drops everything
    from the first question mark, takes the text after the last slash,
    and returns the lower-cased text after the last dot of that segment
    when the segment has a dot, else the empty string; it never raises.
    Lower-casing a text of ASCII characters replaces each capital letter
    of the alphabet by its small letter and keeps the other characters.
    ["/index.php?x=1"] gives ["php"], ["/"] and [None] give [""];
    ["/A.PHP"] gives ["php"], ["/img/Photo.JPG?size=L"] gives ["jpg"] and
    ["/archive.TAR.Gz"] gives ["gz"]. *)
Theorem get_extension_spec (path : cell) :
  match path with
  | CStr p =>
      let name := after_last "/"%char (before_first "?"%char p) in
      get_extension path =
        Ok (if has_char "."%char name then lower (after_last "."%char name) else [])
  | _ => get_extension path = Ok []
  end /\
  get_extension (CStr []) = Ok [] /\
  get_extension (CStr (lit "/index.php?x=1")) = Ok (lit "php") /\
  get_extension (CStr (lit "/")) = Ok [] /\
  get_extension CNull = Ok [] /\
  (forall x, forallb is_ascii x = true -> lower x = map small x) /\
  get_extension (CStr (lit "/A.PHP")) = Ok (lit "php") /\
  get_extension (CStr (lit "/img/Photo.JPG?size=L")) = Ok (lit "jpg") /\
  get_extension (CStr (lit "/archive.TAR.Gz")) = Ok (lit "gz").
Proof.
  split; [|repeat split; try reflexivity; apply lower_ascii].
  destruct path as [|p| | |]; try reflexivity.
  unfold get_extension.
  destruct (split_once_first "?"%char p) as [ps ->].
  cbn [index nth_error]. unfold mbind, res_bind.
  rewrite index_last_split_on.
  destruct (has_char "."%char (after_last "/"%char (before_first "?"%char p))) eqn:E;
    [|reflexivity].
  rewrite index_last_split_on. now rewrite after_last_nested.
Qed.

(** ** The severity of an error-log record *)


(** The severity group of a match is a non-empty run of letters and
    blanks. *)
Lemma php_pattern_severity line time_str raw message :
  php_pattern line = Some (time_str, raw, message) ->
  raw <> [] /\ forallb is_alpha_space raw = true.
Proof.
  unfold php_pattern. intros H.
  apply rx_char_sound in H as (t0 & _ & H).
  apply rx_lazy_sound in H as (g1 & t1 & _ & _ & H).
  apply rx_char_sound in H as (t2 & _ & H).
  apply rx_plus_sound in H as (w1 & t3 & _ & _ & _ & H).
  apply rx_lit_sound in H as (t4 & _ & H).
  apply rx_plus_sound in H as (w2 & t5 & _ & _ & _ & H).
  apply rx_plus_sound in H as (g2 & t6 & _ & Hg2 & Hn2 & H).
  apply rx_char_sound in H as (t7 & _ & H).
  apply rx_star_sound in H as (w3 & t8 & _ & _ & H).
  apply rx_star_sound in H as (g3 & t9 & _ & _ & H).
  injection H as <- <- <-. auto.
Qed.

Lemma forallb_lstrip p x : forallb p x = true -> forallb p (lstrip x) = true.
Proof.
  induction x as [|c x IH]; [easy|]. intros H. simpl.
  destruct (is_space c); [|exact H].
  simpl in H. apply andb_prop in H as [_ H]. auto.
Qed.

Lemma forallb_strip p x : forallb p x = true -> forallb p (strip x) = true.
Proof.
  intros H. unfold strip, rstrip.
  rewrite forallb_rev. apply forallb_lstrip. rewrite forallb_rev.
  now apply forallb_lstrip.
Qed.

Lemma lower_char_alpha_space c :
  is_alpha_space c = true ->
  is_lower (lower_char c) || (code (lower_char c) =? 32) = true.
Proof. destruct c as [[] [] [] [] [] [] [] []]; vm_compute; congruence. Qed.

Lemma lower_char_fixed c :
  is_lower c || (code c =? 32) = true -> lower_char c = c.
Proof. destruct c as [[] [] [] [] [] [] [] []]; vm_compute; congruence. Qed.

Lemma lower_alpha_space x :
  forallb is_alpha_space x = true ->
  forallb (fun c => is_lower c || (code c =? 32)) (lower x) = true.
Proof.
  induction x as [|c x IH]; [easy|]. simpl. intros H.
  apply andb_prop in H as [Hc Hx]. now rewrite lower_char_alpha_space, IH.
Qed.

Lemma lower_fixed x :
  forallb (fun c => is_lower c || (code c =? 32)) x = true -> lower x = x.
Proof.
  induction x as [|c x IH]; [easy|]. simpl. intros H.
  apply andb_prop in H as [Hc Hx]. now rewrite lower_char_fixed, IH.
Qed.

(** C5, as stated, fails: the severity ["Parse error"] is labelled
    ["Parse error"], not the title-cased ["Parse Error"]. *)
Lemma parse_error_not_title_cased :
  exists r,
    parse_php_line (php_line "Parse error" "boom") = Some r
    /\ field r "type" = CStr (lit "Parse error")
    /\ title_case (lit "Parse error") = lit "Parse Error"
    /\ field r "type" <> CStr (title_case (lit "Parse error")).
Proof.
  eexists. split; [reflexivity|]. split; [reflexivity|].
  split; [reflexivity|]. vm_compute. discriminate.
Qed.

(** C5, amended. For a line matched by the error parser, the severity
    words are trimmed and lower-cased, and the label is
    ["Fatal Error (Critical)"] for ["fatal error"], ["Warning"] for
    ["warning"], ["Info"] for ["notice"]; any other severity is labelled
    by its lower-cased text with the first character in upper case (the
    later words are not capitalized). *)
Theorem severity_label_normalized (line : str) (r : record) :
  parse_php_line line = Some r ->
  exists time_str raw message,
    php_pattern line = Some (time_str, raw, message) /\
    raw <> [] /\ forallb is_alpha_space raw = true /\
    let severity := lower (strip raw) in
    forallb (fun c => is_lower c || (code c =? 32)) severity = true /\
    field r "type" =
      CStr (if bool_decide (severity = lit "fatal error") then lit "Fatal Error (Critical)"
            else if bool_decide (severity = lit "warning") then lit "Warning"
            else if bool_decide (severity = lit "notice") then lit "Info"
            else match severity with
                 | [] => []
                 | c :: rest => upper_char c :: rest
                 end).
Proof.
  unfold parse_php_line.
  destruct (php_pattern line) as [[[time_str raw] message]|] eqn:E; [|discriminate].
  intros [= <-]. exists time_str, raw, message.
  destruct (php_pattern_severity _ _ _ _ E) as [Hne Hraw].
  split; [reflexivity|]. split; [exact Hne|]. split; [exact Hraw|].
  assert (Hsev : forallb (fun c => is_lower c || (code c =? 32)) (lower (strip raw)) = true)
    by now apply lower_alpha_space, forallb_strip.
  split; [exact Hsev|].
  change (field _ "type") with (CStr (error_type_label raw)).
  unfold error_type_label, str_eqb, capitalize.
  repeat case_bool_decide; try reflexivity.
  destruct (lower (strip raw)) as [|c rest]; [reflexivity|].
  simpl in Hsev. apply andb_prop in Hsev as [_ Hrest].
  now rewrite (lower_fixed rest Hrest).
Qed.

Lemma severity_label_normalized_witness :
  parse_php_line (php_line "Fatal error" "boom")
    = Some (list_to_map
              [("time"%string, CStr (lit "12-Jan-2024 00:00:00 UTC"));
               ("type"%string, CStr (lit "Fatal Error (Critical)"));
               ("message"%string, CStr (lit "boom"))])
  /\ exists time_str raw message,
       php_pattern (php_line "Fatal error" "boom") = Some (time_str, raw, message)
       /\ raw <> [].
Proof.
  assert (H : parse_php_line (php_line "Fatal error" "boom")
    = Some (list_to_map
              [("time"%string, CStr (lit "12-Jan-2024 00:00:00 UTC"));
               ("type"%string, CStr (lit "Fatal Error (Critical)"));
               ("message"%string, CStr (lit "boom"))])) by reflexivity.
  split; [exact H|].
  destruct (severity_label_normalized _ _ H) as (t & raw & m & Hp & Hne & _).
  exists t, raw, m. auto.
Defined.

(** ** Tables: masks and groups *)

Lemma select_map (f : record -> bool) rs :
  select rs (map f rs) = filter (fun r => f r = true) rs.
Proof.
  induction rs as [|r rs IH]; [reflexivity|]. simpl.
  rewrite filter_cons, IH. destruct (f r); now case_decide.
Qed.

Lemma zip_with_map {A B C D} (h : B -> C -> D) (f : A -> B) (g : A -> C) l :
  zip_with h (map f l) (map g l) = map (fun a => h (f a) (g a)) l.
Proof. induction l as [|a l IH]; simpl; [reflexivity|]. now rewrite IH. Qed.

Lemma filter_none {A} (P : A -> Prop) `{!forall x, Decision (P x)} (l : list A) :
  (forall x, x ∈ l -> ~ P x) -> filter P l = [].
Proof.
  induction l as [|a l IH]; [reflexivity|]. intros Hl.
  rewrite filter_cons_False by (apply Hl; left).
  apply IH. intros x Hx. apply Hl. now right.
Qed.

Section GroupBy.
Variable by_ : list string.

Lemma insert_group_perm k r gs : insert_group k r gs ≡ₚ (k, [r]) :: gs.
Proof.
  induction gs as [|g gs IH]; simpl; [reflexivity|].
  destruct (key_ltb k g.1); [reflexivity|].
  rewrite IH. apply Permutation_swap.
Qed.

Lemma append_group_map k r gs :
  NoDup (map fst gs) ->
  append_group k r gs =
    map (fun g => if bool_decide (g.1 = k) then (g.1, g.2 ++ [r]) else g) gs.
Proof.
  induction gs as [|g gs IH]; [reflexivity|]. simpl.
  intros [Hg Hgs]%NoDup_cons. case_bool_decide as E.
  - f_equal. rewrite <- (map_id gs) at 1. apply map_ext_in.
    intros g' Hin. case_bool_decide as E'; [|reflexivity].
    exfalso. apply Hg. rewrite E, <- E'. apply list_elem_of_In.
    now apply in_map.
  - now rewrite IH.
Qed.

Lemma append_group_keys k r gs :
  NoDup (map fst gs) -> map fst (append_group k r gs) = map fst gs.
Proof.
  intros H. rewrite append_group_map by easy. rewrite map_map.
  apply map_ext. intros g. now case_bool_decide.
Qed.

(** What holds of the groups built from the rows [seen] so far. *)
Definition grouped (seen : list record) (gs : list group) : Prop :=
  NoDup (map fst gs) /\
  (forall g, g ∈ gs ->
     forallb notnull g.1 = true /\ g.2 <> [] /\
     g.2 = filter (fun r => key_of by_ r = g.1) seen) /\
  (forall r, r ∈ seen -> has_key by_ r -> key_of by_ r ∈ map fst gs).

Lemma grouped_nil : grouped [] [].
Proof.
  split; [constructor|]. split; intros ? H; inversion H.
Qed.

Lemma grouped_add seen gs r :
  grouped seen gs -> grouped (seen ++ [r]) (add_row by_ gs r).
Proof.
  intros (Hnd & Hgs & Hall). unfold add_row. fold (key_of by_ r).
  destruct (existsb (fun c => negb (notnull c)) (key_of by_ r)) eqn:Enull.
  - (* a null key: the row is left out *)
    assert (Hno : ~ has_key by_ r).
    { unfold has_key. intros Hk. apply existsb_exists in Enull as (c & Hc & Hn).
      rewrite forallb_forall in Hk. rewrite (Hk c Hc) in Hn. discriminate. }
    split; [exact Hnd|]. split.
    + intros g Hg. destruct (Hgs g Hg) as (Hv & Hne & Hf).
      repeat split; auto. rewrite filter_app, <- Hf.
      rewrite filter_cons, filter_nil. case_decide as E; [|now rewrite app_nil_r].
      exfalso. apply Hno. unfold has_key. now rewrite E.
    + intros r' [Hin|Hin]%elem_of_app Hk; [now apply Hall|].
      apply list_elem_of_singleton in Hin as ->. contradiction.
  - assert (Hk : has_key by_ r).
    { unfold has_key. apply forallb_forall. intros c Hc.
      destruct (notnull c) eqn:E; [reflexivity|].
      assert (existsb (fun c => negb (notnull c)) (key_of by_ r) = true)
        by (apply existsb_exists; exists c; now rewrite E).
      congruence. }
    case_bool_decide as Ein.
    + (* a key already met *)
      split; [now rewrite append_group_keys|].
      rewrite append_group_map by easy. split.
      * intros g' (g & -> & Hg)%list_elem_of_fmap.
        destruct (Hgs g Hg) as (Hv & Hne & Hf).
        rewrite filter_app, filter_cons, filter_nil.
        case_bool_decide as E; simpl.
        -- split; [exact Hv|]. split; [now destruct (g.2)|].
           rewrite decide_True by congruence. now rewrite <- Hf.
        -- split; [exact Hv|]. split; [exact Hne|].
           rewrite decide_False by congruence. now rewrite app_nil_r.
      * rewrite <- append_group_map, append_group_keys by easy.
        intros r' [Hin|Hin]%elem_of_app Hk'; [now apply Hall|].
        now apply list_elem_of_singleton in Hin as ->.
    + (* a new key *)
      pose proof (insert_group_perm (key_of by_ r) r gs) as Hp.
      split.
      * rewrite Hp. simpl. apply NoDup_cons. auto.
      * split.
        -- intros g Hg. rewrite Hp in Hg.
           apply elem_of_cons in Hg as [->|Hg]; simpl.
           ++ split; [exact Hk|]. split; [discriminate|].
              rewrite filter_app, filter_cons, filter_nil, decide_True by easy.
              rewrite (filter_none _ seen); [reflexivity|].
              intros r' Hr' E. apply Ein.
              rewrite <- E. apply Hall; [easy|]. unfold has_key. now rewrite E.
           ++ destruct (Hgs g Hg) as (Hv & Hne & Hf).
              split; [exact Hv|]. split; [exact Hne|].
              rewrite filter_app, filter_cons, filter_nil, <- Hf.
              case_decide as E; [|now rewrite app_nil_r].
              exfalso. apply Ein. rewrite E. apply list_elem_of_fmap.
              now exists g.
        -- intros r' Hin Hk'. rewrite Hp. simpl.
           apply elem_of_app in Hin as [Hin|Hin].
           ++ right. now apply Hall.
           ++ apply list_elem_of_singleton in Hin as ->. left.
Qed.

Lemma grouped_fold seen gs rs :
  grouped seen gs -> grouped (seen ++ rs) (fold_left (add_row by_) rs gs).
Proof.
  revert seen gs. induction rs as [|r rs IH]; intros seen gs H; simpl.
  - now rewrite app_nil_r.
  - replace (seen ++ r :: rs) with ((seen ++ [r]) ++ rs) by now rewrite <- app_assoc.
    apply IH. now apply grouped_add.
Qed.

(** The groups of a table: one for each key without a null that some
    row has, holding the rows with that key in their order. *)
Lemma groupby_groups df gs :
  groupby df by_ = Ok gs ->
  NoDup (map fst gs) /\
  forall k rs,
    (k, rs) ∈ gs <->
    forallb notnull k = true /\ rs <> [] /\
    rs = filter (fun r => key_of by_ r = k) (rows df).
Proof.
  unfold groupby. destruct (forallb _ by_); [|discriminate]. intros [= <-].
  destruct (grouped_fold [] [] (rows df) grouped_nil) as (Hnd & Hgs & Hall).
  simpl in *. split; [exact Hnd|]. intros k rs. split.
  - intros H. apply (Hgs _ H).
  - intros (Hv & Hne & Hf).
    destruct rs as [|r0 rs']; [congruence|].
    assert (Hr0 : r0 ∈ filter (fun r => key_of by_ r = k) (rows df))
      by (rewrite <- Hf; left).
    apply list_elem_of_filter in Hr0 as [Hk0 Hin0].
    assert (Hk : k ∈ map fst (fold_left (add_row by_) (rows df) [])).
    { rewrite <- Hk0. apply Hall; [easy|]. unfold has_key. now rewrite Hk0. }
    apply list_elem_of_fmap in Hk as ([k' rs''] & -> & Hg).
    destruct (Hgs _ Hg) as (_ & _ & Hf'). simpl in *.
    now rewrite Hf, <- Hf'.
Qed.

Lemma groupby_ok df :
  Forall (fun name => name ∈ columns df) by_ ->
  exists gs, groupby df by_ = Ok gs.
Proof.
  intros H. unfold groupby.
  rewrite (proj2 (forallb_forall _ by_)); [eauto|].
  intros name Hin. apply bool_decide_eq_true_2.
  rewrite Forall_forall in H. apply H. now apply list_elem_of_In.
Qed.
End GroupBy.

(** ** The brute-force detector *)

Lemma select_map_map {A} (h : A -> record) (f : A -> bool) l :
  select (map h l) (map f l) = map h (filter (fun a => f a = true) l).
Proof.
  induction l as [|a l IH]; [reflexivity|]. simpl.
  rewrite filter_cons, IH. destruct (f a); now case_decide.
Qed.

Lemma brute_force_mask r :
  and_na (str_contains [lit "login"] None (field r "path"))
         (isin [401; 403] (field r "status"))
  = is_login_failure r.
Proof.
  unfold is_login_failure, str_contains, isin, contains_nocase.
  destruct (field r "path") as [|p| | |]; try reflexivity.
  destruct (field r "status") as [| |n| |]; simpl;
    rewrite ?orb_false_r, ?andb_false_r; reflexivity.
Qed.

(** The table returned by the detector, from the rows of its input. *)
Lemma detect_brute_force_eq df :
  "ip"%string ∈ columns df -> "path"%string ∈ columns df ->
  "status"%string ∈ columns df ->
  exists gs,
    groupby {| columns := columns df;
               rows := filter (fun r => is_login_failure r = true) (rows df) |}
            ["ip"; "path"]%string = Ok gs /\
    detect_brute_force df =
      Ok (df, {| columns := ["ip"; "path"; "count"]%string;
                 rows := map count_row
                           (filter (fun g => gt_num 5 (field (count_row g) "count") = true)
                              gs) |}).
Proof.
  intros Hip Hpath Hstatus. unfold detect_brute_force.
  rewrite !getcol_ok by easy. unfold mbind at 1 2, res_bind.
  rewrite !map_map, zip_with_map.
  rewrite (map_ext _ _ brute_force_mask).
  unfold getrows. rewrite select_map. cbn [columns rows].
  destruct (groupby_ok ["ip"; "path"]%string
              {| columns := columns df;
                 rows := filter (fun r => is_login_failure r = true) (rows df) |})
    as [gs Hgs].
  { repeat constructor; easy. }
  exists gs. split; [exact Hgs|]. rewrite Hgs. unfold mbind, res_bind.
  rewrite getcol_ok by in_columns. cbn [rows columns].
  now rewrite !map_map, select_map_map.
Qed.

Lemma count_row_pair ip path rs :
  count_row ([ip; path], rs) = count_entry ip path (Z.of_nat (length rs)).
Proof. reflexivity. Qed.

Lemma count_entry_fields ip path n :
  field (count_entry ip path n) "ip" = ip /\
  field (count_entry ip path n) "path" = path /\
  field (count_entry ip path n) "count" = CInt n.
Proof. repeat split. Qed.

Lemma count_entry_inj ip path n ip' path' n' :
  count_entry ip path n = count_entry ip' path' n' ->
  ip = ip' /\ path = path' /\ n = n'.
Proof.
  intros H.
  pose proof (f_equal (fun r => field r "ip") H) as H1.
  pose proof (f_equal (fun r => field r "path") H) as H2.
  pose proof (f_equal (fun r => field r "count") H) as H3.
  cbv beta in *.
  destruct (count_entry_fields ip path n) as (E1 & E2 & E3).
  destruct (count_entry_fields ip' path' n') as (E1' & E2' & E3').
  rewrite E1, E1' in H1. rewrite E2, E2' in H2. rewrite E3, E3' in H3.
  split; [exact H1|]. split; [exact H2|]. congruence.
Qed.

Lemma login_failure_path r :
  is_login_failure r = true -> notnull (field r "path") = true.
Proof. unfold is_login_failure. now destruct (field r "path"). Qed.

(** The groups of the failed logins, by address and path. *)
Lemma login_failure_groups df gs :
  groupby {| columns := columns df;
             rows := filter (fun r => is_login_failure r = true) (rows df) |}
          ["ip"; "path"]%string = Ok gs ->
  forall g, g ∈ gs <->
    exists ip path, ip <> CNull /\ g = ([ip; path], login_failures df ip path)
                    /\ login_failures df ip path <> [].
Proof.
  intros Hgs g. destruct (groupby_groups _ _ _ Hgs) as [_ Hspec].
  destruct g as [k rs]. rewrite Hspec. cbn [rows].
  assert (Hlf : forall ip path,
            filter (fun r => key_of ["ip"; "path"]%string r = [ip; path])
              (filter (fun r => is_login_failure r = true) (rows df))
            = login_failures df ip path).
  { intros ip path. rewrite list_filter_filter. apply list_filter_iff.
    intros r. unfold key_of. simpl. split.
    - intros [[= <- <-] ?]. auto.
    - intros (? & <- & <-). auto. }
  split.
  - intros (Hv & Hne & Hf).
    destruct rs as [|r0 rs']; [congruence|].
    assert (Hr0 : r0 ∈ filter (fun r => key_of ["ip"; "path"]%string r = k)
                    (filter (fun r => is_login_failure r = true) (rows df)))
      by (rewrite <- Hf; left).
    apply list_elem_of_filter in Hr0 as [Hk _]. unfold key_of in Hk. simpl in Hk.
    subst k. exists (field r0 "ip"), (field r0 "path").
    rewrite Hlf in Hf. rewrite <- Hf.
    split; [|split; [reflexivity|discriminate]].
    simpl in Hv. now destruct (field r0 "ip").
  - intros (ip & path & Hip & [= -> ->] & Hne).
    split; [|split; [exact Hne|now rewrite Hlf]].
    destruct (login_failures df ip path) as [|r0 l] eqn:E; [congruence|].
    assert (Hr0 : r0 ∈ login_failures df ip path) by (rewrite E; left).
    apply list_elem_of_filter in Hr0 as [(Hm & _ & Hp) _].
    apply login_failure_path in Hm. rewrite Hp in Hm. simpl. rewrite Hm.
    now destruct ip.
Qed.

Lemma is_prefix_spec p x : is_prefix p x = true <-> exists suf, x = p ++ suf.
Proof.
  revert x. induction p as [|a p IH]; intros x; simpl.
  - split; [eauto|reflexivity].
  - destruct x as [|b x]; [split; [discriminate|intros [suf [=]]]|].
    rewrite andb_true_iff, IH, Ascii.eqb_eq. split.
    + intros [-> [suf ->]]. eauto.
    + intros [suf [= -> ->]]. eauto.
Qed.

Lemma contains_spec sub x :
  contains sub x = true <-> exists pre suf, x = pre ++ sub ++ suf.
Proof.
  induction x as [|c x IH].
  - simpl. rewrite orb_false_r, is_prefix_spec. split.
    + intros [suf ->]. now exists [], suf.
    + intros (pre & suf & H). destruct pre; [eauto|discriminate].
  - cbn [contains]. rewrite orb_true_iff, IH, is_prefix_spec. split.
    + intros [[suf ->]|(pre & suf & ->)]; [now exists [], suf|now exists (c :: pre), suf].
    + intros (pre & suf & H). destruct pre as [|a pre].
      * left. eauto.
      * injection H as -> ->. right. eauto.
Qed.

(** A text lower-cases to a word of small letters exactly when it spells
    the word. *)
Lemma lower_spells word : forall w,
  forallb is_lower word = true -> (lower w = word <-> spells word w = true).
Proof.
  unfold lower. induction word as [|a word IH]; intros [|b w] Hw; simpl;
    try (split; [discriminate|discriminate]); [tauto|].
  simpl in Hw. apply andb_prop in Hw as [Ha Hw].
  rewrite andb_true_iff, <- (lower_char_small_letter a b Ha), Ascii.eqb_eq,
    <- (IH w Hw).
  split; [intros [= -> ->]; auto|intros [-> ->]; reflexivity].
Qed.

(** A text contains a word of small letters, letter case ignored, exactly
    when some part of it spells the word. *)
Lemma contains_lower_spells word x :
  forallb is_lower word = true ->
  contains word (lower x) = true <-> occurs_in_any_case word x.
Proof.
  intros Hw. rewrite contains_spec. unfold occurs_in_any_case, lower. split.
  - intros (pre & suf & H).
    apply map_eq_app in H as (pre' & rest & -> & <- & H).
    apply map_eq_app in H as (w & suf' & -> & H & <-).
    exists pre', w, suf'. split; [reflexivity|]. now apply lower_spells.
  - intros (pre & w & suf & -> & H). apply lower_spells in H; [|exact Hw].
    exists (map lower_char pre), (map lower_char suf).
    unfold lower in H. now rewrite !map_app, H.
Qed.

Lemma is_login_failure_spec r :
  is_login_failure r = true <->
  exists p n,
    field r "path" = CStr p /\ field r "status" = CInt n /\
    (n = 401 \/ n = 403) /\ occurs_in_any_case (lit "login") p.
Proof.
  unfold is_login_failure. split.
  - destruct (field r "path") as [|p| | |]; try discriminate.
    destruct (field r "status") as [| |n| |]; try discriminate.
    intros [Hc Hn]%andb_prop. exists p, n.
    split; [reflexivity|split; [reflexivity|]]. split.
    + apply orb_prop in Hn as [H|H]; apply Z.eqb_eq in H; auto.
    + now apply contains_lower_spells.
  - intros (p & n & -> & -> & Hn & Hc).
    apply andb_true_intro. split.
    + now apply contains_lower_spells.
    + apply orb_true_intro. rewrite !Z.eqb_eq. exact Hn.
Qed.

(** C6. The brute-force detector returns exactly the groups, by address
    and path, of the records whose path contains [login] in any letter
    case and whose status is 401 or 403, each with the number of its
    records, and only those of more than five records; each such group
    is listed once.  A path contains [login] in any letter case when some
    part of it spells the word with each letter in either case.  Six such
    requests from one address are reported, four from another are not.
    Six requests for [/WP-Login.php] are reported as well; six from one
    address that are split over [/wp-login.php] and [/WP-LOGIN.PHP] make
    two groups of three, and are not. *)
Theorem brute_force_groups (df : DataFrame) :
  "ip"%string ∈ columns df -> "path"%string ∈ columns df ->
  "status"%string ∈ columns df ->
  (exists out,
     detect_brute_force df = Ok (df, out) /\
     columns out = ["ip"; "path"; "count"]%string /\
     NoDup (rows out) /\
     forall row,
       row ∈ rows out <->
       exists ip path,
         ip <> CNull /\
         5 < Z.of_nat (length (login_failures df ip path)) /\
         row = count_entry ip path (Z.of_nat (length (login_failures df ip path)))) /\
  detect_brute_force brute_force_sample =
    Ok (brute_force_sample,
        {| columns := ["ip"; "path"; "count"]%string;
           rows := [count_entry (CStr (lit "9.9.9.9")) (CStr (lit "/wp-login.php")) 6] |}) /\
  (forall r,
     is_login_failure r = true <->
     exists p n,
       field r "path" = CStr p /\ field r "status" = CInt n /\
       (n = 401 \/ n = 403) /\
       exists pre w suf, p = pre ++ w ++ suf /\ spells (lit "login") w = true) /\
  detect_brute_force mixed_case_sample =
    Ok (mixed_case_sample,
        {| columns := ["ip"; "path"; "count"]%string;
           rows := [count_entry (CStr (lit "9.9.9.9")) (CStr (lit "/WP-Login.php")) 6] |}).
Proof.
  intros Hip Hpath Hstatus.
  split; [|split; [vm_compute; reflexivity
                  |split; [exact is_login_failure_spec|vm_compute; reflexivity]]].
  destruct (detect_brute_force_eq df Hip Hpath Hstatus) as (gs & Hgs & ->).
  eexists. split; [reflexivity|]. split; [reflexivity|]. cbn [rows].
  pose proof (login_failure_groups df gs Hgs) as Hg.
  destruct (groupby_groups _ _ _ Hgs) as [Hnd _].
  split.
  - apply NoDup_fmap_2_strong.
    + intros g1 g2 [_ H1]%list_elem_of_filter [_ H2]%list_elem_of_filter.
      apply Hg in H1 as (ip1 & p1 & _ & -> & _).
      apply Hg in H2 as (ip2 & p2 & _ & -> & _).
      rewrite !count_row_pair. intros (-> & -> & _)%count_entry_inj. reflexivity.
    + apply NoDup_filter. eapply NoDup_fmap_1, Hnd.
  - intros row. rewrite list_elem_of_fmap. split.
    + intros (g & -> & [Hc Hin]%list_elem_of_filter).
      apply Hg in Hin as (ip & path & Hne & -> & _).
      rewrite count_row_pair in *. exists ip, path.
      split; [exact Hne|]. split; [|reflexivity].
      simpl in Hc. now apply Z.ltb_lt.
    + intros (ip & path & Hne & Hn & ->).
      exists ([ip; path], login_failures df ip path).
      split; [now rewrite count_row_pair|].
      apply list_elem_of_filter. split.
      * rewrite count_row_pair. simpl. now apply Z.ltb_lt.
      * apply Hg. exists ip, path. split; [exact Hne|]. split; [reflexivity|].
        destruct (login_failures df ip path); [simpl in Hn; lia|discriminate].
Qed.

Lemma brute_force_groups_witness :
  exists out, detect_brute_force brute_force_sample = Ok (brute_force_sample, out)
              /\ columns out = ["ip"; "path"; "count"]%string.
Proof.
  destruct (brute_force_groups brute_force_sample) as [(out & H1 & H2 & _) _];
    [in_columns|in_columns|in_columns|].
  exists out. auto.
Defined.

(** ** The injection detectors *)

Section FlagDetector.
Variables (words : list str) (col : string).

(** The common shape of [detect_sql_injection] and [detect_xss]. *)
Let detector (df : DataFrame) : res (DataFrame * DataFrame) :=
  path ← getcol df "path";
  referrer ← getcol df "referrer";
  let flags :=
    zip_with orb
      (map (fun c => default false (str_contains words (Some false) c)) path)
      (map (fun c => default false (str_contains words (Some false) c)) referrer) in
  let df := setcol df col (map CBool flags) in
  flag ← getcol df col;
  Ok (df, getrows df (map (fun c => bool_decide (c = CBool true)) flag)).

Lemma str_contains_mentions c :
  default false (str_contains words (Some false) c) = mentions words c.
Proof. now destruct c. Qed.

Lemma field_insert (r : record) name v : field (<[name := v]> r) name = v.
Proof. unfold field. now rewrite lookup_insert_eq. Qed.

Lemma field_insert_ne (r : record) name name' v :
  name <> name' -> field (<[name := v]> r) name' = field r name'.
Proof. intros H. unfold field. now rewrite lookup_insert_ne. Qed.

Lemma flags_eq (rs : list record) :
  map CBool
    (zip_with orb
       (map (fun c => default false (str_contains words (Some false) c))
          (map (fun r => field r "path") rs))
       (map (fun c => default false (str_contains words (Some false) c))
          (map (fun r => field r "referrer") rs)))
  = map (fun r => CBool (flagged words r)) rs.
Proof.
  induction rs as [|r rs IH]; [reflexivity|]. simpl. rewrite IH.
  now rewrite !str_contains_mentions.
Qed.

Lemma flag_mask (rs : list record) :
  map (fun c => bool_decide (c = CBool true))
    (map (fun r => field r col)
       (map (fun r => <[col := CBool (flagged words r)]> r) rs))
  = map (flagged words) rs.
Proof.
  rewrite !map_map. apply map_ext. intros r. rewrite field_insert.
  now destruct (flagged words r).
Qed.

Lemma detector_eq df :
  "path"%string ∈ columns df -> "referrer"%string ∈ columns df ->
  detector df =
    Ok ({| columns := if bool_decide (col ∈ columns df) then columns df
                      else columns df ++ [col];
           rows := map (fun r => <[col := CBool (flagged words r)]> r) (rows df) |},
        {| columns := if bool_decide (col ∈ columns df) then columns df
                      else columns df ++ [col];
           rows := map (fun r => <[col := CBool true]> r)
                     (filter (fun r => flagged words r = true) (rows df)) |}).
Proof.
  intros Hpath Href. unfold detector.
  rewrite !getcol_ok by easy. unfold mbind at 1 2, res_bind.
  rewrite flags_eq. unfold setcol. rewrite set_cells_map.
  rewrite getcol_ok.
  2:{ cbn [columns]. case_bool_decide; [easy|].
      apply elem_of_app. right. left. }
  unfold mbind, res_bind, getrows. cbn [rows columns].
  rewrite flag_mask.
  rewrite select_map_map. do 3 f_equal.
  apply map_ext_in. intros r Hr. apply list_elem_of_In in Hr.
  apply list_elem_of_filter in Hr as [-> _]. reflexivity.
Qed.
End FlagDetector.

Lemma detect_sql_injection_eq df :
  "path"%string ∈ columns df -> "referrer"%string ∈ columns df ->
  detect_sql_injection df =
    Ok ({| columns := if bool_decide ("potential_sql_injection"%string ∈ columns df)
                      then columns df
                      else columns df ++ ["potential_sql_injection"%string];
           rows := map (fun r => <["potential_sql_injection"%string
                                     := CBool (flagged sql_keywords r)]> r) (rows df) |},
        {| columns := if bool_decide ("potential_sql_injection"%string ∈ columns df)
                      then columns df
                      else columns df ++ ["potential_sql_injection"%string];
           rows := map (fun r => <["potential_sql_injection"%string := CBool true]> r)
                     (filter (fun r => flagged sql_keywords r = true) (rows df)) |}).
Proof. apply (detector_eq sql_keywords "potential_sql_injection"). Qed.

Lemma detect_xss_eq df :
  "path"%string ∈ columns df -> "referrer"%string ∈ columns df ->
  detect_xss df =
    Ok ({| columns := if bool_decide ("potential_xss"%string ∈ columns df)
                      then columns df
                      else columns df ++ ["potential_xss"%string];
           rows := map (fun r => <["potential_xss"%string
                                     := CBool (flagged xss_patterns r)]> r) (rows df) |},
        {| columns := if bool_decide ("potential_xss"%string ∈ columns df)
                      then columns df
                      else columns df ++ ["potential_xss"%string];
           rows := map (fun r => <["potential_xss"%string := CBool true]> r)
                     (filter (fun r => flagged xss_patterns r = true) (rows df)) |}).
Proof. apply (detector_eq xss_patterns "potential_xss"). Qed.

(** ** What a detector leaves of its input *)

(** C4, as stated, fails: after [detect_sql_injection] the record of the
    input table has a field it did not have before the call. *)
Lemma sql_detector_adds_a_field :
  exists df' out r r',
    detect_sql_injection one_request = Ok (df', out)
    /\ rows one_request = [r] /\ rows df' = [r']
    /\ r !! "potential_sql_injection"%string = None
    /\ r' !! "potential_sql_injection"%string = Some (CBool false)
    /\ r' <> r.
Proof.
  do 4 eexists. split; [vm_compute; reflexivity|].
  split; [reflexivity|]. split; [reflexivity|].
  split; [reflexivity|]. split; [reflexivity|].
  intros H. apply (f_equal (fun m : record => m !! "potential_sql_injection"%string)) in H.
  vm_compute in H. discriminate.
Qed.

(** The records of a table after a column of flags was assigned. *)
Lemma flag_column_frame (col : string) (flag : record -> bool) (rs : list record) :
  length (map (fun r => <[col := CBool (flag r)]> r) rs) = length rs /\
  forall i r,
    rs !! i = Some r ->
    exists r',
      map (fun r => <[col := CBool (flag r)]> r) rs !! i = Some r' /\
      r' !! col = Some (CBool (flag r)) /\
      dom r' = {[col]} ∪ dom r /\
      forall name, name <> col -> r' !! name = r !! name.
Proof.
  split; [apply length_map|]. intros i r Hi.
  exists (<[col := CBool (flag r)]> r).
  split; [now rewrite list_lookup_fmap, Hi|].
  split; [apply lookup_insert_eq|]. split; [apply dom_insert_L|].
  intros name Hne. now apply lookup_insert_ne.
Qed.

(** C4, amended. Every detector returns a table derived from the records
    of its input.  The brute-force detector leaves the input table as it
    was.  The SQL-injection and the XSS detector assign one boolean column
    of the input table, [potential_sql_injection] and [potential_xss]:
    after the call the table has the same number of records in the same
    order, each record has that field, set to its flag, and every other
    field with the value it had; the table returned holds the flagged
    records. *)
Theorem detectors_frame (df : DataFrame) :
  "ip"%string ∈ columns df -> "path"%string ∈ columns df ->
  "status"%string ∈ columns df -> "referrer"%string ∈ columns df ->
  (exists out, detect_brute_force df = Ok (df, out)) /\
  (exists df' out,
     detect_sql_injection df = Ok (df', out) /\
     length (rows df') = length (rows df) /\
     (forall i r, rows df !! i = Some r ->
        exists r', rows df' !! i = Some r' /\
          r' !! "potential_sql_injection"%string = Some (CBool (flagged sql_keywords r)) /\
          dom r' = {["potential_sql_injection"%string]} ∪ dom r /\
          forall name, name <> "potential_sql_injection"%string -> r' !! name = r !! name) /\
     rows out = filter (fun r' => r' !! "potential_sql_injection"%string = Some (CBool true))
                  (rows df')) /\
  (exists df' out,
     detect_xss df = Ok (df', out) /\
     length (rows df') = length (rows df) /\
     (forall i r, rows df !! i = Some r ->
        exists r', rows df' !! i = Some r' /\
          r' !! "potential_xss"%string = Some (CBool (flagged xss_patterns r)) /\
          dom r' = {["potential_xss"%string]} ∪ dom r /\
          forall name, name <> "potential_xss"%string -> r' !! name = r !! name) /\
     rows out = filter (fun r' => r' !! "potential_xss"%string = Some (CBool true))
                  (rows df')).
Proof.
  intros Hip Hpath Hstatus Href.
  assert (Hview : forall (col : string) (flag : record -> bool) (rs : list record),
            map (fun r => <[col := CBool true]> r) (filter (fun r => flag r = true) rs)
            = filter (fun r' => r' !! col = Some (CBool true))
                (map (fun r => <[col := CBool (flag r)]> r) rs)).
  { intros col flag rs. induction rs as [|r rs IH]; [reflexivity|].
    cbn [map]. rewrite !filter_cons, lookup_insert_eq.
    destruct (flag r) eqn:E.
    - rewrite decide_True by reflexivity. rewrite decide_True by reflexivity.
      cbn [map]. now rewrite IH.
    - rewrite decide_False by discriminate. rewrite decide_False by discriminate.
      exact IH. }
  split; [|split].
  - destruct (detect_brute_force_eq df Hip Hpath Hstatus) as (gs & _ & ->). eauto.
  - rewrite detect_sql_injection_eq by easy. do 2 eexists.
    split; [reflexivity|]. cbn [rows].
    destruct (flag_column_frame "potential_sql_injection" (flagged sql_keywords) (rows df))
      as [Hlen Hrec].
    split; [exact Hlen|]. split; [exact Hrec|]. apply Hview.
  - rewrite detect_xss_eq by easy. do 2 eexists.
    split; [reflexivity|]. cbn [rows].
    destruct (flag_column_frame "potential_xss" (flagged xss_patterns) (rows df))
      as [Hlen Hrec].
    split; [exact Hlen|]. split; [exact Hrec|]. apply Hview.
Qed.

Lemma detectors_frame_witness :
  exists out, detect_brute_force one_request = Ok (one_request, out).
Proof.
  destruct (detectors_frame one_request) as [H _];
    [in_columns|in_columns|in_columns|in_columns|exact H].
Defined.

(** ** Records with absent fields *)

Lemma login_failure_present r :
  is_login_failure r = true ->
  field r "path" <> CNull /\ field r "status" <> CNull.
Proof.
  unfold is_login_failure.
  destruct (field r "path"); try discriminate.
  destruct (field r "status"); try discriminate. split; discriminate.
Qed.

(** C8. On a table some of whose records lack a status, a path or a
    referrer, no detector raises.  The brute-force detector counts no
    record without a path or without a status: its result is the one it
    gives on the table without these records.  The SQL-injection and XSS
    detectors flag a record exactly when its path or its referrer is a
    text containing one of the words; an absent path or referrer
    contributes nothing, and a record with neither is not returned. *)
Theorem detectors_skip_absent_fields (df : DataFrame) :
  "ip"%string ∈ columns df -> "path"%string ∈ columns df ->
  "status"%string ∈ columns df -> "referrer"%string ∈ columns df ->
  (exists out,
     detect_brute_force df = Ok (df, out) /\
     detect_brute_force (with_path_and_status df) = Ok (with_path_and_status df, out) /\
     forall r, field r "path" = CNull \/ field r "status" = CNull ->
               is_login_failure r = false) /\
  (exists df' out,
     detect_sql_injection df = Ok (df', out) /\
     rows out = map (fun r => <["potential_sql_injection"%string := CBool true]> r)
                  (filter (fun r => mentions sql_keywords (field r "path") = true \/
                                    mentions sql_keywords (field r "referrer") = true)
                     (rows df))) /\
  (exists df' out,
     detect_xss df = Ok (df', out) /\
     rows out = map (fun r => <["potential_xss"%string := CBool true]> r)
                  (filter (fun r => mentions xss_patterns (field r "path") = true \/
                                    mentions xss_patterns (field r "referrer") = true)
                     (rows df))) /\
  (forall words, mentions words CNull = false) /\
  (forall words r, field r "path" = CNull -> field r "referrer" = CNull ->
                   flagged words r = false).
Proof.
  intros Hip Hpath Hstatus Href.
  assert (Hflag : forall words (rs : list record),
            filter (fun r => flagged words r = true) rs
            = filter (fun r => mentions words (field r "path") = true \/
                               mentions words (field r "referrer") = true) rs).
  { intros words rs. apply list_filter_iff. intros r. unfold flagged.
    now rewrite orb_true_iff. }
  split; [|split; [|split; [|split]]].
  - destruct (detect_brute_force_eq df Hip Hpath Hstatus) as (gs & Hgs & ->).
    destruct (detect_brute_force_eq (with_path_and_status df) Hip Hpath Hstatus)
      as (gs' & Hgs' & ->).
    assert (Hsame : filter (fun r => is_login_failure r = true)
                      (rows (with_path_and_status df))
                    = filter (fun r => is_login_failure r = true) (rows df)).
    { unfold with_path_and_status. cbn [rows]. rewrite list_filter_filter.
      apply list_filter_iff. intros r. split; [tauto|].
      intros H. split; [exact H|]. now apply login_failure_present. }
    rewrite Hsame in Hgs'. cbn [columns with_path_and_status] in Hgs'.
    rewrite Hgs in Hgs'. injection Hgs' as <-.
    eexists. split; [reflexivity|]. split; [reflexivity|].
    intros r [H|H]; unfold is_login_failure; rewrite H; [reflexivity|].
    now destruct (field r "path").
  - rewrite detect_sql_injection_eq by easy. do 2 eexists.
    split; [reflexivity|]. cbn [rows]. now rewrite Hflag.
  - rewrite detect_xss_eq by easy. do 2 eexists.
    split; [reflexivity|]. cbn [rows]. now rewrite Hflag.
  - reflexivity.
  - intros words r Hp Hr. unfold flagged. now rewrite Hp, Hr.
Qed.

Lemma detectors_skip_absent_fields_witness :
  exists df' out,
    detect_sql_injection absent_fields_sample = Ok (df', out) /\ length (rows out) = 1%nat.
Proof.
  destruct (detectors_skip_absent_fields absent_fields_sample)
    as (_ & (df' & out & H & Hrows) & _);
    [in_columns|in_columns|in_columns|in_columns|].
  exists df', out. split; [exact H|]. rewrite Hrows. vm_compute. reflexivity.
Defined.

(** ** Addresses with a high error rate *)

Section SortFacts.
Context {A : Type} (score : A -> Q).

Lemma insert_desc_perm x l : insert_desc score x l ≡ₚ x :: l.
Proof.
  induction l as [|y l IH]; simpl; [reflexivity|].
  destruct (Qle_bool (score y) (score x)); [reflexivity|].
  rewrite IH. apply Permutation_swap.
Qed.

Lemma sort_desc_perm l : sort_desc score l ≡ₚ l.
Proof.
  induction l as [|x l IH]; simpl; [reflexivity|].
  now rewrite insert_desc_perm, IH.
Qed.

Lemma insert_desc_sorted x l :
  StronglySorted (descending score) l ->
  StronglySorted (descending score) (insert_desc score x l).
Proof.
  induction l as [|y l IH]; simpl; intros Hs.
  - repeat constructor.
  - apply StronglySorted_cons in Hs as [Hy Hl].
    destruct (Qle_bool (score y) (score x)) eqn:E.
    + apply Qle_bool_iff in E. apply StronglySorted_cons. split.
      * constructor; [exact E|].
        eapply Forall_impl; [exact Hy|]. unfold descending. intros z Hz.
        now apply Qle_trans with (score y).
      * apply StronglySorted_cons. auto.
    + assert (Hxy : (score x <= score y)%Q).
      { apply Qlt_le_weak, Qnot_le_lt. intros H. apply Qle_bool_iff in H. congruence. }
      apply StronglySorted_cons. split; [|auto].
      rewrite insert_desc_perm. constructor; [exact Hxy|exact Hy].
Qed.

Lemma sort_desc_sorted l : StronglySorted (descending score) (sort_desc score l).
Proof.
  induction l as [|x l IH]; simpl; [constructor|]. now apply insert_desc_sorted.
Qed.

(** What [head(n)] leaves out of a sorted table is not above anything
    it keeps. *)
Lemma take_sorted n l x :
  StronglySorted (descending score) l -> x ∈ l ->
  x ∈ take n l \/
  (length (take n l) = n /\ forall a, a ∈ take n l -> (score x <= score a)%Q).
Proof.
  intros Hs Hx. rewrite <- (take_drop n l) in Hs, Hx.
  apply elem_of_app in Hx as [Hx|Hx]; [now left|]. right. split.
  - apply length_take_le.
    destruct (decide (n <= length l)%nat); [easy|].
    rewrite drop_ge in Hx by lia. inversion Hx.
  - intros a Ha. apply (StronglySorted_app_1_elem_of _ _ _ _ _ Hs Ha Hx).
Qed.
End SortFacts.

Lemma length_filter_map {A B} (f : A -> B) (P : B -> Prop)
    `{!forall b, Decision (P b)} (l : list A) :
  length (filter P (map f l)) = length (filter (fun a => P (f a)) l).
Proof.
  induction l as [|a l IH]; [reflexivity|]. cbn [map].
  rewrite !filter_cons. destruct (decide (P (f a))); simpl; now rewrite IH.
Qed.

Lemma key_of_ip r : key_of ["ip"%string] r = [field r "ip"].
Proof. reflexivity. Qed.

(** The statistics computed for the group of an address. *)
Lemma stats_of_group df ip :
  stats_of ([ip], requests_of df ip) =
    {| stat_ip := ip;
       total_requests := counted_requests df ip;
       error_requests := error_count df ip;
       error_rate := rate (error_count df ip) (counted_requests df ip) |}.
Proof.
  unfold stats_of, counted_requests, error_count, count, sum_true. cbn [fst snd hd].
  rewrite map_map, !length_filter_map.
  assert (E : filter (fun a : record => notnull (field a "status")) (requests_of df ip)
              = filter (fun r => field r "status" <> CNull) (requests_of df ip)).
  { apply list_filter_iff. intros r. destruct (field r "status"); simpl; split;
      try easy; intros H; now destruct H. }
  now rewrite E.
Qed.

Lemma rate_gt_half_spec errors total :
  rate_gt_half (rate errors total) && (10 <? total) = true <->
  10 < total /\ total < 2 * errors.
Proof.
  unfold rate, rate_gt_half. rewrite andb_true_iff, Z.ltb_lt.
  destruct (total =? 0) eqn:E.
  - apply Z.eqb_eq in E. split; [intros [[=] _]|lia].
  - apply Z.eqb_neq in E. rewrite negb_true_iff.
    split.
    + intros [Hq Ht]. split; [exact Ht|].
      destruct (Z_lt_le_dec total (2 * errors)) as [|Hle]; [easy|].
      assert (Hb : Qle_bool (errors # Z.to_pos total) (1 # 2) = true).
      { apply Qle_bool_iff. unfold Qle. simpl. rewrite Z2Pos.id by lia. lia. }
      congruence.
    + intros [Ht He]. split; [|exact Ht].
      destruct (Qle_bool (errors # Z.to_pos total) (1 # 2)) eqn:Hb; [|reflexivity].
      apply Qle_bool_iff in Hb. unfold Qle in Hb. simpl in Hb.
      rewrite Z2Pos.id in Hb by lia. lia.
Qed.

(** The groups of a table by address. *)
Lemma ip_groups df gs :
  groupby df ["ip"%string] = Ok gs ->
  NoDup (map fst gs) /\
  forall g, g ∈ gs <->
    exists ip, ip <> CNull /\ g = ([ip], requests_of df ip) /\ requests_of df ip <> [].
Proof.
  intros Hgs. destruct (groupby_groups _ _ _ Hgs) as [Hnd Hspec].
  split; [exact Hnd|]. intros [k rs]. rewrite Hspec. split.
  - intros (Hv & Hne & Hf).
    destruct rs as [|r0 rs']; [congruence|].
    assert (Hr0 : r0 ∈ filter (fun r => key_of ["ip"%string] r = k) (rows df))
      by (rewrite <- Hf; left).
    apply list_elem_of_filter in Hr0 as [Hk _]. rewrite key_of_ip in Hk. subst k.
    exists (field r0 "ip").
    assert (Hreq : filter (fun r => key_of ["ip"%string] r = [field r0 "ip"]) (rows df)
                   = requests_of df (field r0 "ip")).
    { apply list_filter_iff. intros r. rewrite key_of_ip. split; congruence. }
    rewrite Hreq in Hf. rewrite <- Hf.
    split; [|split; [reflexivity|discriminate]].
    simpl in Hv. now destruct (field r0 "ip").
  - intros (ip & Hip & [= -> ->] & Hne).
    split; [simpl; now destruct ip|]. split; [exact Hne|].
    apply list_filter_iff. intros r. rewrite key_of_ip. split; congruence.
Qed.

(** C2, as stated, fails: an address with eleven requests, six of them
    errors, has an error rate above one half over all of its requests and
    more than ten requests, and is not reported, for one of its requests
    has no status and is not counted. *)
Lemma request_without_status_not_counted :
  high_error_ips eleven_requests = Ok []
  /\ length (requests_of eleven_requests (CStr (lit "9.9.9.9"))) = 11%nat
  /\ error_count eleven_requests (CStr (lit "9.9.9.9")) = 6
  /\ (1 # 2 < 6 # 11)%Q /\ 10 < 11.
Proof.
  split; [vm_compute; reflexivity|]. split; [vm_compute; reflexivity|].
  split; [vm_compute; reflexivity|]. split; [reflexivity|lia].
Qed.

Lemma high_error_ips_eq df :
  "ip"%string ∈ columns df -> "status"%string ∈ columns df ->
  exists gs,
    groupby df ["ip"%string] = Ok gs /\
    high_error_ips df =
      Ok (take 10 (sort_desc rate_score
            (filter (fun st => rate_gt_half (error_rate st) && (10 <? total_requests st))
               (map stats_of gs)))).
Proof.
  intros Hip Hstatus.
  destruct (groupby_ok ["ip"%string] df) as [gs Hgs]; [repeat constructor; easy|].
  exists gs. split; [exact Hgs|]. unfold high_error_ips. rewrite Hgs.
  unfold mbind, res_bind. now rewrite bool_decide_eq_true_2.
Qed.

(** C2, amended. The detector groups the records by ip and computes per
    address total_requests, the number of its records whose status is
    present, and error_requests, the number of its records with status
    400 or more; error_rate is their quotient.  It reports only addresses
    with error_rate above one half and total_requests above ten, each
    once, sorted by descending error_rate, and at most ten of them: an
    address that qualifies is reported unless ten addresses with an
    error_rate at least as high are.  An address with 20 requests, 11 of
    them errors, is reported; one with 5 requests, all errors, is not. *)
Theorem high_error_ips_spec (df : DataFrame) :
  "ip"%string ∈ columns df -> "status"%string ∈ columns df ->
  (exists out,
     high_error_ips df = Ok out /\
     (length out <= 10)%nat /\
     StronglySorted (descending rate_score) out /\
     NoDup (map stat_ip out) /\
     (forall st, st ∈ out ->
        stat_ip st <> CNull /\
        total_requests st = counted_requests df (stat_ip st) /\
        error_requests st = error_count df (stat_ip st) /\
        error_rate st = Some (error_requests st # Z.to_pos (total_requests st))%Q /\
        10 < total_requests st /\ total_requests st < 2 * error_requests st) /\
     (forall ip,
        ip <> CNull -> 10 < counted_requests df ip ->
        counted_requests df ip < 2 * error_count df ip ->
        (exists st, st ∈ out /\ stat_ip st = ip) \/
        (length out = 10%nat /\
         forall st, st ∈ out ->
           (error_count df ip # Z.to_pos (counted_requests df ip) <= rate_score st)%Q))) /\
  high_error_ips error_rate_sample =
    Ok [{| stat_ip := CStr (lit "9.9.9.9"); total_requests := 20;
           error_requests := 11; error_rate := Some (11 # 20)%Q |}].
Proof.
  intros Hip Hstatus. split; [|vm_compute; reflexivity].
  destruct (high_error_ips_eq df Hip Hstatus) as (gs & Hgs & ->).
  destruct (ip_groups df gs Hgs) as [Hnd Hg].
  eexists. split; [reflexivity|].
  set (cond := fun st => rate_gt_half (error_rate st) && (10 <? total_requests st)).
  set (high := filter cond (map stats_of gs)).
  assert (Hstats : forall st, st ∈ high <->
            exists ip, ip <> CNull /\ requests_of df ip <> [] /\
                       st = stats_of ([ip], requests_of df ip) /\
                       10 < counted_requests df ip /\
                       counted_requests df ip < 2 * error_count df ip).
  { intros st. unfold high. rewrite list_elem_of_filter, list_elem_of_fmap. split.
    - intros [Hc (g & -> & Hin)]. apply Hg in Hin as (ip & Hne & -> & Hreq).
      exists ip. split; [exact Hne|]. split; [exact Hreq|]. split; [reflexivity|].
      unfold cond in Hc. rewrite stats_of_group in Hc. cbn [error_rate total_requests] in Hc.
      apply Is_true_true, rate_gt_half_spec in Hc. exact Hc.
    - intros (ip & Hne & Hreq & -> & Ht & He). split.
      + unfold cond. rewrite stats_of_group. cbn [error_rate total_requests].
        apply Is_true_true, rate_gt_half_spec. auto.
      + exists ([ip], requests_of df ip). split; [reflexivity|].
        apply Hg. exists ip. auto. }
  assert (Hperm : sort_desc rate_score high ≡ₚ high) by apply sort_desc_perm.
  pose proof (sort_desc_sorted rate_score high) as Hsorted.
  split; [|split; [|split; [|split]]].
  - rewrite length_take. lia.
  - rewrite <- (take_drop 10 (sort_desc rate_score high)) in Hsorted.
    now apply StronglySorted_app_1_l in Hsorted.
  - apply (sublist_NoDup _ (stat_ip <$> sort_desc rate_score high));
      [|apply fmap_sublist, sublist_take].
    rewrite Hperm. unfold high.
    apply (sublist_NoDup _ (stat_ip <$> (stats_of <$> gs)));
      [|apply fmap_sublist, sublist_filter].
    rewrite <- list_fmap_compose. apply NoDup_fmap_2_strong.
    + intros g1 g2 H1 H2. apply Hg in H1 as (ip1 & _ & -> & _).
      apply Hg in H2 as (ip2 & _ & -> & _). simpl. now intros ->.
    + eapply NoDup_fmap_1, Hnd.
  - intros st Hst. apply subseteq_take in Hst.
    change (st ∈ sort_desc rate_score high) in Hst. rewrite Hperm in Hst.
    apply Hstats in Hst as (ip & Hne & _ & -> & Ht & He).
    rewrite stats_of_group.
    cbn [stat_ip total_requests error_requests error_rate].
    repeat split; auto. unfold rate.
    destruct (counted_requests df ip =? 0) eqn:E; [|reflexivity].
    apply Z.eqb_eq in E. lia.
  - intros ip Hne Ht He.
    assert (Hin : stats_of ([ip], requests_of df ip) ∈ sort_desc rate_score high).
    { rewrite Hperm. apply Hstats. exists ip. repeat split; auto.
      intros E. unfold counted_requests in Ht. rewrite E in Ht. simpl in Ht. lia. }
    assert (Hscore : rate_score (stats_of ([ip], requests_of df ip))
                     = (error_count df ip # Z.to_pos (counted_requests df ip))%Q).
    { rewrite stats_of_group. unfold rate_score, rate. cbn [error_rate].
      destruct (counted_requests df ip =? 0) eqn:E; [|reflexivity].
      apply Z.eqb_eq in E. lia. }
    destruct (take_sorted rate_score 10 _ _ Hsorted Hin) as [Hkept|[Hlen Hle]].
    + left. eexists. split; [exact Hkept|]. now rewrite stats_of_group.
    + right. split; [exact Hlen|]. intros st Hst. rewrite <- Hscore. now apply Hle.
Qed.

Lemma high_error_ips_spec_witness :
  exists out, high_error_ips error_rate_sample = Ok out /\ (length out <= 10)%nat.
Proof.
  destruct (high_error_ips_spec error_rate_sample) as [(out & H & Hl & _) _];
    [in_columns|in_columns|].
  exists out. auto.
Defined.

(* ===================================================================== *)
(** * Further properties of the parsers *)
(* ===================================================================== *)

(** ** The fields of an access record *)

Lemma split_ws_from_tokens x : forall cur t,
  forallb (fun c => negb (is_space c)) cur = true ->
  t ∈ split_ws_from cur x ->
  t <> [] /\ forallb (fun c => negb (is_space c)) t = true.
Proof.
  induction x as [|c x IH]; intros cur t Hcur Ht; simpl in Ht.
  - destruct cur; [inversion Ht|].
    apply list_elem_of_singleton in Ht as ->. split; [discriminate|exact Hcur].
  - destruct (is_space c) eqn:E.
    + destruct cur as [|a cur'].
      * now apply (IH [] t).
      * apply elem_of_cons in Ht as [->|Ht]; [split; [discriminate|exact Hcur]|].
        now apply (IH [] t).
    + apply (IH (cur ++ [c]) t); [|exact Ht].
      rewrite forallb_app, Hcur. simpl. now rewrite E.
Qed.

Lemma split_ws_tokens x t :
  t ∈ split_ws x -> t <> [] /\ forallb (fun c => negb (is_space c)) t = true.
Proof. now apply split_ws_from_tokens. Qed.

Lemma record_of_request_line strptime line :
  field (record_of strptime line) "method"
    = CStr (request_line_of (nth 0 (rx_findall quoted_re line) [])).1.1 /\
  field (record_of strptime line) "path"
    = CStr (request_line_of (nth 0 (rx_findall quoted_re line) [])).1.2 /\
  field (record_of strptime line) "protocol"
    = CStr (request_line_of (nth 0 (rx_findall quoted_re line) [])).2.
Proof.
  unfold record_of. destruct (request_line_of _) as [[m p] pr]. repeat split.
Qed.

(** X1. The method, path and protocol of a record are the three
    blank-separated words of the request (the first quoted field) when it
    has exactly three words, and then none of them is empty or contains a
    blank; for any other request all three are the empty string. *)
Theorem request_line_fields (strptime : str -> str -> res datetime)
    (line : str) (r : record) :
  parse_line strptime line = Ok (Some r) ->
  exists request method path protocol,
    nth_error (rx_findall quoted_re line) 0 = Some request /\
    field r "method" = CStr method /\ field r "path" = CStr path /\
    field r "protocol" = CStr protocol /\
    ((split_ws request = [method; path; protocol] /\
      Forall (fun w => w <> [] /\ forallb (fun c => negb (is_space c)) w = true)
        [method; path; protocol])
     \/
     (length (split_ws request) <> 3%nat /\
      method = [] /\ path = [] /\ protocol = [])).
Proof.
  intros Hr. pose proof (parse_line_quoted _ _ _ Hr) as Hq.
  apply parse_line_record in Hr as ->.
  destruct (record_of_request_line strptime line) as (-> & -> & ->).
  exists (nth 0 (rx_findall quoted_re line) []).
  unfold request_line_of.
  pose proof (split_ws_tokens (nth 0 (rx_findall quoted_re line) [])) as Htok.
  destruct (split_ws (nth 0 (rx_findall quoted_re line) []))
    as [|a [|b [|c [|d l]]]] eqn:E; cbn [fst snd];
    do 3 eexists; (split; [apply nth_error_nth'; lia|]);
    (split; [reflexivity|]); (split; [reflexivity|]); (split; [reflexivity|]);
    try (right; split; [simpl; lia|auto]; fail).
  left. split; [reflexivity|].
  apply Forall_cons. split; [apply Htok; left|].
  apply Forall_cons. split; [apply Htok; right; left|].
  apply Forall_cons. split; [apply Htok; right; right; left|constructor].
Qed.

Lemma request_line_fields_witness :
  parse_line strptime_rejecting (access_line "200" "203.0.113.5")
    = Ok (Some (record_of strptime_rejecting (access_line "200" "203.0.113.5")))
  /\ field (record_of strptime_rejecting (access_line "200" "203.0.113.5")) "path"
       = CStr (lit "/index.php?x=1").
Proof.
  assert (H : parse_line strptime_rejecting (access_line "200" "203.0.113.5")
              = Ok (Some (record_of strptime_rejecting (access_line "200" "203.0.113.5")))).
  { line_passes. }
  split; [exact H|].
  destruct (request_line_fields strptime_rejecting _ _ H)
    as (request & m & p & pr & _ & _ & Hp & _).
  vm_compute. reflexivity.
Defined.

Lemma record_of_size strptime line :
  field (record_of strptime line) "size" = (status_size_of line).2.
Proof. unfold record_of. destruct (request_line_of _) as [[m p] pr]. reflexivity. Qed.

(** X2. Status and size come from one match of the status pattern: a
    record has both or neither, and a size that is present is the
    non-negative number written by the pattern's second run of digits. *)
Theorem status_and_size_together (strptime : str -> str -> res datetime)
    (line : str) (r : record) :
  parse_line strptime line = Ok (Some r) ->
  (field r "status" = CNull <-> field r "size" = CNull) /\
  (forall z, field r "size" = CInt z ->
     0 <= z /\ exists g1 g2, rx_search status_re line = Some (g1, g2) /\
                             forallb is_digit g2 = true /\ g2 <> [] /\
                             z = decimal g2 /\ field r "status" = CInt (decimal g1)) /\
  (field r "size" = CNull \/ exists z, field r "size" = CInt z).
Proof.
  intros Hr. apply parse_line_record in Hr as ->.
  rewrite record_of_size, record_of_field_status. unfold status_size_of.
  destruct (rx_search status_re line) as [[g1 g2]|] eqn:Hs; cbn [fst snd].
  - destruct (status_re_groups _ _ _ Hs) as (_ & _ & Hd2 & Hn2).
    split; [split; discriminate|]. split; [|eauto].
    intros z [= <-]. split.
    + apply (decimal_from_bound g2 0 Hd2). lia.
    + exists g1, g2. auto.
  - split; [tauto|]. split; [discriminate|auto].
Qed.

Lemma status_and_size_together_witness :
  parse_line strptime_rejecting (access_line "200" "203.0.113.5")
    = Ok (Some (record_of strptime_rejecting (access_line "200" "203.0.113.5")))
  /\ (field (record_of strptime_rejecting (access_line "200" "203.0.113.5")) "status" = CNull
      <-> field (record_of strptime_rejecting (access_line "200" "203.0.113.5")) "size" = CNull).
Proof.
  assert (H : parse_line strptime_rejecting (access_line "200" "203.0.113.5")
              = Ok (Some (record_of strptime_rejecting (access_line "200" "203.0.113.5")))).
  { line_passes. }
  split; [exact H|].
  apply (status_and_size_together strptime_rejecting _ _ H).
Defined.

Lemma record_of_req_time strptime line :
  field (record_of strptime line) "req_time" = req_time_of line.
Proof. unfold record_of. destruct (request_line_of _) as [[m p] pr]. reflexivity. Qed.

(** Where the request-time pattern matched. *)
Lemma req_time_re_match x g :
  rx_search req_time_re x = Some g ->
  g <> [] /\ forallb is_digit_dot g = true /\
  exists pre suf,
    x = pre ++ [dquote; " "%char] ++ g ++ [" "%char; dquote] ++ suf.
Proof.
  intros H. apply rx_search_sound in H as (pre & suf & -> & H).
  unfold req_time_re in H.
  apply rx_char_sound in H as (t & -> & H).
  apply rx_char_sound in H as (t1 & -> & H).
  apply rx_plus_sound in H as (g' & t2 & -> & Hg & Hne & H).
  apply rx_char_sound in H as (t3 & -> & H).
  apply rx_char_sound in H as (t4 & -> & [= <-]).
  split; [exact Hne|]. split; [exact Hg|]. now exists pre, t4.
Qed.

(** The request-time pattern matches wherever such a text stands. *)
Lemma req_time_re_complete pre g suf :
  g <> [] -> forallb is_digit_dot g = true ->
  is_Some (rx_search req_time_re
             (pre ++ [dquote; " "%char] ++ g ++ [" "%char; dquote] ++ suf)).
Proof.
  intros Hne Hg. apply rx_search_complete.
  unfold req_time_re. simpl app. rewrite !rx_char_cons.
  apply rx_plus_complete; auto; rewrite ?rx_char_cons; eauto.
Qed.

(** X3. The request time of a record, when present, is a non-empty text
    of digits and dots (kept as text, not read as a number) that stands in
    the line between a double quote and a blank on its left and a blank
    and a double quote on its right; it is absent exactly when the line
    has no such text. *)
Theorem req_time_shape (strptime : str -> str -> res datetime)
    (line : str) (r : record) :
  parse_line strptime line = Ok (Some r) ->
  (field r "req_time" = CNull /\
   ~ exists g pre suf,
       g <> [] /\ forallb is_digit_dot g = true /\
       line = pre ++ [dquote; " "%char] ++ g ++ [" "%char; dquote] ++ suf) \/
  (exists g pre suf,
     field r "req_time" = CStr g /\ g <> [] /\ forallb is_digit_dot g = true /\
     line = pre ++ [dquote; " "%char] ++ g ++ [" "%char; dquote] ++ suf).
Proof.
  intros Hr. apply parse_line_record in Hr as ->.
  rewrite record_of_req_time. unfold req_time_of.
  destruct (rx_search req_time_re line) as [g|] eqn:E; [right|left].
  - destruct (req_time_re_match _ _ E) as (Hne & Hg & pre & suf & Hl).
    exists g, pre, suf. auto.
  - split; [reflexivity|]. intros (g & pre & suf & Hne & Hg & ->).
    destruct (req_time_re_complete pre g suf Hne Hg) as [x Hx]. congruence.
Qed.

Lemma req_time_shape_witness :
  parse_line strptime_rejecting (access_line "200" "203.0.113.5")
    = Ok (Some (record_of strptime_rejecting (access_line "200" "203.0.113.5")))
  /\ field (record_of strptime_rejecting (access_line "200" "203.0.113.5")) "req_time"
       = CStr (lit "0.012").
Proof.
  assert (H : parse_line strptime_rejecting (access_line "200" "203.0.113.5")
              = Ok (Some (record_of strptime_rejecting (access_line "200" "203.0.113.5")))).
  { line_passes. }
  split; [exact H|].
  destruct (req_time_shape strptime_rejecting _ _ H) as [[Hn _]|(g & pre & suf & Hg & _)].
  - vm_compute in Hn. discriminate.
  - vm_compute. reflexivity.
Defined.

(** ** The table of access records *)

Lemma record_of_dom strptime line :
  dom (record_of strptime line) = list_to_set access_columns.
Proof.
  unfold record_of. destruct (request_line_of _) as [[m p] pr].
  apply access_record_dom.
Qed.

Lemma record_of_text_fields strptime line name :
  name ∈ ["ip"; "method"; "path"; "protocol"; "referrer"; "user_agent";
          "proxy_chain"]%string ->
  exists x, field (record_of strptime line) name = CStr x.
Proof.
  unfold record_of. destruct (request_line_of _) as [[m p] pr].
  rewrite !elem_of_cons, elem_of_nil.
  intros [->|[->|[->|[->|[->|[->|[->|[]]]]]]]]; eexists; reflexivity.
Qed.

Lemma length_parse_lines strptime lines :
  (length (parse_lines strptime lines) <= length lines)%nat.
Proof.
  induction lines as [|l lines IH]; simpl; [lia|].
  destruct (parse_line strptime l) as [[r|]|e]; simpl; lia.
Qed.

Lemma parse_nginx_log_columns strptime lines :
  columns (parse_nginx_log strptime lines) =
    match parse_lines strptime lines with
    | [] => []
    | _ => access_columns
    end.
Proof.
  unfold parse_nginx_log.
  destruct (parse_lines strptime lines) as [|r0 rs]; [reflexivity|].
  cbn -[getcol setcol]. rewrite getcol_ok by in_columns. reflexivity.
Qed.

(** X4. The table returned by [parse_nginx_log] has no more records than
    lines were read; it has no column when no line gave a record and the
    eleven columns of a record otherwise.  Every record has exactly these
    eleven fields, and its ip, method, path, protocol, referrer,
    user_agent and proxy_chain always hold text: only time, status, size
    and req_time can be absent. *)
Theorem parse_nginx_log_table (strptime : str -> str -> res datetime)
    (lines : list str) :
  let df := parse_nginx_log strptime lines in
  (length (rows df) <= length lines)%nat /\
  ((rows df = [] /\ columns df = []) \/
   (rows df <> [] /\ columns df = access_columns)) /\
  (forall r, r ∈ rows df ->
     dom r = list_to_set access_columns /\
     (forall name,
        name ∈ ["ip"; "method"; "path"; "protocol"; "referrer"; "user_agent";
                "proxy_chain"]%string ->
        exists x, field r name = CStr x) /\
     (field r "status" = CNull \/ exists n, field r "status" = CInt n) /\
     (field r "size" = CNull \/ exists n, field r "size" = CInt n) /\
     (field r "req_time" = CNull \/ exists x, field r "req_time" = CStr x) /\
     (field r "time" = CNull \/ exists t, field r "time" = CTime t)).
Proof.
  intros df. subst df. rewrite parse_nginx_log_rows, parse_nginx_log_columns.
  split; [apply length_parse_lines|]. split.
  - destruct (parse_lines strptime lines); [now left|right]. split; [discriminate|reflexivity].
  - intros r Hr. apply parse_lines_elem in Hr as (line & _ & Hl).
    apply parse_line_record in Hl as ->.
    split; [apply record_of_dom|]. split; [apply record_of_text_fields|].
    rewrite record_of_field_status, record_of_size, record_of_req_time.
    unfold status_size_of, req_time_of.
    split; [destruct (rx_search status_re line) as [[g1 g2]|]; cbn; eauto|].
    split; [destruct (rx_search status_re line) as [[g1 g2]|]; cbn; eauto|].
    split; [destruct (rx_search req_time_re line); eauto|].
    unfold record_of. destruct (request_line_of _) as [[m p] pr].
    change (field (access_record ?a ?b ?c ?d ?e ?f ?g ?h ?i ?j ?k) "time") with b.
    unfold time_of. destruct (strptime _ _); eauto.
Qed.

(** ** The shape of the ip and of the quoted fields *)

Lemma join_chars (p : ascii -> bool) sep ps :
  p sep = true -> Forall (fun g => forallb p g = true) ps ->
  forallb p (join sep ps) = true.
Proof.
  intros Hsep. induction ps as [|g ps IH]; [reflexivity|].
  intros [Hg Hps]%Forall_cons. destruct ps as [|g' ps]; [exact Hg|].
  cbn [join]. rewrite forallb_app, Hg. simpl. rewrite Hsep. now apply IH.
Qed.

Lemma digit_is_hex_colon c : is_digit c = true -> is_hex_colon c = true.
Proof. unfold is_hex_colon. intros ->. now rewrite orb_true_r. Qed.

Lemma valid_ip_chars x :
  valid_ip x = true ->
  x <> [] /\ forallb (fun c => is_hex_colon c || is_char "."%char c) x = true.
Proof.
  unfold valid_ip. intros [H|H]%orb_true_iff.
  - unfold is_ipv4_shape in H.
    pose proof (join_split_on "."%char x) as Hj.
    destruct (split_on "."%char x) as [|a [|b [|c [|d [|e l]]]]]; try discriminate.
    rewrite !andb_true_iff in H. destruct H as [[[Ha Hb] Hc] Hd].
    apply digit_group_spec in Ha as [Ha La], Hb as [Hb _], Hc as [Hc _], Hd as [Hd _].
    split.
    + intros ->. cbn [join] in Hj. destruct a; [simpl in La; lia|discriminate].
    + rewrite <- Hj. apply join_chars; [reflexivity|].
      assert (Hdig : forall g, forallb is_digit g = true ->
                forallb (fun c => is_hex_colon c || is_char "."%char c) g = true).
      { intros g Hg. clear -Hg. rewrite forallb_forall in *. intros ch Hch.
        now rewrite (digit_is_hex_colon ch (Hg ch Hch)). }
      repeat constructor; now apply Hdig.
  - unfold is_hex_colons in H. destruct x as [|c t]; [discriminate|].
    split; [discriminate|]. rewrite forallb_forall in *. intros c' Hc'.
    now rewrite (H c' Hc').
Qed.

Lemma address_char_spec c :
  is_hex_colon c || is_char "."%char c = true ->
  address_char c = true /\
  negb (is_space c || is_char ","%char c || is_char dquote c) = true.
Proof.
  assert (H : forallb (fun c =>
                implb (is_hex_colon c || is_char "."%char c)
                  (address_char c &&
                   negb (is_space c || is_char ","%char c || is_char dquote c)))
                all_chars = true) by (vm_compute; reflexivity).
  rewrite forallb_forall in H. specialize (H c (all_chars_complete c)).
  intros Hc. rewrite Hc in H. simpl in H. now apply andb_prop in H.
Qed.

(** X5. The ip of a record is never empty: it is the sentinel ["-"], or
    a text made only of characters that the address pattern admits, that
    is, decimal digits as the pattern's digit class reads them, the
    letters from a to f in either case, colons and dots.  It holds
    neither white space nor a comma nor a double quote. *)
Theorem ip_field_shape (strptime : str -> str -> res datetime)
    (line : str) (r : record) :
  parse_line strptime line = Ok (Some r) ->
  exists ip,
    field r "ip" = CStr ip /\ ip <> [] /\
    (ip = lit "-" \/ forallb address_char ip = true) /\
    forallb (fun c => negb (is_space c || is_char ","%char c || is_char dquote c)) ip
      = true.
Proof.
  intros Hr. apply parse_line_record in Hr as ->.
  rewrite record_of_ip, ip_of_first_hop. eexists. split; [reflexivity|].
  destruct (valid_ip (first_hop _)) eqn:E.
  - apply valid_ip_chars in E as [Hne Hc]. split; [exact Hne|].
    rewrite forallb_forall in Hc.
    split; [right|]; apply forallb_forall; intros c Hin;
      specialize (Hc c Hin); revert Hc; apply address_char_spec.
  - split; [discriminate|]. split; [now left|reflexivity].
Qed.

Lemma ip_field_shape_witness :
  parse_line strptime_rejecting (access_line "200" "not-an-ip")
    = Ok (Some (record_of strptime_rejecting (access_line "200" "not-an-ip")))
  /\ exists ip,
       field (record_of strptime_rejecting (access_line "200" "not-an-ip")) "ip" = CStr ip
       /\ ip <> [].
Proof.
  assert (H : parse_line strptime_rejecting (access_line "200" "not-an-ip")
              = Ok (Some (record_of strptime_rejecting (access_line "200" "not-an-ip")))).
  { line_passes. }
  split; [exact H|].
  destruct (ip_field_shape strptime_rejecting _ _ H) as (ip & Hip & Hne & _).
  exists ip. auto.
Defined.

(** Every group found by [findall] has what a match of the pattern gives
    its group. *)
Lemma rx_findall_from_forall (m : str -> option (str * str)) (P : str -> Prop) :
  (forall x g rest, m x = Some (g, rest) -> P g) ->
  forall x skip, Forall P (rx_findall_from m skip x).
Proof.
  intros Hm. induction x as [|c t IH]; intros skip; simpl; [constructor|].
  destruct skip as [|skip]; [|apply IH].
  destruct (m (c :: t)) as [[g rest]|] eqn:E; [|apply IH].
  constructor; [eapply Hm, E|apply IH].
Qed.

Lemma quoted_re_group x g rest :
  quoted_re x = Some (g, rest) -> forallb (not_char dquote) g = true.
Proof.
  unfold quoted_re. intros H.
  apply rx_char_sound in H as (t & -> & H).
  apply rx_star_sound in H as (g' & t' & -> & Hg & H).
  now apply rx_char_sound in H as (t'' & -> & [= <- <-]).
Qed.

Lemma bracketed_re_group x g rest :
  bracketed_re x = Some (g, rest) ->
  g <> [] /\ forallb (not_char "]"%char) g = true.
Proof.
  unfold bracketed_re. intros H.
  apply rx_char_sound in H as (t & -> & H).
  apply rx_plus_sound in H as (g' & t' & -> & Hg & Hne & H).
  now apply rx_char_sound in H as (t'' & -> & [= <- <-]).
Qed.

Lemma nth_findall_quoted line i :
  (i < length (rx_findall quoted_re line))%nat ->
  forallb (not_char dquote) (nth i (rx_findall quoted_re line) []) = true.
Proof.
  intros Hi.
  pose proof (rx_findall_from_forall quoted_re _ quoted_re_group line 0) as H.
  rewrite Forall_forall in H. apply H. apply list_elem_of_In, nth_In, Hi.
Qed.

Lemma split_ws_from_chars x : forall cur t c,
  t ∈ split_ws_from cur x -> c ∈ t -> c ∈ cur \/ c ∈ x.
Proof.
  induction x as [|a x IH]; intros cur t c Ht Hc; simpl in Ht.
  - destruct cur; [inversion Ht|]. apply list_elem_of_singleton in Ht as ->. now left.
  - destruct (is_space a).
    + destruct cur as [|b cur'].
      * destruct (IH [] t c Ht Hc) as [H|H]; [inversion H|right; now right].
      * apply elem_of_cons in Ht as [->|Ht]; [now left|].
        destruct (IH [] t c Ht Hc) as [H|H]; [inversion H|right; now right].
    + destruct (IH (cur ++ [a]) t c Ht Hc) as [H|H].
      * apply elem_of_app in H as [H|H]; [now left|].
        apply list_elem_of_singleton in H as ->. right. left.
      * right. now right.
Qed.

Lemma request_line_of_chars (p : ascii -> bool) request :
  forallb p request = true ->
  forallb p (request_line_of request).1.1 = true /\
  forallb p (request_line_of request).1.2 = true /\
  forallb p (request_line_of request).2 = true.
Proof.
  intros Hp. unfold request_line_of.
  assert (Htok : forall t, t ∈ split_ws request -> forallb p t = true).
  { intros t Ht. rewrite forallb_forall in *. intros ch Hch.
    apply list_elem_of_In in Hch.
    destruct (split_ws_from_chars request [] t ch Ht Hch) as [H|H]; [inversion H|].
    apply Hp. now apply list_elem_of_In. }
  destruct (split_ws request) as [|w1 [|w2 [|w3 [|w4 l]]]]; cbn [fst snd]; auto.
  repeat split; apply Htok; [left|right; left|right; right; left].
Qed.

(** X6. No text field taken from the quoted fields of the line contains a
    double quote: neither referrer, user_agent and proxy_chain, which are
    the second to fourth quoted fields, nor method, path and protocol,
    which are words of the first. *)
Theorem quoted_fields_have_no_quote (strptime : str -> str -> res datetime)
    (line : str) (r : record) (name : string) :
  parse_line strptime line = Ok (Some r) ->
  name ∈ ["method"; "path"; "protocol"; "referrer"; "user_agent";
          "proxy_chain"]%string ->
  exists x, field r name = CStr x /\ forallb (not_char dquote) x = true.
Proof.
  intros Hr Hname. pose proof (parse_line_quoted _ _ _ Hr) as Hq.
  apply parse_line_record in Hr as ->.
  destruct (record_of_request_line strptime line) as (Hm & Hp & Hpr).
  destruct (request_line_of_chars (not_char dquote)
              (nth 0 (rx_findall quoted_re line) [])) as (Cm & Cp & Cpr);
    [apply nth_findall_quoted; lia|].
  rewrite !elem_of_cons, elem_of_nil in Hname.
  destruct Hname as [->|[->|[->|[->|[->|[->|[]]]]]]].
  - eexists. split; [exact Hm|exact Cm].
  - eexists. split; [exact Hp|exact Cp].
  - eexists. split; [exact Hpr|exact Cpr].
  - exists (nth 1 (rx_findall quoted_re line) []).
    split; [|apply nth_findall_quoted; lia].
    unfold record_of. destruct (request_line_of _) as [[m p] pr]. reflexivity.
  - exists (nth 2 (rx_findall quoted_re line) []).
    split; [|apply nth_findall_quoted; lia].
    unfold record_of. destruct (request_line_of _) as [[m p] pr]. reflexivity.
  - exists (nth 3 (rx_findall quoted_re line) []).
    split; [apply record_of_proxy_chain|apply nth_findall_quoted; lia].
Qed.

Lemma quoted_fields_have_no_quote_witness :
  exists x,
    field (record_of strptime_rejecting (access_line "200" "203.0.113.5")) "referrer"
      = CStr x /\ forallb (not_char dquote) x = true.
Proof.
  apply (quoted_fields_have_no_quote strptime_rejecting
           (access_line "200" "203.0.113.5")).
  - line_passes.
  - apply (bool_decide_unpack _). vm_compute. exact I.
Defined.

(** ** The error-log parser *)

Section GreedyFacts.
Context {R : Type}.

(** When its continuation accepts whatever it is given, a greedy repeat
    stops only where the class stops. *)
Lemma rx_upto_maximal n p acc (k : str -> @matcher R) x r :
  (forall g rest, is_Some (k g rest)) -> (length x <= n)%nat ->
  rx_upto n p acc k x = Some r ->
  exists g rest,
    x = g ++ rest /\ forallb p g = true /\
    (rest = [] \/ exists c t, rest = c :: t /\ p c = false) /\
    k (acc ++ g) rest = Some r.
Proof.
  intros Hk. revert acc x. induction n as [|n IH]; intros acc x Hn H.
  - destruct x; [|simpl in Hn; lia]. exists [], []. simpl in *.
    rewrite app_nil_r. auto.
  - destruct x as [|c t].
    + exists [], []. simpl in *. rewrite app_nil_r. auto.
    + simpl in H. destruct (p c) eqn:Hp.
      * destruct (rx_upto_fallback n p (acc ++ [c]) k t (Hk _ _)) as [r' Hr'].
        rewrite Hr' in H. injection H as <-.
        apply IH in Hr' as (g & rest & -> & Hg & Hrest & Hr'); [|simpl in Hn; lia].
        exists (c :: g), rest. simpl. rewrite Hp, Hg, <- app_assoc in *. auto.
      * exists [], (c :: t). simpl. rewrite app_nil_r. eauto 8.
Qed.

Lemma rx_star_maximal p (k : str -> @matcher R) x r :
  (forall g rest, is_Some (k g rest)) ->
  rx_star p k x = Some r ->
  exists g rest,
    x = g ++ rest /\ forallb p g = true /\
    (rest = [] \/ exists c t, rest = c :: t /\ p c = false) /\
    k g rest = Some r.
Proof.
  intros Hk H. unfold rx_star in H.
  apply rx_upto_maximal in H; auto.
Qed.
End GreedyFacts.

(** The parts of a line matched by the pattern of the error log. *)
Lemma php_pattern_parts line time_str raw message :
  php_pattern line = Some (time_str, raw, message) ->
  exists w1 w2 w3 tail,
    line = "["%char :: time_str ++ "]"%char :: w1 ++ lit "PHP" ++ w2 ++ raw
           ++ ":"%char :: w3 ++ message ++ tail /\
    forallb is_dot time_str = true /\
    w1 <> [] /\ forallb is_space w1 = true /\
    w2 <> [] /\ forallb is_space w2 = true /\
    forallb is_space w3 = true /\
    forallb is_dot message = true /\
    (forall c t, message = c :: t -> is_space c = false) /\
    (tail = [] \/ exists t, tail = "010"%char :: t).
Proof.
  unfold php_pattern. intros H.
  apply rx_char_sound in H as (t0 & -> & H).
  apply rx_lazy_sound in H as (g1 & t1 & -> & Hg1 & H).
  apply rx_char_sound in H as (t2 & -> & H).
  apply rx_plus_sound in H as (w1 & t3 & -> & Hw1 & Hn1 & H).
  apply rx_lit_sound in H as (t4 & -> & H).
  apply rx_plus_sound in H as (w2 & t5 & -> & Hw2 & Hn2 & H).
  apply rx_plus_sound in H as (g2 & t6 & -> & Hg2 & Hne2 & H).
  apply rx_char_sound in H as (t7 & -> & H).
  apply rx_star_maximal in H as (w3 & t8 & -> & Hw3 & Hstop & H).
  2:{ intros g rest. unfold rx_star. apply rx_upto_fallback. eauto. }
  apply rx_star_maximal in H as (g3 & t9 & -> & Hg3 & Hend & H); [|eauto].
  injection H as <- <- <-.
  exists w1, w2, w3, t9. simpl app.
  split; [reflexivity|]. repeat (split; [assumption|]).
  split.
  - intros c t ->. destruct Hstop as [?|(c' & t' & [= <- <-] & Hc)]; [discriminate|exact Hc].
  - destruct Hend as [->|(c & t & -> & Hc)]; [now left|right].
    exists t. f_equal. unfold is_dot, not_char in Hc.
    apply negb_false_iff, Ascii.eqb_eq in Hc. exact Hc.
Qed.

(** X7. A line gives an error record only if it reads, from its first
    character: an opening bracket, the time, a closing bracket, blanks,
    the word PHP, blanks, the severity, a colon, blanks and the message.
    The record has exactly the fields time, type and message; the time has
    no line feed, and the message is the rest of the line up to its end or
    line feed, without leading blanks (trailing blanks are kept). *)
Theorem php_record_parts (line : str) (r : record) :
  parse_php_line line = Some r ->
  exists time_str raw message w1 w2 w3 tail,
    line = "["%char :: time_str ++ "]"%char :: w1 ++ lit "PHP" ++ w2 ++ raw
           ++ ":"%char :: w3 ++ message ++ tail /\
    w1 <> [] /\ forallb is_space w1 = true /\
    w2 <> [] /\ forallb is_space w2 = true /\
    forallb is_space w3 = true /\
    (tail = [] \/ exists t, tail = "010"%char :: t) /\
    dom r = {["time"; "type"; "message"]}%string /\
    field r "time" = CStr time_str /\
    field r "type" = CStr (error_type_label raw) /\
    field r "message" = CStr message /\
    forallb (not_char "010"%char) time_str = true /\
    forallb (not_char "010"%char) message = true /\
    (forall c t, message = c :: t -> is_space c = false).
Proof.
  unfold parse_php_line.
  destruct (php_pattern line) as [[[time_str raw] message]|] eqn:E; [|discriminate].
  intros [= <-].
  destruct (php_pattern_parts _ _ _ _ E)
    as (w1 & w2 & w3 & tail & Hl & Ht & Hn1 & Hw1 & Hn2 & Hw2 & Hw3 & Hm & Hlead & Htail).
  exists time_str, raw, message, w1, w2, w3, tail.
  repeat (split; [assumption|]).
  split; [rewrite !dom_insert_L, dom_empty_L; set_solver|].
  repeat (split; [reflexivity|]). auto.
Qed.

Lemma php_record_parts_witness :
  exists time_str raw message w1 w2 w3 tail,
    php_line "Warning" "Undefined variable  " =
      "["%char :: time_str ++ "]"%char :: w1 ++ lit "PHP" ++ w2 ++ raw
      ++ ":"%char :: w3 ++ message ++ tail
    /\ message = lit "Undefined variable  ".
Proof.
  destruct (php_record_parts (php_line "Warning" "Undefined variable  ")
              (list_to_map
                 [("time"%string, CStr (lit "12-Jan-2024 00:00:00 UTC"));
                  ("type"%string, CStr (lit "Warning"));
                  ("message"%string, CStr (lit "Undefined variable  "))]))
    as (t & raw & m & w1 & w2 & w3 & tail & Hl & _ & _ & _ & _ & _ & _ & _ & _ & _ & Hm & _);
    [reflexivity|].
  exists t, raw, m, w1, w2, w3, tail. split; [exact Hl|].
  vm_compute in Hm. injection Hm as <-. reflexivity.
Defined.

(* ===================================================================== *)
(** * Further properties of the derived fields *)
(* ===================================================================== *)

(** ** The extension *)

Lemma get_extension_eq p :
  get_extension (CStr p) =
    Ok (let name := after_last "/"%char (before_first "?"%char p) in
        if has_char "."%char name then lower (after_last "."%char name) else []).
Proof.
  unfold get_extension.
  destruct (split_once_first "?"%char p) as [ps ->].
  cbn [index nth_error]. unfold mbind, res_bind.
  rewrite index_last_split_on. cbv zeta.
  destruct (has_char "."%char (after_last "/"%char (before_first "?"%char p))) eqn:E;
    [|reflexivity].
  rewrite index_last_split_on. now rewrite after_last_nested.
Qed.

Lemma before_first_no_sep sep x : forallb (not_char sep) (before_first sep x) = true.
Proof.
  induction x as [|c x IH]; [reflexivity|]. simpl.
  destruct (Ascii.eqb c sep) eqn:E; [reflexivity|]. simpl.
  unfold not_char at 1. now rewrite E.
Qed.

Lemma before_first_chars (p : ascii -> bool) sep x :
  forallb p x = true -> forallb p (before_first sep x) = true.
Proof.
  induction x as [|c x IH]; [reflexivity|]. simpl. intros H.
  apply andb_prop in H as [Hc Hx]. destruct (Ascii.eqb c sep); [reflexivity|].
  simpl. now rewrite Hc, IH.
Qed.

Lemma after_last_no_sep sep x : forallb (not_char sep) (after_last sep x) = true.
Proof. unfold after_last. rewrite forallb_rev. apply before_first_no_sep. Qed.

Lemma after_last_chars (p : ascii -> bool) sep x :
  forallb p x = true -> forallb p (after_last sep x) = true.
Proof.
  intros H. unfold after_last. rewrite forallb_rev.
  apply before_first_chars. now rewrite forallb_rev.
Qed.

Lemma lower_char_keeps_marks c :
  not_char "."%char (lower_char c) = not_char "."%char c /\
  not_char "/"%char (lower_char c) = not_char "/"%char c /\
  not_char "?"%char (lower_char c) = not_char "?"%char c.
Proof. destruct c as [[] [] [] [] [] [] [] []]; vm_compute; auto. Qed.

Lemma lower_char_idem c : lower_char (lower_char c) = lower_char c.
Proof. destruct c as [[] [] [] [] [] [] [] []]; reflexivity. Qed.

Lemma lower_idem x : lower (lower x) = lower x.
Proof.
  unfold lower. rewrite map_map. apply map_ext. intros c. apply lower_char_idem.
Qed.

Lemma forallb_lower_marks x :
  forallb (not_char "."%char) (lower x) = forallb (not_char "."%char) x /\
  forallb (not_char "/"%char) (lower x) = forallb (not_char "/"%char) x /\
  forallb (not_char "?"%char) (lower x) = forallb (not_char "?"%char) x.
Proof.
  induction x as [|c x (IH1 & IH2 & IH3)]; [auto|]. simpl.
  destruct (lower_char_keeps_marks c) as (-> & -> & ->).
  now rewrite IH1, IH2, IH3.
Qed.

(** X8. The extension computed for a path has no dot, no slash and no
    question mark, and is in lower case: lower-casing it again changes
    nothing.  The call never raises. *)
Theorem extension_alphabet (path : cell) :
  exists ext,
    get_extension path = Ok ext /\
    forallb (not_char "."%char) ext = true /\
    forallb (not_char "/"%char) ext = true /\
    forallb (not_char "?"%char) ext = true /\
    lower ext = ext.
Proof.
  destruct path as [|p| | |]; try (exists []; repeat split; fail).
  rewrite get_extension_eq. cbv zeta. eexists. split; [reflexivity|].
  set (name := after_last "/"%char (before_first "?"%char p)).
  destruct (has_char "."%char name); [|repeat split].
  destruct (forallb_lower_marks (after_last "."%char name)) as (-> & -> & ->).
  split; [apply after_last_no_sep|].
  split; [apply after_last_chars, after_last_no_sep|].
  split; [|apply lower_idem].
  apply after_last_chars, after_last_chars, before_first_no_sep.
Qed.

Lemma before_first_prefix sep g rest :
  forallb (not_char sep) g = true ->
  before_first sep (g ++ rest) = g ++ before_first sep rest.
Proof.
  induction g as [|c g IH]; [reflexivity|]. simpl. intros H.
  apply andb_prop in H as [Hc Hg]. unfold not_char in Hc.
  destruct (Ascii.eqb c sep); [discriminate|]. now rewrite IH.
Qed.

Lemma after_last_suffix sep x y :
  forallb (not_char sep) y = true ->
  after_last sep (x ++ y) = after_last sep x ++ y.
Proof.
  intros H. unfold after_last. rewrite rev_app_distr.
  rewrite before_first_prefix by now rewrite forallb_rev.
  now rewrite rev_app_distr, rev_involutive.
Qed.

Lemma after_last_cut sep x y :
  forallb (not_char sep) y = true -> after_last sep (x ++ sep :: y) = y.
Proof.
  intros H. unfold after_last. rewrite rev_app_distr. cbn [rev].
  rewrite <- app_assoc. simpl.
  rewrite before_first_app by now rewrite forallb_rev.
  apply rev_involutive.
Qed.

Lemma has_char_app c x y : has_char c (x ++ y) = has_char c x || has_char c y.
Proof. unfold has_char. apply existsb_app. Qed.

(** X9. Appending a dot and an extension to any path gives back that
    extension, lower-cased, whatever query string follows: for a path
    without question mark and an extension without dot, slash or question
    mark, [get_extension (path.ext?query)] and [get_extension (path.ext)]
    are both [ext] in lower case. *)
Theorem extension_of_suffix (base ext query : str) :
  forallb (not_char "?"%char) base = true ->
  forallb (not_char "."%char) ext = true ->
  forallb (not_char "/"%char) ext = true ->
  forallb (not_char "?"%char) ext = true ->
  get_extension (CStr (base ++ "."%char :: ext ++ "?"%char :: query)) = Ok (lower ext) /\
  get_extension (CStr (base ++ "."%char :: ext)) = Ok (lower ext).
Proof.
  intros Hb He1 He2 He3.
  assert (Hq : forallb (not_char "?"%char) (base ++ "."%char :: ext) = true).
  { rewrite forallb_app, Hb. simpl. now rewrite He3. }
  assert (Hname : after_last "/"%char (base ++ "."%char :: ext)
                  = after_last "/"%char base ++ "."%char :: ext).
  { apply after_last_suffix. simpl. now rewrite He2. }
  assert (Hgoal : get_extension (CStr (base ++ "."%char :: ext)) = Ok (lower ext)).
  { rewrite get_extension_eq. cbv zeta.
    rewrite (before_first_free _ _ Hq), Hname, has_char_app.
    replace (has_char "."%char ("."%char :: ext)) with true by reflexivity.
    rewrite orb_true_r. now rewrite after_last_cut. }
  split; [|exact Hgoal].
  rewrite get_extension_eq in *. cbv zeta in *.
  replace (base ++ "."%char :: ext ++ "?"%char :: query)
    with ((base ++ "."%char :: ext) ++ "?"%char :: query)
    by (now rewrite <- app_assoc).
  rewrite (before_first_app _ _ _ Hq).
  now rewrite (before_first_free _ _ Hq) in Hgoal.
Qed.

Lemma extension_of_suffix_witness :
  get_extension (CStr (lit "/themes/site/logo" ++ "."%char :: lit "PNG" ++ "?"%char :: lit "v=1.2"))
    = Ok (lit "png").
Proof.
  apply (extension_of_suffix (lit "/themes/site/logo") (lit "PNG") (lit "v=1.2"));
    reflexivity.
Defined.

(* ===================================================================== *)
(** * Further properties of the detectors *)
(* ===================================================================== *)

(** ** Running the injection detectors again, and one after the other *)

Lemma flagged_insert words (col : string) v (r : record) :
  col <> "path"%string -> col <> "referrer"%string ->
  flagged words (<[col := v]> r) = flagged words r.
Proof.
  intros H1 H2. unfold flagged. now rewrite !field_insert_ne.
Qed.

Lemma filter_map_flagged words (col : string) (f : record -> cell) (rs : list record) :
  col <> "path"%string -> col <> "referrer"%string ->
  filter (fun r => flagged words r = true) (map (fun r => <[col := f r]> r) rs)
  = map (fun r => <[col := f r]> r) (filter (fun r => flagged words r = true) rs).
Proof.
  intros H1 H2. induction rs as [|r rs IH]; [reflexivity|]. cbn [map].
  rewrite !filter_cons, flagged_insert by easy.
  destruct (decide (flagged words r = true)); cbn [map]; now rewrite IH.
Qed.

(** X10. Running the SQL-injection detector a second time changes
    nothing: on the table as the first call left it, the detector leaves
    the table as it is and returns the same records.  The same holds of
    the XSS detector. *)
Theorem injection_detectors_idempotent (df df' out : DataFrame) :
  "path"%string ∈ columns df -> "referrer"%string ∈ columns df ->
  (detect_sql_injection df = Ok (df', out) ->
   detect_sql_injection df' = Ok (df', out)) /\
  (detect_xss df = Ok (df', out) -> detect_xss df' = Ok (df', out)).
Proof.
  intros Hpath Href.
  assert (Hgen : forall (words : list str) (col : string),
            col <> "path"%string -> col <> "referrer"%string ->
            forall d1 o1,
            d1 = {| columns := if bool_decide (col ∈ columns df) then columns df
                               else columns df ++ [col];
                    rows := map (fun r => <[col := CBool (flagged words r)]> r) (rows df) |} ->
            o1 = {| columns := columns d1;
                    rows := map (fun r => <[col := CBool true]> r)
                              (filter (fun r => flagged words r = true) (rows df)) |} ->
            "path"%string ∈ columns d1 /\ "referrer"%string ∈ columns d1 /\
            {| columns := if bool_decide (col ∈ columns d1) then columns d1
                          else columns d1 ++ [col];
               rows := map (fun r => <[col := CBool (flagged words r)]> r) (rows d1) |} = d1 /\
            {| columns := if bool_decide (col ∈ columns d1) then columns d1
                          else columns d1 ++ [col];
               rows := map (fun r => <[col := CBool true]> r)
                         (filter (fun r => flagged words r = true) (rows d1)) |} = o1).
  { intros words col H1 H2 d1 o1 -> ->. cbn [columns rows].
    assert (Hcol : col ∈ (if bool_decide (col ∈ columns df) then columns df
                          else columns df ++ [col])).
    { case_bool_decide; [easy|]. apply elem_of_app. right. left. }
    rewrite (bool_decide_eq_true_2 _ Hcol).
    split; [case_bool_decide; [easy|apply elem_of_app; now left]|].
    split; [case_bool_decide; [easy|apply elem_of_app; now left]|].
    split; f_equal.
    - rewrite map_map. apply map_ext. intros r.
      now rewrite flagged_insert, insert_insert_eq.
    - rewrite filter_map_flagged, map_map by easy. apply map_ext. intros r.
      now rewrite insert_insert_eq. }
  split.
  - rewrite detect_sql_injection_eq by easy. intros [= <- <-].
    destruct (Hgen sql_keywords "potential_sql_injection"%string
                ltac:(discriminate) ltac:(discriminate) _ _ eq_refl eq_refl)
      as (Hp & Hr & E1 & E2).
    rewrite detect_sql_injection_eq by easy. now rewrite E1, E2.
  - rewrite detect_xss_eq by easy. intros [= <- <-].
    destruct (Hgen xss_patterns "potential_xss"%string
                ltac:(discriminate) ltac:(discriminate) _ _ eq_refl eq_refl)
      as (Hp & Hr & E1 & E2).
    rewrite detect_xss_eq by easy. now rewrite E1, E2.
Qed.

Lemma injection_detectors_idempotent_witness :
  exists df' out,
    detect_sql_injection absent_fields_sample = Ok (df', out)
    /\ detect_sql_injection df' = Ok (df', out).
Proof.
  destruct (detect_sql_injection absent_fields_sample) as [[df' out]|e] eqn:E;
    [|vm_compute in E; discriminate].
  exists df', out. split; [reflexivity|].
  apply (injection_detectors_idempotent absent_fields_sample df' out);
    [in_columns|in_columns|exact E].
Defined.

(** X11. The two injection detectors do not disturb each other: the XSS
    detector run after the SQL-injection detector, as the dashboard runs
    them, flags the records it would flag alone, and the records of the
    table end up the same in whichever order the two detectors run. *)
Theorem injection_detectors_commute (df : DataFrame) :
  "path"%string ∈ columns df -> "referrer"%string ∈ columns df ->
  exists d_sql o_sql d_both o_xss d_xss o_xss' d_both' o_sql',
    detect_sql_injection df = Ok (d_sql, o_sql) /\
    detect_xss d_sql = Ok (d_both, o_xss) /\
    detect_xss df = Ok (d_xss, o_xss') /\
    detect_sql_injection d_xss = Ok (d_both', o_sql') /\
    rows d_both = rows d_both' /\
    rows o_xss = map (fun r => <["potential_sql_injection"%string
                                   := CBool (flagged sql_keywords r)]> r)
                   (rows o_xss') /\
    rows d_both =
      map (fun r => <["potential_xss"%string := CBool (flagged xss_patterns r)]>
                      (<["potential_sql_injection"%string
                           := CBool (flagged sql_keywords r)]> r)) (rows df).
Proof.
  intros Hpath Href.
  assert (Hin : forall (col : string) (cols : list string) name,
            name ∈ cols ->
            name ∈ (if bool_decide (col ∈ cols) then cols else cols ++ [col])).
  { intros col cols name H. case_bool_decide; [easy|]. apply elem_of_app. now left. }
  do 8 eexists.
  split; [now apply detect_sql_injection_eq|].
  split; [apply detect_xss_eq; now apply Hin|].
  split; [now apply detect_xss_eq|].
  split; [apply detect_sql_injection_eq; now apply Hin|].
  cbn [rows]. rewrite !map_map.
  split; [|split].
  - apply map_ext. intros r. rewrite !flagged_insert by discriminate.
    now apply insert_insert_ne.
  - rewrite filter_map_flagged, !map_map by discriminate.
    apply map_ext. intros r.
    rewrite insert_insert_ne by discriminate.
    now rewrite flagged_insert by discriminate.
  - apply map_ext. intros r. now rewrite flagged_insert by discriminate.
Qed.

Lemma injection_detectors_commute_witness :
  exists d_sql o_sql d_both o_xss,
    detect_sql_injection absent_fields_sample = Ok (d_sql, o_sql) /\
    detect_xss d_sql = Ok (d_both, o_xss).
Proof.
  destruct (injection_detectors_commute absent_fields_sample)
    as (d1 & o1 & d2 & o2 & _ & _ & _ & _ & H1 & H2 & _);
    [in_columns|in_columns|].
  exists d1, o1, d2, o2. auto.
Defined.

(* ===================================================================== *)
(** * Bot detection *)
(* ===================================================================== *)

Lemma contains_trans a b x :
  contains a b = true -> contains b x = true -> contains a x = true.
Proof.
  rewrite !contains_spec. intros (p1 & s1 & ->) (p2 & s2 & ->).
  exists (p2 ++ p1), (s1 ++ s2). now rewrite <- !app_assoc.
Qed.

(** Words that contain a word of a shorter list add nothing to a search. *)
Lemma existsb_contains_core (all core : list str) x :
  forallb (fun w => existsb (fun w' => contains w' w) core) all = true ->
  forallb (fun w' => existsb (str_eqb w') all) core = true ->
  existsb (fun w => contains w x) all = existsb (fun w => contains w x) core.
Proof.
  intros Hall Hcore. apply eq_true_iff_eq. rewrite !existsb_exists. split.
  - intros (w & Hw & Hc). rewrite forallb_forall in Hall.
    apply Hall, existsb_exists in Hw as (w' & Hw' & Hc'). exists w'. split; [easy|].
    eapply contains_trans; eauto.
  - intros (w' & Hw' & Hc). rewrite forallb_forall in Hcore.
    apply Hcore, existsb_exists in Hw' as (w & Hw & He).
    unfold str_eqb in He. apply bool_decide_eq_true in He as ->. eauto.
Qed.

(** X12. Whether a user agent is a bot does not depend on its letter
    case, and a user agent that is absent is no bot.  Thirteen of the
    twenty-five keywords decide the flag: a user agent is a bot exactly
    when its lower-cased text contains one of bot, spider, crawl, slurp,
    baidu, bingpreview, yandex, sogou, ia_archiver, panscient,
    python-requests, curl or wget; in particular every user agent with
    the letters bot in it is one. *)
Theorem is_bot_keywords (user_agent : str) :
  is_bot (CStr user_agent)
    = existsb (fun w => contains w (lower user_agent)) core_bot_keywords /\
  is_bot (CStr (lower user_agent)) = is_bot (CStr user_agent) /\
  (contains (lit "bot") (lower user_agent) = true -> is_bot (CStr user_agent) = true) /\
  is_bot CNull = false.
Proof.
  assert (Hcore : forall x, is_bot (CStr x)
            = existsb (fun w => contains w (lower x)) core_bot_keywords).
  { intros x. unfold is_bot. cbn [str_lower str_contains_case default].
    apply existsb_contains_core; vm_compute; reflexivity. }
  split; [apply Hcore|]. split; [|split; [|reflexivity]].
  - unfold is_bot. cbn [str_lower]. now rewrite lower_idem.
  - intros H. rewrite Hcore. cbn [core_bot_keywords map existsb].
    change (lit "bot") with (lit "bot") in H. now rewrite H.
Qed.

Lemma is_bot_keywords_witness :
  is_bot (CStr (lit "Mozilla/5.0 (compatible; Googlebot/2.1)")) = true.
Proof.
  apply (is_bot_keywords (lit "Mozilla/5.0 (compatible; Googlebot/2.1)")).
  reflexivity.
Defined.

(* ===================================================================== *)
(** * Rankings *)
(* ===================================================================== *)

Lemma bump_count_in v cs v' :
  count_in (bump v cs) v' = count_in cs v' + (if bool_decide (v = v') then 1 else 0).
Proof.
  induction cs as [|e cs IH]; simpl.
  - destruct (bool_decide (v = v')); lia.
  - destruct (decide (e.1 = v)) as [<-|Hne].
    + rewrite bool_decide_eq_true_2 by easy. simpl.
      destruct (bool_decide (e.1 = v')); lia.
    + rewrite bool_decide_eq_false_2 by easy. simpl. rewrite IH. lia.
Qed.

Lemma bump_keys v cs :
  map fst (bump v cs) =
    if bool_decide (v ∈ map fst cs) then map fst cs else map fst cs ++ [v].
Proof.
  induction cs as [|e cs IH]; simpl.
  - reflexivity.
  - destruct (decide (e.1 = v)) as [<-|Hne].
    + rewrite !bool_decide_eq_true_2; [reflexivity|left|reflexivity].
    + rewrite (bool_decide_eq_false_2 (e.1 = v)) by easy. simpl. rewrite IH.
      destruct (decide (v ∈ map fst cs)) as [Hin|Hout].
      * rewrite !bool_decide_eq_true_2; [reflexivity|now right|exact Hin].
      * rewrite !bool_decide_eq_false_2; [reflexivity| |exact Hout].
        intros [H|H]%elem_of_cons; [congruence|contradiction].
Qed.

Lemma bump_NoDup v cs : NoDup (map fst cs) -> NoDup (map fst (bump v cs)).
Proof.
  intros H. rewrite bump_keys. case_bool_decide as E; [exact H|].
  apply NoDup_app. split; [exact H|]. split; [|apply NoDup_singleton].
  intros x Hx ->%list_elem_of_singleton. contradiction.
Qed.

Lemma bump_entries v cs :
  v <> CNull ->
  Forall (fun e => e.1 <> CNull /\ 0 < e.2) cs ->
  Forall (fun e => e.1 <> CNull /\ 0 < e.2) (bump v cs).
Proof.
  intros Hv. induction cs as [|e cs IH]; simpl; intros H.
  - apply List.Forall_cons; [split; [exact Hv|simpl; lia]|apply List.Forall_nil].
  - pose proof (List.Forall_inv H) as [He1 He2].
    pose proof (List.Forall_inv_tail H) as Hcs.
    destruct (bool_decide (e.1 = v)).
    + apply List.Forall_cons; [split; [exact He1|simpl; lia]|exact Hcs].
    + apply List.Forall_cons; [easy|auto].
Qed.

Lemma occurrences_cons v c col :
  occurrences v (c :: col) = (if bool_decide (c = v) then 1 else 0) + occurrences v col.
Proof.
  unfold occurrences. rewrite filter_cons.
  destruct (decide (c = v)) as [E|E].
  - rewrite bool_decide_eq_true_2 by easy. simpl length. lia.
  - rewrite bool_decide_eq_false_2 by easy. lia.
Qed.

(** What the tally of a column holds, started from the counts [cs]. *)
Lemma tally_from col : forall cs,
  let out := fold_left (fun cs v => if notnull v then bump v cs else cs) col cs in
  (NoDup (map fst cs) -> NoDup (map fst out)) /\
  (Forall (fun e => e.1 <> CNull /\ 0 < e.2) cs ->
   Forall (fun e => e.1 <> CNull /\ 0 < e.2) out) /\
  (forall v, v <> CNull -> count_in out v = count_in cs v + occurrences v col).
Proof.
  induction col as [|c col IH]; intros cs; cbn [fold_left].
  - split; [auto|]. split; [auto|]. intros v _. unfold occurrences. simpl. lia.
  - destruct (IH (if notnull c then bump c cs else cs)) as (H1 & H2 & H3).
    split; [|split].
    + intros Hnd. apply H1. destruct (notnull c); [now apply bump_NoDup|exact Hnd].
    + intros Hf. apply H2. destruct (notnull c) eqn:E; [|exact Hf].
      apply bump_entries; [|exact Hf]. intros ->. discriminate.
    + intros v Hv. rewrite H3, occurrences_cons by easy.
      destruct (notnull c) eqn:E.
      * rewrite bump_count_in. lia.
      * destruct c; try discriminate. rewrite bool_decide_eq_false_2 by congruence. lia.
Qed.

Lemma count_in_NoDup cs v n :
  NoDup (map fst cs) -> (v, n) ∈ cs -> count_in cs v = n.
Proof.
  induction cs as [|e cs IH]; intros Hnd Hin; [inversion Hin|].
  simpl in Hnd. apply NoDup_cons in Hnd as [Hfresh Hnd]. simpl.
  assert (Hzero : forall w, w ∉ map fst cs -> count_in cs w = 0).
  { clear. induction cs as [|e cs IH]; intros w Hw; [reflexivity|]. simpl.
    rewrite bool_decide_eq_false_2, IH; [lia| |].
    - intros H. apply Hw. now right.
    - intros <-. apply Hw. left. }
  apply elem_of_cons in Hin as [<-|Hin].
  - simpl. rewrite bool_decide_eq_true_2, Hzero by easy. lia.
  - rewrite bool_decide_eq_false_2, IH by
      (try easy; intros E; apply Hfresh; rewrite E;
       apply list_elem_of_fmap; now exists (v, n)).
    lia.
Qed.

Lemma count_in_elem cs v : count_in cs v <> 0 -> exists n, (v, n) ∈ cs.
Proof.
  induction cs as [|e cs IH]; simpl; [lia|]. intros H.
  case_bool_decide as E.
  - exists e.2. destruct e. simpl in *. subst. left.
  - destruct IH as [n Hn]; [lia|]. exists n. now right.
Qed.

(** The entries of a tally. *)
Lemma tally_entries col :
  NoDup (map fst (tally col)) /\
  forall v n, (v, n) ∈ tally col <->
              v <> CNull /\ 0 < n /\ n = occurrences v col.
Proof.
  destruct (tally_from col []) as (H1 & H2 & H3). fold (tally col) in *.
  specialize (H1 ltac:(constructor)). specialize (H2 ltac:(constructor)).
  split; [exact H1|]. intros v n. split.
  - intros Hin. rewrite Forall_forall in H2. destruct (H2 _ Hin) as [Hv Hn].
    simpl in *. split; [exact Hv|]. split; [exact Hn|].
    rewrite <- (count_in_NoDup _ _ _ H1 Hin), H3 by easy. simpl. lia.
  - intros (Hv & Hn & ->).
    destruct (count_in_elem (tally col) v) as [n Hin].
    + rewrite H3 by easy. simpl. lia.
    + replace (occurrences v col) with n; [exact Hin|].
      rewrite <- (count_in_NoDup _ _ _ H1 Hin), H3 by easy. simpl. lia.
Qed.

Lemma sorted_by_count (l : list (cell * Z)) :
  StronglySorted (descending (fun e : cell * Z => inject_Z e.2)) l ->
  StronglySorted by_count l.
Proof.
  induction 1 as [|a l Hs IH Hf]; constructor; [exact IH|].
  eapply Forall_impl; [exact Hf|]. intros b Hb. unfold descending in Hb.
  unfold by_count. now rewrite Zle_Qle.
Qed.

(** The ten most frequent values of a column. *)
Lemma ranking_spec (col : list cell) :
  let out := take 10 (value_counts col) in
  (length out <= 10)%nat /\
  StronglySorted by_count out /\
  NoDup (map fst out) /\
  (forall v n, (v, n) ∈ out -> v <> CNull /\ 0 < n /\ n = occurrences v col) /\
  (forall v, v <> CNull -> 0 < occurrences v col ->
     (v, occurrences v col) ∈ out \/
     (length out = 10%nat /\ forall e, e ∈ out -> occurrences v col <= e.2)).
Proof.
  intros out. subst out. unfold value_counts.
  set (score := fun e : cell * Z => inject_Z e.2).
  destruct (tally_entries col) as [Hnd Hent].
  pose proof (sort_desc_perm score (tally col)) as Hperm.
  pose proof (sort_desc_sorted score (tally col)) as Hsorted.
  split; [rewrite length_take; lia|]. split; [|split; [|split]].
  - apply sorted_by_count.
    rewrite <- (take_drop 10 (sort_desc score (tally col))) in Hsorted.
    now apply StronglySorted_app_1_l in Hsorted.
  - apply (sublist_NoDup _ (fst <$> sort_desc score (tally col)));
      [|apply fmap_sublist, sublist_take].
    now rewrite Hperm.
  - intros v n Hin. apply subseteq_take in Hin.
    change ((v, n) ∈ sort_desc score (tally col)) in Hin.
    rewrite Hperm in Hin. now apply Hent.
  - intros v Hv Hpos.
    assert (Hin : (v, occurrences v col) ∈ sort_desc score (tally col)).
    { rewrite Hperm. apply Hent. auto. }
    destruct (take_sorted score 10 _ _ Hsorted Hin) as [H|[Hlen Hle]]; [now left|right].
    split; [exact Hlen|]. intros e He. apply Hle in He. unfold score in He.
    simpl in He. now rewrite Zle_Qle.
Qed.

Lemma occurrences_field (name : string) v (rs : list record) :
  occurrences v (map (fun r => field r name) rs)
  = Z.of_nat (length (filter (fun r => field r name = v) rs)).
Proof. unfold occurrences. now rewrite length_filter_map. Qed.

Lemma value_counts_head_aux (df : DataFrame) (name : string) :
  name ∈ columns df ->
  exists out,
    value_counts_head df name = Ok out /\
    (length out <= 10)%nat /\
    StronglySorted by_count out /\
    NoDup (map fst out) /\
    (forall v n, (v, n) ∈ out ->
       v <> CNull /\ 0 < n /\
       n = Z.of_nat (length (filter (fun r => field r name = v) (rows df)))) /\
    (forall v r, r ∈ rows df -> field r name = v -> v <> CNull ->
       (exists n, (v, n) ∈ out) \/
       (length out = 10%nat /\
        forall e, e ∈ out ->
          Z.of_nat (length (filter (fun r => field r name = v) (rows df))) <= e.2)).
Proof.
  intros H. unfold value_counts_head. rewrite getcol_ok by easy.
  eexists. split; [reflexivity|].
  destruct (ranking_spec (map (fun r => field r name) (rows df)))
    as (Hlen & Hsort & Hnd & Hent & Hfull).
  split; [exact Hlen|]. split; [exact Hsort|]. split; [exact Hnd|]. split.
  - intros v n Hin. rewrite <- occurrences_field. now apply Hent.
  - intros v r Hr Hf Hv. rewrite <- occurrences_field.
    destruct (Hfull v Hv) as [Hin|Hout]; [|eauto|now right].
    rewrite occurrences_field.
    assert (Hr' : r ∈ filter (fun r => field r name = v) (rows df))
      by now apply list_elem_of_filter.
    destruct (filter (fun r => field r name = v) (rows df)); [inversion Hr'|simpl; lia].
Qed.

(** X13. [df[name].value_counts().head(10)], the expression behind the
    tables of most frequent paths, status codes, user agents, addresses
    and referrers, raises [KeyError] for a missing column.  Otherwise it
    lists at most ten values, each once and none of them null, by
    descending count; the count of a value is the number of records that
    hold it; and a value held by some record is left out only when ten
    values with at least its count are listed. *)
Theorem value_counts_head_spec (df : DataFrame) (name : string) :
  (name ∉ columns df -> value_counts_head df name = Raise KeyError) /\
  (name ∈ columns df ->
   exists out,
     value_counts_head df name = Ok out /\
     (length out <= 10)%nat /\
     StronglySorted by_count out /\
     NoDup (map fst out) /\
     (forall v n, (v, n) ∈ out ->
        v <> CNull /\ 0 < n /\
        n = Z.of_nat (length (filter (fun r => field r name = v) (rows df)))) /\
     (forall v r, r ∈ rows df -> field r name = v -> v <> CNull ->
        (exists n, (v, n) ∈ out) \/
        (length out = 10%nat /\
         forall e, e ∈ out ->
           Z.of_nat (length (filter (fun r => field r name = v) (rows df))) <= e.2))) /\
  top_paths df = value_counts_head df "path" /\
  top_request_ips df = value_counts_head df "ip".
Proof.
  split; [|split; [|split; reflexivity]].
  - intros H. unfold value_counts_head. now rewrite getcol_missing.
  - apply value_counts_head_aux.
Qed.

(** X14. The table of the addresses with most 404s lists at most ten
    addresses, each once, by descending count; the count of an address
    is the number of its records with status 404, and is never zero; an
    address with such a record is left out only when ten addresses with
    at least as many are listed. *)
Theorem notfound_ips_spec (df : DataFrame) :
  "ip"%string ∈ columns df -> "status"%string ∈ columns df ->
  exists out,
    notfound_ips df = Ok out /\
    (length out <= 10)%nat /\
    StronglySorted by_count out /\
    NoDup (map fst out) /\
    (forall ip n, (ip, n) ∈ out ->
       ip <> CNull /\ 0 < n /\
       n = Z.of_nat (length (filter (fun r => field r "status" = CInt 404 /\
                                              field r "ip" = ip) (rows df)))) /\
    (forall ip r, r ∈ rows df -> field r "status" = CInt 404 -> field r "ip" = ip ->
       ip <> CNull ->
       (exists n, (ip, n) ∈ out) \/
       (length out = 10%nat /\
        forall e, e ∈ out ->
          Z.of_nat (length (filter (fun r => field r "status" = CInt 404 /\
                                             field r "ip" = ip) (rows df))) <= e.2)).
Proof.
  intros Hip Hstatus. unfold notfound_ips.
  rewrite getcol_ok by easy. unfold mbind at 1, res_bind.
  rewrite map_map. unfold getrows.
  rewrite (select_map (fun r => eq_num 404 (field r "status"))).
  set (sub := {| columns := columns df;
                 rows := filter (fun r => eq_num 404 (field r "status") = true) (rows df) |}).
  destruct (value_counts_head_aux sub "ip" Hip)
    as (out & -> & Hlen & Hsort & Hnd & Hent & Hfull).
  assert (E404 : forall r, eq_num 404 (field r "status") = true <-> field r "status" = CInt 404).
  { intros r. destruct (field r "status") as [| |n| |]; simpl; split; try easy.
    - intros ->%Z.eqb_eq. reflexivity.
    - intros [= ->]. reflexivity. }
  assert (Efilter : forall ip,
            filter (fun r => field r "ip" = ip) (rows sub)
            = filter (fun r => field r "status" = CInt 404 /\ field r "ip" = ip) (rows df)).
  { intros ip. unfold sub. cbn [rows]. rewrite list_filter_filter.
    apply list_filter_iff. intros r. rewrite E404. tauto. }
  exists out. split; [reflexivity|]. split; [exact Hlen|]. split; [exact Hsort|].
  split; [exact Hnd|]. split.
  - intros ip n Hin. rewrite <- Efilter. now apply Hent.
  - intros ip r Hr Hs Hi Hne. rewrite <- Efilter. apply (Hfull ip r); auto.
    unfold sub. cbn [rows]. apply list_elem_of_filter. split; [now apply E404|exact Hr].
Qed.

Lemma notfound_ips_spec_witness :
  notfound_ips notfound_sample
    = Ok [(CStr (lit "9.9.9.9"), 3); (CStr (lit "8.8.8.8"), 1)]
  /\ exists out, notfound_ips notfound_sample = Ok out /\ (length out <= 10)%nat.
Proof.
  split; [vm_compute; reflexivity|].
  destruct (notfound_ips_spec notfound_sample) as (out & H & Hl & _);
    [in_columns|in_columns|].
  exists out. auto.
Defined.

(* ===================================================================== *)
(** * The statistics by address and the table of errors *)
(* ===================================================================== *)

Lemma insert_group_rows k r gs :
  concat (map snd (insert_group k r gs)) ≡ₚ r :: concat (map snd gs).
Proof.
  induction gs as [|g gs IH]; simpl; [reflexivity|].
  destruct (key_ltb k g.1); [reflexivity|]. simpl. rewrite IH.
  now rewrite Permutation_middle.
Qed.

Lemma append_group_rows k r gs :
  k ∈ map fst gs ->
  concat (map snd (append_group k r gs)) ≡ₚ r :: concat (map snd gs).
Proof.
  induction gs as [|g gs IH]; simpl; [intros H; inversion H|].
  intros Hin. destruct (decide (g.1 = k)) as [E|E].
  - rewrite bool_decide_eq_true_2 by easy. simpl.
    rewrite <- app_assoc. simpl. now rewrite <- Permutation_middle.
  - rewrite bool_decide_eq_false_2 by easy. simpl.
    apply elem_of_cons in Hin as [Hin|Hin]; [congruence|].
    rewrite (IH Hin). now rewrite Permutation_middle.
Qed.

Lemma add_row_rows by_ gs r :
  concat (map snd (add_row by_ gs r)) ≡ₚ
    (if forallb notnull (key_of by_ r) then [r] else []) ++ concat (map snd gs).
Proof.
  unfold add_row. fold (key_of by_ r).
  destruct (existsb (fun c => negb (notnull c)) (key_of by_ r)) eqn:E.
  - replace (forallb notnull (key_of by_ r)) with false; [reflexivity|].
    symmetry. apply not_true_is_false. intros H.
    apply existsb_exists in E as (c & Hc & Hn). rewrite forallb_forall in H.
    rewrite (H c Hc) in Hn. discriminate.
  - replace (forallb notnull (key_of by_ r)) with true.
    + case_bool_decide; [now apply append_group_rows|apply insert_group_rows].
    + symmetry. apply forallb_forall. intros c Hc.
      destruct (notnull c) eqn:En; [reflexivity|].
      assert (existsb (fun c => negb (notnull c)) (key_of by_ r) = true)
        by (apply existsb_exists; exists c; now rewrite En).
      congruence.
Qed.

(** The groups of a table share out its rows that have a key. *)
Lemma groupby_rows df by_ gs :
  groupby df by_ = Ok gs ->
  concat (map snd gs) ≡ₚ filter (fun r => forallb notnull (key_of by_ r) = true) (rows df).
Proof.
  unfold groupby. destruct (forallb _ by_); [|discriminate]. intros [= <-].
  assert (H : forall rs gs0,
            concat (map snd (fold_left (add_row by_) rs gs0)) ≡ₚ
            filter (fun r => forallb notnull (key_of by_ r) = true) rs
            ++ concat (map snd gs0)).
  { induction rs as [|r rs IH]; intros gs0; [reflexivity|].
    cbn [fold_left]. rewrite IH, add_row_rows, filter_cons.
    destruct (forallb notnull (key_of by_ r)).
    - rewrite decide_True by reflexivity. simpl. now rewrite Permutation_middle.
    - rewrite decide_False by discriminate. reflexivity. }
  rewrite H. simpl. now rewrite app_nil_r.
Qed.

Lemma total_counts {A} (P : A -> Prop) `{!forall a, Decision (P a)}
    (ls : list (list A)) :
  total (map (fun l => Z.of_nat (length (filter P l))) ls)
  = Z.of_nat (length (filter P (concat ls))).
Proof.
  induction ls as [|l ls IH]; [reflexivity|]. simpl.
  rewrite filter_app, length_app, IH. lia.
Qed.

Lemma stats_of_counts g :
  total_requests (stats_of g)
    = Z.of_nat (length (filter (fun r => field r "status" <> CNull) g.2)) /\
  error_requests (stats_of g)
    = Z.of_nat (length (filter (fun r => ge_num 400 (field r "status") = true) g.2)).
Proof.
  unfold stats_of, count, sum_true. cbn [total_requests error_requests].
  rewrite map_map, !length_filter_map. split; [|reflexivity].
  do 2 f_equal. apply list_filter_iff. intros r.
  destruct (field r "status"); simpl; split; try easy; intros H; now destruct H.
Qed.

Lemma key_ip_present r :
  forallb notnull (key_of ["ip"%string] r) = true <-> field r "ip" <> CNull.
Proof.
  rewrite key_of_ip. simpl. rewrite andb_true_r.
  destruct (field r "ip"); simpl; split; try easy; intros H; now destruct H.
Qed.

(** X15. The statistics by address add up to the table: over the
    addresses of [error_stats], each listed once, the error_requests sum
    to the number of records of [error_df] (status 400 or more) that have
    an ip, and the total_requests to the number of records that have an
    ip and a status; for every address error_requests is at most
    total_requests. *)
Theorem error_stats_totals (df : DataFrame) :
  "ip"%string ∈ columns df -> "status"%string ∈ columns df ->
  exists stats errors,
    error_stats df = Ok stats /\ error_df df = Ok errors /\
    NoDup (map stat_ip stats) /\
    rows errors = filter (fun r => ge_num 400 (field r "status") = true) (rows df) /\
    total (map error_requests stats)
      = Z.of_nat (length (filter (fun r => field r "ip" <> CNull) (rows errors))) /\
    total (map total_requests stats)
      = Z.of_nat (length (filter (fun r => field r "ip" <> CNull /\
                                           field r "status" <> CNull) (rows df))) /\
    (forall st, st ∈ stats -> 0 <= error_requests st <= total_requests st).
Proof.
  intros Hip Hstatus.
  destruct (groupby_ok ["ip"%string] df) as [gs Hgs]; [repeat constructor; easy|].
  destruct (ip_groups df gs Hgs) as [Hnd Hg].
  pose proof (groupby_rows _ _ _ Hgs) as Hrows.
  exists (map stats_of gs),
    {| columns := columns df;
       rows := filter (fun r => ge_num 400 (field r "status") = true) (rows df) |}.
  split.
  { unfold error_stats. rewrite Hgs. unfold mbind, res_bind.
    now rewrite bool_decide_eq_true_2. }
  split.
  { unfold error_df. rewrite getcol_ok by easy. unfold mbind, res_bind, getrows.
    now rewrite map_map, (select_map (fun r => ge_num 400 (field r "status"))). }
  split.
  { rewrite map_map. apply NoDup_fmap_2_strong; [|eapply NoDup_fmap_1, Hnd].
    intros g1 g2 H1 H2. apply Hg in H1 as (ip1 & _ & -> & _).
    apply Hg in H2 as (ip2 & _ & -> & _). simpl. now intros ->. }
  split; [reflexivity|]. cbn [rows].
  split; [|split].
  - rewrite map_map.
    rewrite (map_ext _ (fun g => Z.of_nat (length
               (filter (fun r => ge_num 400 (field r "status") = true) g.2))))
      by (intros g; apply stats_of_counts).
    rewrite <- (map_map snd (fun l => Z.of_nat (length (filter _ l)))).
    rewrite total_counts, Hrows, !list_filter_filter.
    do 2 f_equal. apply list_filter_iff. intros r. rewrite key_ip_present. tauto.
  - rewrite map_map.
    rewrite (map_ext _ (fun g => Z.of_nat (length
               (filter (fun r => field r "status" <> CNull) g.2))))
      by (intros g; apply stats_of_counts).
    rewrite <- (map_map snd (fun l => Z.of_nat (length (filter _ l)))).
    rewrite total_counts, Hrows, !list_filter_filter.
    do 2 f_equal. apply list_filter_iff. intros r. rewrite key_ip_present. tauto.
  - intros st (g & -> & _)%list_elem_of_fmap.
    destruct (stats_of_counts g) as [-> ->]. split; [lia|].
    apply inj_le.
    rewrite <- (list_filter_filter_l (fun r => ge_num 400 (field r "status") = true)
                  (fun r => field r "status" <> CNull)).
    + apply length_filter.
    + intros r H. destruct (field r "status"); discriminate.
Qed.

Lemma error_stats_totals_witness :
  exists stats errors,
    error_stats error_rate_sample = Ok stats /\ error_df error_rate_sample = Ok errors /\
    total (map error_requests stats) = 16.
Proof.
  destruct (error_stats_totals error_rate_sample)
    as (stats & errors & H1 & H2 & _ & Hr & Hsum & _); [in_columns|in_columns|].
  exists stats, errors. split; [exact H1|]. split; [exact H2|].
  rewrite Hsum, Hr. vm_compute. reflexivity.
Defined.
